(** * run.ts: discovery of PDF reports and the per-file extraction jobs

    A shallow embedding of [run.ts].  The script walks the current working
    directory for [*.pdf] files, and for each one without a companion
    [.json] file it pipes a prompt to the external [polka] command and
    stores what the command printed.

    Conventions of the embedding.
    - A JavaScript string is a [string] (for the path functions, its list of
      characters).  Every test the script makes on a character compares it
      with an ASCII character (slash, dot, the letters of "pdf"), so the
      embedding does not depend on how other characters are encoded.
    - [node:path] is the POSIX flavour.
    - Time stamps and elapsed times of log lines are left out.
    - [normalizeString] is given on the segments between the slashes of a
      path: its loop over the characters acts at a separator only, on the
      characters since the separator before.
    - The file store maps every path at which [access] finds an entry to
      the text read there.  What the file system answers to [Bun.write] and
      to [unlink] is not decided by the script: it is given by the disk of
      the run, which may refuse a request (a directory at the path, missing
      permissions, no space left) and, where links are involved, may change
      what is found at other paths.
    - The external command is a function of what it reads and of the file
      store it starts in.  It may change the file store, its start or its
      pipes may throw, and it may never close its output or never exit: the
      script waits for both without a time limit.
    - [process.cwd()] gives the working directory, or throws when the
      directory cannot be determined. *)

From Stdlib Require Import String Ascii List ZArith Lia Bool.
From stdpp Require Import gmap strings list.
Import ListNotations.

Local Open Scope char_scope.
Local Open Scope list_scope.

(** ** Characters and scanning helpers *)

Definition chars := list ascii.

Definition is_slash (c : ascii) : bool := Ascii.eqb c "/".
Definition is_dot (c : ascii) : bool := Ascii.eqb c ".".

Fixpoint drop_while (f : ascii -> bool) (s : chars) : chars :=
  match s with
  | [] => []
  | c :: r => if f c then drop_while f r else s
  end.

Fixpoint take_while (f : ascii -> bool) (s : chars) : chars :=
  match s with
  | [] => []
  | c :: r => if f c then c :: take_while f r else []
  end.

Definition chars_eqb (a b : chars) : bool := bool_decide (a = b).

(** ** [node:path], POSIX *)

Module Path.

(** The segments between the slashes of a path; a path of [n] slashes has
    [n + 1] segments, some of them possibly empty. *)
Fixpoint segments (s : chars) : list chars :=
  match s with
  | [] => [[]]
  | c :: r =>
      if is_slash c then [] :: segments r
      else match segments r with
           | [] => [[c]]
           | seg :: segs => (c :: seg) :: segs
           end
  end.

Fixpoint unsegments (segs : list chars) : chars :=
  match segs with
  | [] => []
  | [seg] => seg
  | seg :: rest => seg ++ "/" :: unsegments rest
  end.

Definition dot : chars := ["."].
Definition dotdot : chars := ["."; "."].

(** One round of the loop of [normalizeString], taken at a separator (or at
    the end of the path) with [seg] the characters since the previous
    separator.  [res] is the result so far, as the stack of its segments,
    last segment first. *)
Definition normalize_step (allowAboveRoot : bool) (res : list chars) (seg : chars)
  : list chars :=
  if chars_eqb seg [] || chars_eqb seg dot then res
  else if chars_eqb seg dotdot then
    match res with
    | top :: below =>
        if chars_eqb top dotdot
        then (if allowAboveRoot then dotdot :: res else res)
        else below
    | [] => if allowAboveRoot then [dotdot] else []
    end
  else seg :: res.

Definition normalize_segments (allowAboveRoot : bool) (segs : list chars) (res : list chars)
  : list chars :=
  fold_left (normalize_step allowAboveRoot) segs res.

Definition normalizeString (path : chars) (allowAboveRoot : bool) : chars :=
  unsegments (rev (normalize_segments allowAboveRoot (segments path) [])).

Definition isAbsolute (path : chars) : bool :=
  match path with
  | c :: _ => is_slash c
  | [] => false
  end.

Definition trailingSeparator (path : chars) : bool :=
  match rev path with
  | c :: _ => is_slash c
  | [] => false
  end.

Definition normalize (path : chars) : chars :=
  match path with
  | [] => dot
  | _ =>
      let abs := isAbsolute path in
      let trailing := trailingSeparator path in
      let p := normalizeString path (negb abs) in
      match p with
      | [] => if abs then ["/"] else if trailing then ["."; "/"] else dot
      | _ =>
          let p := if trailing then p ++ ["/"] else p in
          if abs then "/" :: p else p
      end
  end.

Definition nonempty (s : chars) : bool :=
  match s with [] => false | _ => true end.

(** [join(...args)]: the non-empty arguments, separated by slashes and
    normalized. *)
Definition join (args : list chars) : chars :=
  match List.filter nonempty args with
  | [] => dot
  | parts => normalize (unsegments parts)
  end.

(** The loop of [resolve], from the last argument towards the first and
    then the working directory, until an absolute path was prepended. *)
Fixpoint resolve_scan (rargs : list chars) (resolvedPath : chars) : chars * bool :=
  match rargs with
  | [] => (resolvedPath, false)
  | path :: rest =>
      match path with
      | [] => resolve_scan rest resolvedPath
      | _ =>
          let resolvedPath := path ++ "/" :: resolvedPath in
          if isAbsolute path then (resolvedPath, true)
          else resolve_scan rest resolvedPath
      end
  end.

Definition resolve (cwd : chars) (args : list chars) : chars :=
  let '(resolvedPath, resolvedAbsolute) := resolve_scan (rev (cwd :: args)) [] in
  let p := normalizeString resolvedPath (negb resolvedAbsolute) in
  if resolvedAbsolute then "/" :: p
  else match p with [] => dot | _ => p end.

(** [dirname]: scanning from the end down to index 1, trailing slashes are
    skipped, then the last component, and the path is cut at the slash
    before it. *)
Definition dirname (path : chars) : chars :=
  match path with
  | [] => dot
  | c0 :: rest =>
      let hasRoot := is_slash c0 in
      let before := drop_while (fun c => negb (is_slash c))
                      (drop_while is_slash (rev rest)) in
      match before with
      | [] => if hasRoot then ["/"] else dot
      | _ :: kept =>
          if hasRoot && negb (nonempty kept) then ["/"; "/"]
          else c0 :: rev kept
      end
  end.

(** [basename] without a suffix argument. *)
Definition basename (path : chars) : chars :=
  rev (take_while (fun c => negb (is_slash c)) (drop_while is_slash (rev path))).

End Path.

(** ** The two regular expressions of the script *)

(** Case folding of the [i] flag: a character is compared through its upper
    case, and only the ASCII letters have one that is ASCII. *)
Definition canonicalize (c : ascii) : ascii :=
  let n := nat_of_ascii c in
  if (97 <=? n)%nat && (n <=? 122)%nat then ascii_of_nat (n - 32) else c.

Definition ci_eqb (pattern c : ascii) : bool :=
  Ascii.eqb (canonicalize c) (canonicalize pattern).

(** [/\.pdf$/i] anchored at the start of [s]: [s] is a dot and the three
    letters, in either case, and nothing more. *)
Definition pdf_ext_here (s : chars) : bool :=
  match s with
  | [c0; c1; c2; c3] => is_dot c0 && ci_eqb "p" c1 && ci_eqb "d" c2 && ci_eqb "f" c3
  | _ => false
  end.

(** [/\.pdf$/i.test(name)]: the search tries every start position. *)
Fixpoint test_pdf (s : chars) : bool :=
  pdf_ext_here s ||
  match s with
  | [] => false
  | _ :: r => test_pdf r
  end.

(** [/\.[^.]+$/] anchored at the start of [s]. *)
Definition ext_here (s : chars) : bool :=
  match s with
  | c :: r => is_dot c && Path.nonempty r && forallb (fun c => negb (is_dot c)) r
  | [] => false
  end.

(** [base.replace(/\.[^.]+$/i, "")]: the leftmost match is removed; as the
    pattern is anchored at the end, nothing follows it. *)
Fixpoint replace_ext (s : chars) : chars :=
  if ext_here s then []
  else match s with
       | [] => []
       | c :: r => c :: replace_ext r
       end.

(** ** [jsonPathForPdf] *)

Definition of_string : string -> chars := list_ascii_of_string.
Definition to_string : chars -> string := string_of_list_ascii.

Definition dirname (p : string) : string := to_string (Path.dirname (of_string p)).
Definition basename (p : string) : string := to_string (Path.basename (of_string p)).
Definition join (a b : string) : string := to_string (Path.join [of_string a; of_string b]).
Definition resolve (cwd : string) (args : list string) : string :=
  to_string (Path.resolve (of_string cwd) (map of_string args)).
Definition replace_extension (s : string) : string := to_string (replace_ext (of_string s)).

Definition json_ext : chars := [".";"j";"s";"o";"n"].

Definition jsonPathForPdf (pdfPath : string) : string :=
  let dir := dirname pdfPath in
  let base := replace_extension (basename pdfPath) in
  join dir (base ++ ".json")%string.

(** ** The console, the file store and the external process *)

Inductive Level := LOG | WARN | ERROR | RAW.

(** The lines the script prints, one constructor per call site. *)
Inductive Msg :=
| ScanDir (dir : string)
| SkipUnreadableDir (dir message : string)
| SkipDir (full : string)
| FoundPdf (full : string)
| DiscoveredPdfs (count : nat)
| ListedPdf (p : string)
| SpawnCmd (fullPath outPath : string)
| StdioNotAvailable
| WritingStdin (bytes : nat)
| StdoutChars (n : nat)
| StdoutNotJson (fullPath : string)
| StdoutPreview (stdoutText : string)
| PolkaExitCode (code : Z) (fullPath : string)
| PolkaFailed (fullPath : string)
| RemovedIncomplete (outPath : string)
| WroteJson (outPath : string) (bytes : nat)
| NoPdfFound
| Processing (count : nat)
| FileOf (i count : nat) (p : string)
| SkipExisting (outPath : string)
| ContinuingAfterFailure (p : string)
| UnhandledError (p e : string)
| Done.

#[local] Set Warnings "-register-all".

(** What [readdir(dir, { withFileTypes: true })] gives. *)
Inductive Readdir (A : Type) :=
| Entries (entries : list A)
| ReaddirFails (message : string).
Arguments Entries {A} entries.
Arguments ReaddirFails {A} message.

(** A directory entry, with what is below it when it is a directory.
    [Other] is an entry for which both [isDirectory()] and [isFile()] are
    false (a symbolic link, a socket, a device). *)
Inductive Dirent :=
| File (name : string)
| Directory (name : string) (content : Readdir Dirent)
| Other (name : string).

(** One run of the external command, as the script sees it: [Bun.spawn]
    throws; the process comes without standard input or output; a pipe
    throws; the process writes its output and exits; the output is never
    closed; the output is closed and the process never exits.  [after] is
    the file store as the command leaves it. *)
Inductive Proc :=
| SpawnThrows (e : string)
| NoStdio
| PipeThrows (e : string) (after : gmap string string)
| Exits (stdoutText : string) (code : Z) (after : gmap string string)
| NeverCloses (after : gmap string string)
| NeverExits (stdoutText : string) (after : gmap string string).

(** What the file system answers to [Bun.write(p, text)]: the text is stored
    at [p], [rest] being the store apart from that (the store as it was,
    unless the write went through a link); or the write throws and leaves
    the store [remains]. *)
Inductive WriteAnswer :=
| Stored (rest : gmap string string)
| WriteThrows (e : string) (remains : gmap string string).

(** What the file system answers to [unlink(p)]: the entry at [p] is
    removed, [rest] being the store apart from that; or the removal throws
    and nothing changes. *)
Inductive UnlinkAnswer :=
| Removed (rest : gmap string string)
| UnlinkThrows (e : string).

(** The disk of a run: its answer to a request, by the file store at the
    time of the request. *)
Record Disk := mkDisk {
  write_answer : string -> string -> gmap string string -> WriteAnswer;
  unlink_answer : string -> gmap string string -> UnlinkAnswer
}.

(** What [process.cwd()] does. *)
Inductive Cwd :=
| CwdIs (cwd : string)
| CwdThrows (e : string).

Record World := mkWorld {
  files : gmap string string;
  console : list (Level * Msg);
  (** the arguments of the calls of [runPolkaWithPath] so far *)
  jobs : list string
}.

(** ** Computations that print, change the file store, and may throw *)

(** How an awaited computation ends: with a value, with an exception, or not
    at all ([Pending]: it waits for an event that never comes). *)
Inductive Res (A : Type) :=
| Ok (a : A)
| Thrown (e : string)
| Pending.
Arguments Ok {A} a.
Arguments Thrown {A} e.
Arguments Pending {A}.

Definition M (A : Type) : Type := World -> Res A * World.

Definition ret {A} (a : A) : M A := fun w => (Ok a, w).

Definition bind {A B} (m : M A) (f : A -> M B) : M B :=
  fun w => match m w with
           | (Ok a, w') => f a w'
           | (Thrown e, w') => (Thrown e, w')
           | (Pending, w') => (Pending, w')
           end.

Definition throw {A} (e : string) : M A := fun w => (Thrown e, w).

Definition pending {A} : M A := fun w => (Pending, w).

Definition try_catch {A} (m : M A) (handler : string -> M A) : M A :=
  fun w => match m w with
           | (Ok a, w') => (Ok a, w')
           | (Thrown e, w') => handler e w'
           | (Pending, w') => (Pending, w')
           end.

Declare Scope m_scope.
Delimit Scope m_scope with M.
Notation "x <- m ;; k" := (bind m (fun x => k))
  (at level 100, m at next level, right associativity) : m_scope.
Notation "m ;; k" := (bind m (fun _ => k))
  (at level 100, right associativity) : m_scope.
Local Open Scope m_scope.

Definition emit (l : Level) (m : Msg) : M unit :=
  fun w => (Ok tt, mkWorld (files w) (console w ++ [(l, m)]) (jobs w)).

Definition when (b : bool) (m : M unit) : M unit := if b then m else ret tt.

(** [for (const x of xs) body], with the variables the body updates. *)
Definition for_of {A S} (body : A -> S -> M S) : list A -> S -> M S :=
  fix loop (xs : list A) (s : S) : M S :=
    match xs with
    | [] => ret s
    | x :: rest => s' <- body x s ;; loop rest s'
    end.

(** *** The file store *)

(** [access(p)] returns when an entry is found at the path, and throws
    otherwise. *)
Definition access (p : string) : M unit :=
  fun w => match files w !! p with
           | Some _ => (Ok tt, w)
           | None => (Thrown "ENOENT", w)
           end.

(** [unlink(p)] removes the entry at the path, or throws and changes
    nothing: the disk decides. *)
Definition unlink (disk : Disk) (p : string) : M unit :=
  fun w => match unlink_answer disk p (files w) with
           | Removed rest => (Ok tt, mkWorld (delete p rest) (console w) (jobs w))
           | UnlinkThrows e => (Thrown e, w)
           end.

(** [Bun.write(p, text)] creates or replaces the file and returns the number
    of bytes written, or throws: the disk decides. *)
Definition Bun_write (disk : Disk) (p text : string) : M nat :=
  fun w => match write_answer disk p text (files w) with
           | Stored rest =>
               (Ok (String.length text),
                mkWorld (<[p := text]> rest) (console w) (jobs w))
           | WriteThrows e remains => (Thrown e, mkWorld remains (console w) (jobs w))
           end.

(** [process.cwd()]. *)
Definition process_cwd (here : Cwd) : M string :=
  match here with
  | CwdIs cwd => ret cwd
  | CwdThrows e => throw e
  end.

Section Script.

(** The environment of a run. *)
Variable VERBOSE : bool.
Variable cwd : string.
Variable prompt : string.
(** Whether [JSON.parse] accepts a text. *)
Variable JSON_parses : string -> bool.
(** The external command: from what it reads on its standard input and the
    file store it starts in. *)
Variable polka : string -> gmap string string -> Proc.
(** What the file system answers to the writes and removals of the script. *)
Variable disk : Disk.

Definition log (m : Msg) : M unit := emit LOG m.
Definition warn (m : Msg) : M unit := emit WARN m.
Definition error (m : Msg) : M unit := emit ERROR m.
Definition v (m : Msg) : M unit := when VERBOSE (log m).

(** *** [findPdfPathsRecursive] *)

Definition excluded (name : string) : bool :=
  String.eqb name "node_modules" || String.eqb name ".git".

Definition is_pdf_name (name : string) : bool := test_pdf (of_string name).

(** The body of [walk] after [readdir], given how an entry is handled. *)
Definition walk_with (onEntry : string -> Dirent -> list string -> M (list string))
    (dir : string) (content : Readdir Dirent) (results : list string)
  : M (list string) :=
  v (ScanDir dir) ;;
  match content with
  | ReaddirFails message => warn (SkipUnreadableDir dir message) ;; ret results
  | Entries entries => for_of (onEntry dir) entries results
  end.

(** One round of the loop over the entries of [dir]. *)
Fixpoint walk_entry (dir : string) (e : Dirent) (results : list string) {struct e}
  : M (list string) :=
  match e with
  | Directory name content =>
      let full := resolve cwd [dir; name] in
      if excluded name then v (SkipDir full) ;; ret results
      else walk_with walk_entry full content results
  | File name =>
      let full := resolve cwd [dir; name] in
      if is_pdf_name name
      then v (FoundPdf full) ;; ret (results ++ [full])
      else ret results
  | Other _ => ret results
  end.

Definition walk : string -> Readdir Dirent -> list string -> M (list string) :=
  walk_with walk_entry.

Definition findPdfPathsRecursive (root : string) (tree : Readdir Dirent)
  : M (list string) :=
  results <- walk root tree [] ;;
  log (DiscoveredPdfs (length results)) ;;
  when VERBOSE (for_of (fun p _ => emit RAW (ListedPdf p)) results tt) ;;
  ret results.

(** *** [fileExists] *)

Definition fileExists (p : string) : M bool :=
  try_catch (access p ;; ret true) (fun _ => ret false).

(** *** [runPolkaWithPath] *)

Definition enter_job (fullPath : string) : M unit :=
  fun w => (Ok tt, mkWorld (files w) (console w) (jobs w ++ [fullPath])).

Definition set_files (after : gmap string string) : M unit :=
  fun w => (Ok tt, mkWorld after (console w) (jobs w)).

Definition stdin_of (fullPath : string) : string :=
  (prompt ++ String "010" (String "010" "---") ++ String "010" (String "010" "Process PDF: ")
     ++ fullPath ++ String "010" "")%string.

(** [Bun.spawn]: what the command will do is fixed by what it is going to
    read and by the files it finds. *)
Definition Bun_spawn (input : string) : M Proc :=
  fun w => match polka input (files w) with
           | SpawnThrows e => (Thrown e, w)
           | proc => (Ok proc, w)
           end.

Definition has_stdio (proc : Proc) : bool :=
  match proc with
  | NoStdio => false
  | _ => true
  end.

(** [proc.stdin.write(bytes); proc.stdin.end()] and
    [await new Response(proc.stdout).text()]. *)
Definition communicate (proc : Proc) : M string :=
  match proc with
  | Exits stdoutText _ after => set_files after ;; ret stdoutText
  | NeverExits stdoutText after => set_files after ;; ret stdoutText
  | NeverCloses after => set_files after ;; pending
  | PipeThrows e after => set_files after ;; throw e
  | SpawnThrows e => throw e
  | NoStdio => throw "stdin/stdout not available"
  end.

(** [await proc.exited]. *)
Definition exited (proc : Proc) : M Z :=
  match proc with
  | Exits _ code _ => ret code
  | NeverExits _ _ | NeverCloses _ => pending
  | _ => throw "no exit status"
  end.

Definition runPolkaWithPath (fullPath : string) : M Z :=
  enter_job fullPath ;;
  let outPath := jsonPathForPdf fullPath in
  v (SpawnCmd fullPath outPath) ;;
  let input := stdin_of fullPath in
  proc <- Bun_spawn input ;;
  if negb (has_stdio proc) then
    error StdioNotAvailable ;;
    ret 1%Z
  else
    v (WritingStdin (String.length input)) ;;
    stdoutText <- communicate proc ;;
    v (StdoutChars (String.length stdoutText)) ;;
    let isJson := JSON_parses stdoutText in
    when (negb isJson)
      (warn (StdoutNotJson fullPath) ;;
       when VERBOSE (emit RAW (StdoutPreview stdoutText))) ;;
    code <- exited proc ;;
    log (PolkaExitCode code fullPath) ;;
    (if negb (code =? 0)%Z then
       error (PolkaFailed fullPath) ;;
       try_catch (unlink disk outPath ;; v (RemovedIncomplete outPath)) (fun _ => ret tt)
     else
       written <- Bun_write disk outPath stdoutText ;;
       log (WroteJson outPath written)) ;;
    ret code.

(** *** The main loop *)

(** The branch a round of the main loop took.  The script only prints; the
    value names the branch for the statements below. *)
Inductive JobOutcome := Skipped | Succeeded | Failed | Errored.

(** The body of the main loop for [p = pdfs[i]]. *)
Definition iteration (count i : nat) (p : string) : M JobOutcome :=
  let outPath := jsonPathForPdf p in
  log (FileOf (i + 1) count p) ;;
  found <- fileExists outPath ;;
  if found then
    log (SkipExisting outPath) ;;
    ret Skipped
  else
    try_catch
      (code <- runPolkaWithPath p ;;
       if negb (code =? 0)%Z
       then warn (ContinuingAfterFailure p) ;; ret Failed
       else ret Succeeded)
      (fun e => error (UnhandledError p e) ;; ret Errored).

Fixpoint main_loop (count i : nat) (pdfs : list string) : M (list JobOutcome) :=
  match pdfs with
  | [] => ret []
  | p :: rest =>
      o <- iteration count i p ;;
      os <- main_loop count (S i) rest ;;
      ret (o :: os)
  end.

End Script.

(** *** The top level *)

(** How the script ends: by its call of [process.exit], by reaching its last
    line, by an exception nothing caught, or not at all. *)
Inductive Termination :=
| ExitCalled (status : Z)
| RanToEnd
| Uncaught (e : string)
| Hangs.

(** The exit status of the process, when the script ends. *)
Definition exit_status (t : Termination) : option Z :=
  match t with
  | ExitCalled status => Some status
  | RanToEnd => Some 0%Z
  | Uncaught _ => Some 1%Z
  | Hangs => None
  end.

Section TopLevel.

Variable VERBOSE : bool.
(** What [process.cwd()] does in this run. *)
Variable here : Cwd.
Variable prompt : string.
Variable JSON_parses : string -> bool.
Variable polka : string -> gmap string string -> Proc.
Variable disk : Disk.

Definition main (tree : Readdir Dirent) : M (Termination * list JobOutcome) :=
  cwd <- process_cwd here ;;
  pdfs <- findPdfPathsRecursive VERBOSE cwd cwd tree ;;
  if (length pdfs =? 0)%nat then
    warn NoPdfFound ;;
    ret (ExitCalled 0, [])
  else
    log (Processing (length pdfs)) ;;
    outcomes <- main_loop VERBOSE prompt JSON_parses polka disk (length pdfs) 0 pdfs ;;
    log Done ;;
    ret (RanToEnd, outcomes).

Definition run (tree : Readdir Dirent) (w : World) : Termination * list JobOutcome * World :=
  match main tree w with
  | (Ok (t, outcomes), w') => (t, outcomes, w')
  | (Thrown e, w') => (Uncaught e, [], w')
  | (Pending, w') => (Hangs, [], w')
  end.

End TopLevel.

(** * Vocabulary of the statements *)

Definition no_slash (s : chars) : Prop := Forall (fun c => is_slash c = false) s.

Definition normal (seg : chars) : Prop :=
  seg <> [] /\ seg <> Path.dot /\ seg <> Path.dotdot.

(** The stacks [normalizeString] builds: segments that are neither empty nor
    "." nor "..", above a run of ".." that is empty unless the path may climb
    above its root. *)
Inductive wf_stack (b : bool) : list chars -> Prop :=
| wf_dots k : (b = false -> k = 0) -> wf_stack b (repeat Path.dotdot k)
| wf_push seg st : normal seg -> wf_stack b st -> wf_stack b (seg :: st).

Definition good_stack (st : list chars) : Prop :=
  Forall (fun seg => seg <> [] /\ no_slash seg) st.

(** The stack of a path. *)
Definition stack_of (d : chars) : list chars :=
  Path.normalize_segments (negb (Path.isAbsolute d)) (Path.segments d) [].

Definition slash_first (s : chars) : Prop :=
  match s with
  | [] => True
  | c :: _ => is_slash c = true
  end.

Definition prefix_of (abs : bool) : chars := if abs then ["/"] else [].

Definition joined (abs : bool) (st : list chars) (n : chars) : chars :=
  prefix_of abs ++ Path.unsegments (rev (n :: st)).

Definition dir_of (abs : bool) (st : list chars) : chars :=
  match st with
  | [] => if abs then ["/"] else Path.dot
  | _ => prefix_of abs ++ Path.unsegments (rev st)
  end.

Definition no_dot (s : chars) : Prop := Forall (fun c => is_dot c = false) s.

(** The name of the companion file: not empty, not "." or "..", no slash. *)
Definition json_name (p : chars) : chars := replace_ext (Path.basename p) ++ json_ext.

Definition json_chars (p : chars) : chars :=
  Path.join [Path.dirname p; json_name p].

Definition finish (abs : bool) (st : list chars) : chars :=
  let p := Path.unsegments (rev st) in
  if abs then "/" :: p
  else match p with [] => Path.dot | _ => p end.

Definition has_dot (s : string) : bool := existsb is_dot (of_string s).

Definition ends_with (suffix s : string) : Prop :=
  exists stem, s = (stem ++ suffix)%string.

(** Two paths name the same directory when [resolve] gives the same absolute
    path for them, whatever the working directory. *)
Definition same_directory (a b : string) : Prop :=
  forall cwd, resolve cwd [a] = resolve cwd [b].

(** A name ends in ".pdf", in any mix of upper and lower case. *)
Definition ends_in_pdf (name : string) : Prop :=
  exists stem c1 c2 c3,
    of_string name = stem ++ ["."; c1; c2; c3] /\
    (c1 = "p" \/ c1 = "P") /\ (c2 = "d" \/ c2 = "D") /\ (c3 = "f" \/ c3 = "F").

Definition in_exclusion_set (name : string) : Prop :=
  name = "node_modules"%string \/ name = ".git"%string.

(** [candidate_in cwd dir entries p]: below the directory [dir] with the
    entries [entries], [p] is the path of a regular file whose name ends in
    ".pdf", and no directory on the way down to it is in the exclusion set. *)
Inductive candidate_in (cwd : string) : string -> list Dirent -> string -> Prop :=
| candidate_here dir entries name :
    In (File name) entries -> ends_in_pdf name ->
    candidate_in cwd dir entries (resolve cwd [dir; name])
| candidate_below dir entries name sub p :
    In (Directory name (Entries sub)) entries -> ~ in_exclusion_set name ->
    candidate_in cwd (resolve cwd [dir; name]) sub p ->
    candidate_in cwd dir entries p.

(** The second world is the first one with more lines on the console. *)
Definition steady (w w' : World) : Prop :=
  files w' = files w /\ jobs w' = jobs w /\
  exists lines, console w' = console w ++ lines.

(** Induction on a directory entry and, for a directory, on its entries. *)
Fixpoint Dirent_nested_ind (P : Dirent -> Prop)
    (HFile : forall name, P (File name))
    (HOther : forall name, P (Other name))
    (HFails : forall name message, P (Directory name (ReaddirFails message)))
    (HDir : forall name entries, Forall P entries -> P (Directory name (Entries entries)))
    (e : Dirent) {struct e} : P e :=
  match e with
  | File name => HFile name
  | Other name => HOther name
  | Directory name (ReaddirFails message) => HFails name message
  | Directory name (Entries entries) =>
      HDir name entries
        ((fix all (es : list Dirent) : Forall P es :=
            match es with
            | [] => List.Forall_nil P
            | e' :: es' =>
                List.Forall_cons P e' es'
                  (Dirent_nested_ind P HFile HOther HFails HDir e') (all es')
            end) entries)
  end.

(** What one round of the loop of [walk] does with an entry. *)
Definition walk_entry_ok (VERBOSE : bool) (cwd : string) (e : Dirent) : Prop :=
  forall dir results w,
  exists found w',
    walk_entry VERBOSE cwd dir e results w = (Ok (results ++ found), w') /\
    steady w w' /\
    forall p, In p found <-> candidate_in cwd dir [e] p.

Definition announce (count i : nat) (p : string) (w : World) : World :=
  mkWorld (files w) (console w ++ [(LOG, FileOf (i + 1) count p)]) (jobs w).

Definition world0 (fs : gmap string string) : World := mkWorld fs [] [].

(** A disk without links and without faults: a write stores its text, and a
    removal removes the entry or fails for want of one. *)
Definition plain_disk : Disk :=
  mkDisk (fun p text fs => Stored fs)
         (fun p fs => match fs !! p with
                      | Some _ => Removed fs
                      | None => UnlinkThrows "ENOENT"
                      end).

(** A disk with no space left: it refuses every write and stores nothing. *)
Definition full_disk : Disk :=
  mkDisk (fun p text fs => WriteThrows "ENOSPC" fs) (unlink_answer plain_disk).

(** A disk whose entries cannot be removed (as directories cannot, with
    [unlink]). *)
Definition keeping_disk : Disk :=
  mkDisk (write_answer plain_disk) (fun p fs => UnlinkThrows "EPERM").

(** A command that never closes its output, or never exits. *)
Definition hangs (proc : Proc) : bool :=
  match proc with
  | NeverCloses _ | NeverExits _ _ => true
  | _ => false
  end.

(** A command that ends, whatever it reads and finds. *)
Definition ends (polka : string -> gmap string string -> Proc) : Prop :=
  forall input fs, hangs (polka input fs) = false.

(** A disk without links at the paths of its requests: a request changes
    nothing but the entry at its path, and a refused write changes nothing. *)
Definition in_place (disk : Disk) : Prop :=
  (forall p text fs,
     match write_answer disk p text fs with
     | Stored rest => rest = fs
     | WriteThrows _ remains => remains = fs
     end) /\
  (forall p fs,
     match unlink_answer disk p fs with
     | Removed rest => rest = fs
     | UnlinkThrows _ => True
     end).

(** A disk that stores every text it is asked to, and changes nothing but
    the entry at the path of a request. *)
Definition obliging (disk : Disk) : Prop :=
  in_place disk /\ forall p text fs, exists rest, write_answer disk p text fs = Stored rest.

(** How a job ends after its command has exited, and the file store it
    leaves: by the exit status, and by what the disk answers. *)
Definition after_job (disk : Disk) (outPath stdoutText : string) (code : Z)
    (after : gmap string string) : Res Z * gmap string string :=
  if (code =? 0)%Z then
    match write_answer disk outPath stdoutText after with
    | Stored rest => (Ok code, <[outPath := stdoutText]> rest)
    | WriteThrows e remains => (Thrown e, remains)
    end
  else
    (Ok code,
     match unlink_answer disk outPath after with
     | Removed rest => delete outPath rest
     | UnlinkThrows _ => after
     end).

Definition sample_prompt : string := "Analyze the attached PDF audit report".

(** A command that prints an empty array and succeeds. *)
Definition polka_succeeds (input : string) (fs : gmap string string) : Proc :=
  Exits "[]" 0 fs.

(** A command that leaves a partial companion file behind and fails. *)
Definition polka_fails_midway (input : string) (fs : gmap string string) : Proc :=
  Exits "" 2 (<["/w/a/report.json"%string := "[{"%string]> fs).


(** Three candidates: the command fails for the first, cannot be started for
    the second, and succeeds for the third. *)
Definition polka_three (input : string) (fs : gmap string string) : Proc :=
  if String.eqb input (stdin_of sample_prompt "/w/a.pdf") then Exits "" 3 fs
  else if String.eqb input (stdin_of sample_prompt "/w/b.pdf") then SpawnThrows "ENOENT"
  else Exits "[]" 0 fs.

Definition is_json_array (s : string) : bool := String.prefix "[" s.

Definition verdict (code : Z) : JobOutcome :=
  if (code =? 0)%Z then Succeeded else Failed.

(** The outcome of a round, by how its job ended. *)
Definition outcome_of (r : Res Z) : JobOutcome :=
  match r with
  | Ok code => verdict code
  | _ => Errored
  end.

(** The run ends with a status that is not zero. *)
Definition aborted (t : Termination) : Prop :=
  exists status, exit_status t = Some status /\ status <> 0%Z.

Definition error_printed (w : World) : Prop := Exists (fun line => fst line = ERROR) (console w).

(** A root with "a/report.pdf", "a/report.json", "b/report2.pdf", an
    excluded directory, a link and a directory that cannot be read. *)
Definition scenario_tree : Readdir Dirent :=
  Entries [Directory "a" (Entries [File "report.pdf"; File "report.json"]);
           Directory "node_modules" (Entries [File "x.pdf"]);
           Directory "b" (Entries [File "report2.pdf"; Other "link.pdf";
                                   Directory "locked" (ReaddirFails "EACCES")])].

(** A directory without a document: one text file and an excluded directory. *)
Definition tree_without_pdf : Readdir Dirent :=
  Entries [File "notes.txt"; Directory "node_modules" (Entries [File "x.pdf"])].

(** ** Vocabulary of the further properties *)

(** A command that does not change the file store itself. *)
Definition leaves_store (polka : string -> gmap string string -> Proc) : Prop :=
  forall input fs,
    match polka input fs with
    | PipeThrows _ after | Exits _ _ after
    | NeverCloses after | NeverExits _ after => after = fs
    | SpawnThrows _ | NoStdio => True
    end.

Definition is_skipped (o : JobOutcome) : bool :=
  match o with
  | Skipped => true
  | _ => false
  end.

(** The candidates of the rounds that called [runPolkaWithPath]. *)
Fixpoint started (pdfs : list string) (outcomes : list JobOutcome) : list string :=
  match pdfs, outcomes with
  | p :: pdfs', o :: outcomes' =>
      if is_skipped o then started pdfs' outcomes' else p :: started pdfs' outcomes'
  | _, _ => []
  end.

(** The outcomes after which the companion file is there. *)
Definition kept (o : JobOutcome) : Prop := o = Succeeded \/ o = Skipped.

(** What a round of the main loop does, by the state of the companion path
    and by what the command does. *)
Definition round_of (prompt : string) (polka : string -> gmap string string -> Proc)
    (disk : Disk) (p : string) (w : World) (o : JobOutcome) (w' : World) : Prop :=
  (is_Some (files w !! jsonPathForPdf p) /\
   o = Skipped /\ files w' = files w /\ jobs w' = jobs w) \/
  (files w !! jsonPathForPdf p = None /\ jobs w' = jobs w ++ [p] /\
   match polka (stdin_of prompt p) (files w) with
   | SpawnThrows _ => o = Errored /\ files w' = files w
   | NoStdio => o = Failed /\ files w' = files w
   | PipeThrows _ after => o = Errored /\ files w' = after
   | Exits stdoutText code after =>
       o = outcome_of (fst (after_job disk (jsonPathForPdf p) stdoutText code after)) /\
       files w' = snd (after_job disk (jsonPathForPdf p) stdoutText code after)
   | NeverCloses _ | NeverExits _ _ => False
   end).

(** The lines that are printed in verbose mode only. *)
Definition verbose_only (m : Msg) : bool :=
  match m with
  | ScanDir _ | SkipDir _ | FoundPdf _ | ListedPdf _ | SpawnCmd _ _
  | WritingStdin _ | StdoutChars _ | StdoutPreview _ | RemovedIncomplete _ => true
  | _ => false
  end.

Definition quiet_lines (lines : list (Level * Msg)) : list (Level * Msg) :=
  List.filter (fun line => negb (verbose_only (snd line))) lines.

(** Two worlds that differ in verbose lines only. *)
Definition same_but_verbose (w1 w2 : World) : Prop :=
  files w1 = files w2 /\ jobs w1 = jobs w2 /\
  quiet_lines (console w1) = quiet_lines (console w2).

(** Two computations that, from worlds differing in verbose lines only,
    return the same way and leave such worlds again. *)
Definition agree {A} (m1 m2 : M A) : Prop :=
  forall w1 w2, same_but_verbose w1 w2 ->
    fst (m1 w1) = fst (m2 w2) /\ same_but_verbose (snd (m1 w1)) (snd (m2 w2)).

(** A name as [readdir] gives them: not empty, no slash, not "." or "..". *)
Definition plain_name (name : string) : Prop :=
  no_slash (of_string name) /\ normal (of_string name).

(** A path that [resolve] returned from an absolute working directory. *)
Definition resolved (p : string) : Prop :=
  exists cwd args, Path.isAbsolute (of_string cwd) = true /\ p = resolve cwd args.

(** A command without standard input and output. *)
Definition polka_no_stdio (input : string) (fs : gmap string string) : Proc := NoStdio.

(** A command that writes half of a companion file before its output pipe
    breaks. *)
Definition polka_breaks_midway (input : string) (fs : gmap string string) : Proc :=
  PipeThrows "EPIPE" (<["/w/a/report.json"%string := "[{"%string]> fs).

(** A command that prints its output and never exits. *)
Definition polka_lingers (input : string) (fs : gmap string string) : Proc :=
  NeverExits "[]" fs.

(** The candidates below a directory entry, in the order of the walk. *)
Fixpoint candidates_of_entry (cwd dir : string) (e : Dirent) : list string :=
  match e with
  | File name => if is_pdf_name name then [resolve cwd [dir; name]] else []
  | Other _ => []
  | Directory name content =>
      if excluded name then []
      else match content with
           | ReaddirFails _ => []
           | Entries entries =>
               flat_map (candidates_of_entry cwd (resolve cwd [dir; name])) entries
           end
  end.

Definition candidates_of (cwd dir : string) (content : Readdir Dirent) : list string :=
  match content with
  | ReaddirFails _ => []
  | Entries entries => flat_map (candidates_of_entry cwd dir) entries
  end.

Definition entry_name (e : Dirent) : string :=
  match e with
  | File name | Directory name _ | Other name => name
  end.

(** A directory entry as a file system has them: its name is a plain name,
    and the entries of a directory have different names. *)
Inductive tidy : Dirent -> Prop :=
| tidy_file name : plain_name name -> tidy (File name)
| tidy_other name : plain_name name -> tidy (Other name)
| tidy_unreadable name message :
    plain_name name -> tidy (Directory name (ReaddirFails message))
| tidy_directory name entries :
    plain_name name -> NoDup (map entry_name entries) -> Forall tidy entries ->
    tidy (Directory name (Entries entries)).

(** The candidates below an entry of the directory with the stack [st], as
    the stacks of their paths. *)
Fixpoint stacks_of_entry (st : list chars) (e : Dirent) : list (list chars) :=
  match e with
  | File name => if is_pdf_name name then [of_string name :: st] else []
  | Other _ => []
  | Directory name content =>
      if excluded name then []
      else match content with
           | ReaddirFails _ => []
           | Entries entries => flat_map (stacks_of_entry (of_string name :: st)) entries
           end
  end.

Definition path_of_stack (st : list chars) : string := to_string (finish true st).

(** The entries of [scenario_tree]. *)
Definition scenario_entries : list Dirent :=
  [Directory "a" (Entries [File "report.pdf"; File "report.json"]);
   Directory "node_modules" (Entries [File "x.pdf"]);
   Directory "b" (Entries [File "report2.pdf"; Other "link.pdf";
                           Directory "locked" (ReaddirFails "EACCES")])].

(** The line a round of the main loop ends with, by its outcome. *)
Definition closing_line (p : string) (o : JobOutcome) (line : Level * Msg) : Prop :=
  match o with
  | Skipped => line = (LOG, SkipExisting (jsonPathForPdf p))
  | Succeeded => exists bytes, line = (LOG, WroteJson (jsonPathForPdf p) bytes)
  | Failed => line = (WARN, ContinuingAfterFailure p)
  | Errored => exists e, line = (ERROR, UnhandledError p e)
  end.

(** The lines a run may print in the given mode: every line in verbose mode,
    and no verbose-only line otherwise. *)
Definition allowed (VERBOSE : bool) (line : Level * Msg) : Prop :=
  VERBOSE = false -> verbose_only (snd line) = false.

(** A computation that only adds lines to the console, all of them allowed. *)
Definition prints (VERBOSE : bool) {A} (m : M A) : Prop :=
  forall w, exists lines,
    console (snd (m w)) = console w ++ lines /\ Forall (allowed VERBOSE) lines.

(** * Properties *)

(** ** The path functions on the examples of the [node:path] manual *)

Example basename_manual : basename "/foo/bar/baz/asdf/quux.html" = "quux.html"%string.
Proof. reflexivity. Qed.

Example dirname_manual : dirname "/foo/bar/baz/asdf/quux" = "/foo/bar/baz/asdf"%string.
Proof. reflexivity. Qed.

Example join_manual :
  to_string (Path.join (map of_string ["/foo"; "bar"; "baz/asdf"; "quux"; ".."]%string))
  = "/foo/bar/baz/asdf"%string.
Proof. reflexivity. Qed.

Example normalize_manual :
  to_string (Path.normalize (of_string "/foo/bar//baz/asdf/quux/.."))
  = "/foo/bar/baz/asdf"%string.
Proof. reflexivity. Qed.

Example resolve_manual :
  resolve "/home/myself/node" ["/foo/bar"; "./baz"]%string = "/foo/bar/baz"%string /\
  resolve "/home/myself/node" ["/foo/bar"; "/tmp/file/"]%string = "/tmp/file"%string /\
  resolve "/home/myself/node" ["wwwroot"; "static_files/png/"; "../gif/image.gif"]%string
  = "/home/myself/node/wwwroot/static_files/gif/image.gif"%string.
Proof. repeat split; reflexivity. Qed.

Example dirname_edges :
  dirname "" = "."%string /\ dirname "/" = "/"%string /\ dirname "//a" = "//"%string /\
  dirname "a//b" = "a/"%string /\ dirname "a///" = "."%string /\
  dirname "/a/b/" = "/a"%string.
Proof. repeat split; reflexivity. Qed.

Example jsonPathForPdf_samples :
  jsonPathForPdf "/w/a/report.pdf" = "/w/a/report.json"%string /\
  jsonPathForPdf "/w/b/report2.PDF" = "/w/b/report2.json"%string /\
  jsonPathForPdf "/w/a.b.pdf" = "/w/a.b.json"%string /\
  jsonPathForPdf "/w/.pdf" = "/w/.json"%string /\
  jsonPathForPdf "/w/a." = "/w/a..json"%string /\
  jsonPathForPdf "../x/../y.pdf" = "../y.json"%string /\
  jsonPathForPdf "" = ".json"%string.
Proof. repeat split; reflexivity. Qed.

(** The scenario of a root with "a/report.pdf" next to "a/report.json" and
    "b/report2.pdf" without a companion: one round skips, one job runs and
    stores what the command printed. *)
Example run_scenario :
  let '(t, outcomes, w') :=
    run false (CwdIs "/w") sample_prompt is_json_array polka_succeeds plain_disk scenario_tree
      (world0 {["/w/a/report.json"%string := "old"%string]}) in
  t = RanToEnd /\ outcomes = [Skipped; Succeeded] /\
  jobs w' = ["/w/b/report2.pdf"%string] /\
  files w' !! "/w/a/report.json"%string = Some "old"%string /\
  files w' !! "/w/b/report2.json"%string = Some "[]"%string /\
  files w' !! "/w/node_modules/x.json"%string = None /\
  console w' =
    [(WARN, SkipUnreadableDir "/w/b/locked" "EACCES");
     (LOG, DiscoveredPdfs 2); (LOG, Processing 2);
     (LOG, FileOf 1 2 "/w/a/report.pdf");
     (LOG, SkipExisting "/w/a/report.json");
     (LOG, FileOf 2 2 "/w/b/report2.pdf");
     (LOG, PolkaExitCode 0 "/w/b/report2.pdf");
     (LOG, WroteJson "/w/b/report2.json" 2); (LOG, Done)].
Proof. vm_compute. repeat split. Qed.

(** ** Segments of a path *)

Lemma is_slash_true c : is_slash c = true <-> c = "/".
Proof. unfold is_slash. apply Ascii.eqb_eq. Qed.

Lemma segments_nonempty s : Path.segments s <> [].
Proof.
  destruct s as [|c r]; simpl; [discriminate|].
  destruct (is_slash c); [discriminate|].
  destruct (Path.segments r); discriminate.
Qed.

Lemma segments_app_slash a b :
  Path.segments (a ++ "/" :: b) = Path.segments a ++ Path.segments b.
Proof.
  induction a as [|c a IH]; simpl; [reflexivity|].
  destruct (is_slash c); [now rewrite IH|].
  rewrite IH. pose proof (segments_nonempty a) as Hne.
  destruct (Path.segments a); [contradiction|reflexivity].
Qed.

Lemma segments_no_slash s : no_slash s -> Path.segments s = [s].
Proof.
  induction 1 as [|c r Hc _ IH]; simpl; [reflexivity|].
  now rewrite Hc, IH.
Qed.

Lemma segments_all_no_slash s : Forall no_slash (Path.segments s).
Proof.
  induction s as [|c r IH]; simpl.
  - repeat constructor.
  - destruct (is_slash c) eqn:Hc.
    + constructor; [constructor|exact IH].
    + destruct (Path.segments r) as [|seg segs]; inversion IH; subst.
      * repeat constructor. exact Hc.
      * constructor; [constructor; assumption|assumption].
Qed.

Lemma segments_unsegments segs :
  segs <> [] -> Forall no_slash segs -> Path.segments (Path.unsegments segs) = segs.
Proof.
  induction segs as [|seg rest IH]; intros Hne Hall; [contradiction|].
  inversion Hall as [|? ? Hseg Hrest]; subst.
  destruct rest as [|s2 rest'].
  - simpl. now apply segments_no_slash.
  - change (Path.unsegments (seg :: s2 :: rest'))
      with (seg ++ "/" :: Path.unsegments (s2 :: rest')).
    rewrite segments_app_slash, IH by (assumption || discriminate).
    now rewrite segments_no_slash.
Qed.

Lemma unsegments_snoc segs n :
  segs <> [] -> Path.unsegments (segs ++ [n]) = Path.unsegments segs ++ "/" :: n.
Proof.
  induction segs as [|seg rest IH]; intros Hne; [contradiction|].
  destruct rest as [|s2 rest'].
  - reflexivity.
  - change (Path.unsegments ((seg :: s2 :: rest') ++ [n]))
      with (seg ++ "/" :: Path.unsegments ((s2 :: rest') ++ [n])).
    rewrite IH by discriminate.
    change (Path.unsegments (seg :: s2 :: rest'))
      with (seg ++ "/" :: Path.unsegments (s2 :: rest')).
    now rewrite <- app_assoc.
Qed.

(** ** The stack of [normalizeString] *)

Lemma chars_eqb_eq a b : chars_eqb a b = true <-> a = b.
Proof. unfold chars_eqb. apply bool_decide_eq_true. Qed.

Lemma chars_eqb_neq a b : chars_eqb a b = false <-> a <> b.
Proof. unfold chars_eqb. apply bool_decide_eq_false. Qed.

Lemma step_normal b st seg : normal seg -> Path.normalize_step b st seg = seg :: st.
Proof.
  intros (H1 & H2 & H3). unfold Path.normalize_step.
  apply chars_eqb_neq in H1, H2, H3. now rewrite H1, H2, H3.
Qed.

Lemma step_empty b st : Path.normalize_step b st [] = st.
Proof. reflexivity. Qed.

Lemma step_dot b st : Path.normalize_step b st Path.dot = st.
Proof. reflexivity. Qed.

Lemma step_dotdot b st :
  Path.normalize_step b st Path.dotdot =
  match st with
  | top :: below =>
      if chars_eqb top Path.dotdot then (if b then Path.dotdot :: st else st) else below
  | [] => if b then [Path.dotdot] else []
  end.
Proof. reflexivity. Qed.

Lemma seg_cases (seg : chars) :
  seg = [] \/ seg = Path.dot \/ seg = Path.dotdot \/ normal seg.
Proof.
  destruct (decide (seg = [])); [now left|].
  destruct (decide (seg = Path.dot)); [now right; left|].
  destruct (decide (seg = Path.dotdot)); [now right; right; left|].
  right; right; right. now repeat split.
Qed.

Lemma wf_nil b : wf_stack b [].
Proof. now apply (wf_dots b 0). Qed.

Lemma step_wf b st seg : wf_stack b st -> wf_stack b (Path.normalize_step b st seg).
Proof.
  intros Hwf.
  destruct (seg_cases seg) as [-> | [-> | [-> | Hn]]].
  - now rewrite step_empty.
  - now rewrite step_dot.
  - rewrite step_dotdot. destruct Hwf as [k Hk | top st Htop Hst].
    + destruct k as [|k]; simpl.
      * destruct b; [|apply wf_nil]. now apply (wf_dots true 1).
      * destruct b; [|now specialize (Hk eq_refl)].
        replace (chars_eqb Path.dotdot Path.dotdot) with true by reflexivity.
        now apply (wf_dots true (S (S k))).
    + destruct Htop as (_ & _ & H3). apply chars_eqb_neq in H3. now rewrite H3.
  - rewrite step_normal by assumption. now constructor.
Qed.

Lemma segments_wf b segs st :
  wf_stack b st -> wf_stack b (Path.normalize_segments b segs st).
Proof.
  revert st. induction segs as [|seg segs IH]; intros st Hwf; simpl; [assumption|].
  apply IH. now apply step_wf.
Qed.

Lemma normalize_segments_snoc b segs seg st :
  Path.normalize_segments b (segs ++ [seg]) st =
  Path.normalize_step b (Path.normalize_segments b segs st) seg.
Proof. unfold Path.normalize_segments. now rewrite fold_left_app. Qed.

Lemma normalize_segments_app b segs1 segs2 st :
  Path.normalize_segments b (segs1 ++ segs2) st =
  Path.normalize_segments b segs2 (Path.normalize_segments b segs1 st).
Proof. unfold Path.normalize_segments. now rewrite fold_left_app. Qed.

(** Normalizing the segments of a normalized stack gives the stack again. *)
Lemma renormalize_wf b st :
  wf_stack b st -> Path.normalize_segments b (rev st) [] = st.
Proof.
  induction 1 as [k Hk | seg st Hseg Hst IH].
  - induction k as [|k IHk]; [reflexivity|].
    simpl. rewrite normalize_segments_snoc.
    destruct b; [|now specialize (Hk eq_refl)].
    rewrite IHk by discriminate. rewrite step_dotdot.
    destruct k; reflexivity.
  - simpl. rewrite normalize_segments_snoc, IH. now apply step_normal.
Qed.

Lemma wf_top_cases b st :
  wf_stack b st ->
  st = [] \/ (exists below, st = Path.dotdot :: below) \/
  (exists top below, st = top :: below /\ normal top).
Proof.
  intros [k Hk | top below Htop Hbelow].
  - destruct k; [now left|]. right; left. now eexists.
  - right; right. now exists top, below.
Qed.

(** Replacing a relative path by its normalized form does not change what
    follows from it, whatever came before. *)
Lemma renormalize_prefix b' s0 segs :
  Path.normalize_segments b' (rev (Path.normalize_segments true segs [])) s0 =
  Path.normalize_segments b' segs s0.
Proof.
  induction segs as [|seg segs IH] using rev_ind; [reflexivity|].
  rewrite !normalize_segments_snoc, <- IH.
  pose proof (segments_wf true segs [] (wf_nil true)) as Hwf.
  set (T := Path.normalize_segments true segs []) in *.
  destruct (seg_cases seg) as [-> | [-> | [-> | Hn]]].
  - now rewrite !step_empty.
  - now rewrite !step_dot.
  - rewrite (step_dotdot true T).
    destruct (wf_top_cases _ _ Hwf) as [-> | [[below ->] | (top & below & -> & Htop)]].
    + reflexivity.
    + replace (chars_eqb Path.dotdot Path.dotdot) with true by reflexivity.
      change (rev (Path.dotdot :: Path.dotdot :: below))
        with (rev (Path.dotdot :: below) ++ [Path.dotdot]).
      now rewrite normalize_segments_snoc.
    + pose proof Htop as (_ & _ & H3). apply chars_eqb_neq in H3. rewrite H3.
      simpl rev. rewrite normalize_segments_snoc, (step_normal _ _ top Htop).
      rewrite step_dotdot. now rewrite H3.
  - rewrite (step_normal true T seg Hn). simpl rev.
    now rewrite normalize_segments_snoc.
Qed.

Lemma dotdot_no_slash : no_slash Path.dotdot.
Proof. repeat constructor. Qed.

Lemma step_good b st seg :
  good_stack st -> no_slash seg -> good_stack (Path.normalize_step b st seg).
Proof.
  intros Hst Hseg.
  assert (Hdd : good_stack (Path.dotdot :: st)).
  { constructor; [split; [discriminate|apply dotdot_no_slash]|assumption]. }
  destruct (seg_cases seg) as [-> | [-> | [-> | Hn]]].
  - now rewrite step_empty.
  - now rewrite step_dot.
  - rewrite step_dotdot. destruct st as [|top below].
    + destruct b; [assumption|constructor].
    + destruct (chars_eqb top Path.dotdot); [destruct b; assumption|].
      now inversion Hst.
  - rewrite step_normal by assumption. constructor; [|assumption].
    split; [apply Hn|assumption].
Qed.

Lemma segments_good b segs st :
  good_stack st -> Forall no_slash segs ->
  good_stack (Path.normalize_segments b segs st).
Proof.
  revert st. induction segs as [|seg segs IH]; intros st Hst Hall; simpl; [assumption|].
  inversion Hall; subst. apply IH; [|assumption]. now apply step_good.
Qed.

Lemma stack_of_wf d : wf_stack (negb (Path.isAbsolute d)) (stack_of d).
Proof. apply segments_wf, wf_nil. Qed.

Lemma stack_of_good d : good_stack (stack_of d).
Proof. apply segments_good; [constructor|apply segments_all_no_slash]. Qed.

(** ** Scanning a path from its end *)

Lemma no_slash_rev n : no_slash n -> no_slash (rev n).
Proof. apply Forall_rev. Qed.

Lemma take_while_no_slash n X :
  no_slash n -> slash_first X ->
  take_while (fun c => negb (is_slash c)) (n ++ X) = n.
Proof.
  induction 1 as [|c r Hc _ IH]; intros HX; simpl.
  - destruct X as [|x X]; [reflexivity|]. simpl in *. now rewrite HX.
  - rewrite Hc. simpl. now rewrite IH.
Qed.

Lemma drop_while_no_slash n X :
  no_slash n -> slash_first X ->
  drop_while (fun c => negb (is_slash c)) (n ++ X) = X.
Proof.
  induction 1 as [|c r Hc _ IH]; intros HX; simpl.
  - destruct X as [|x X]; [reflexivity|]. simpl in *. now rewrite HX.
  - rewrite Hc. simpl. now apply IH.
Qed.

Lemma drop_while_slash_head n X :
  n <> [] -> no_slash n -> drop_while is_slash (n ++ X) = n ++ X.
Proof.
  intros Hne Hn. destruct n as [|c r]; [contradiction|].
  inversion Hn as [|? ? Hc _]; subst. simpl. now rewrite Hc.
Qed.

Lemma rev_nonempty {A} (l : list A) : l <> [] -> rev l <> [].
Proof.
  intros Hne Hrev. apply Hne. rewrite <- (rev_involutive l), Hrev. reflexivity.
Qed.

Lemma basename_suffix X n :
  slash_first (rev X) -> n <> [] -> no_slash n -> Path.basename (X ++ n) = n.
Proof.
  intros HX Hne Hn. unfold Path.basename. rewrite rev_app_distr.
  rewrite drop_while_slash_head by (auto using rev_nonempty, no_slash_rev).
  rewrite take_while_no_slash by auto using no_slash_rev.
  apply rev_involutive.
Qed.

Lemma dirname_no_slash n : n <> [] -> no_slash n -> Path.dirname n = Path.dot.
Proof.
  intros Hne Hn. destruct n as [|c r]; [contradiction|].
  inversion Hn as [|? ? Hc Hr]; subst. unfold Path.dirname. rewrite Hc.
  destruct (decide (r = [])) as [-> | Hr']; [reflexivity|].
  rewrite <- (app_nil_r (rev r)).
  rewrite drop_while_slash_head by (auto using rev_nonempty, no_slash_rev).
  now rewrite drop_while_no_slash by (simpl; auto using no_slash_rev).
Qed.

Lemma dirname_root n : n <> [] -> no_slash n -> Path.dirname ("/" :: n) = ["/"].
Proof.
  intros Hne Hn. unfold Path.dirname.
  rewrite <- (app_nil_r (rev n)).
  rewrite drop_while_slash_head by (auto using rev_nonempty, no_slash_rev).
  now rewrite drop_while_no_slash by (simpl; auto using no_slash_rev).
Qed.

Lemma dirname_cut D n :
  D <> [] -> D <> ["/"] -> n <> [] -> no_slash n ->
  Path.dirname (D ++ "/" :: n) = D.
Proof.
  intros HD Hroot Hne Hn. destruct D as [|c0 D']; [contradiction|].
  simpl app. unfold Path.dirname.
  rewrite rev_app_distr. simpl rev. rewrite <- app_assoc. simpl app.
  rewrite drop_while_slash_head by (auto using rev_nonempty, no_slash_rev).
  rewrite drop_while_no_slash by (simpl; auto using no_slash_rev).
  destruct (rev D') as [|k ks] eqn:E.
  - assert (D' = []) as -> by (rewrite <- (rev_involutive D'), E; reflexivity).
    simpl. destruct (is_slash c0) eqn:Hc0; [|reflexivity].
    apply is_slash_true in Hc0. now subst.
  - simpl Path.nonempty. rewrite andb_false_r, <- E, rev_involutive. reflexivity.
Qed.

(** ** The shape of [join(dir, name)] *)

Lemma trailing_false X n :
  n <> [] -> no_slash n -> Path.trailingSeparator (X ++ n) = false.
Proof.
  intros Hne Hn. unfold Path.trailingSeparator. rewrite rev_app_distr.
  pose proof (rev_nonempty n Hne) as Hr. pose proof (no_slash_rev n Hn) as Hs.
  destruct (rev n) as [|c r]; [contradiction|]. now inversion Hs.
Qed.

Lemma unsegments_snoc_ne segs n : n <> [] -> Path.unsegments (segs ++ [n]) <> [].
Proof.
  intros Hne. destruct segs as [|seg rest]; [exact Hne|].
  rewrite unsegments_snoc by discriminate.
  intros H. apply app_eq_nil in H. destruct H; discriminate.
Qed.

Lemma unsegments_head segs :
  segs <> [] -> good_stack segs ->
  exists c U, Path.unsegments segs = c :: U /\ is_slash c = false.
Proof.
  intros Hne Hgood. destruct segs as [|seg rest]; [contradiction|].
  inversion Hgood as [|? ? [Hseg Hns] _]; subst.
  destruct seg as [|c seg']; [contradiction|]. inversion Hns; subst.
  destruct rest; simpl; eauto.
Qed.

Lemma join_two d n : d <> [] -> n <> [] -> Path.join [d; n] = Path.normalize (d ++ "/" :: n).
Proof.
  intros Hd Hn. destruct d; [contradiction|]. destruct n; [contradiction|]. reflexivity.
Qed.

Lemma isAbsolute_app d X : d <> [] -> Path.isAbsolute (d ++ X) = Path.isAbsolute d.
Proof. destruct d; [contradiction|reflexivity]. Qed.

Lemma normalize_dir_name d n :
  d <> [] -> no_slash n -> normal n ->
  Path.normalize (d ++ "/" :: n) = joined (Path.isAbsolute d) (stack_of d) n.
Proof.
  intros Hd Hns Hn. pose proof Hn as (Hne & _ & _).
  unfold Path.normalize.
  destruct (d ++ "/" :: n) eqn:E; [destruct d; discriminate|]. rewrite <- E. clear E.
  rewrite isAbsolute_app by assumption.
  assert (Htr : Path.trailingSeparator (d ++ "/" :: n) = false).
  { change (d ++ "/" :: n) with (d ++ ["/"] ++ n). rewrite app_assoc.
    now apply trailing_false. }
  rewrite Htr.
  unfold Path.normalizeString.
  rewrite segments_app_slash, (segments_no_slash n Hns), normalize_segments_snoc.
  fold (stack_of d). rewrite step_normal by assumption.
  unfold joined, prefix_of. simpl rev.
  pose proof (unsegments_snoc_ne (rev (stack_of d)) n Hne) as Hp.
  destruct (Path.unsegments (rev (stack_of d) ++ [n])) eqn:E;
    [exfalso; apply Hp; exact E|].
  destruct (Path.isAbsolute d); reflexivity.
Qed.

Lemma joined_basename abs st n :
  good_stack st -> n <> [] -> no_slash n -> Path.basename (joined abs st n) = n.
Proof.
  intros Hgood Hne Hns. unfold joined. simpl rev.
  destruct (decide (st = [])) as [-> | Hst].
  - simpl. apply basename_suffix; [destruct abs; simpl; auto|assumption..].
  - rewrite unsegments_snoc by now apply rev_nonempty.
    change ("/" :: n) with (["/"] ++ n). rewrite !app_assoc.
    apply basename_suffix; [|assumption..].
    rewrite rev_app_distr. reflexivity.
Qed.

Lemma joined_dirname abs st n :
  good_stack st -> n <> [] -> no_slash n ->
  Path.dirname (joined abs st n) = dir_of abs st.
Proof.
  intros Hgood Hne Hns. unfold joined, dir_of. simpl rev.
  destruct st as [|top below].
  - destruct abs; simpl; [now apply dirname_root|now apply dirname_no_slash].
  - rewrite unsegments_snoc by (apply rev_nonempty; discriminate).
    rewrite app_assoc.
    destruct (unsegments_head (rev (top :: below))) as (c & U & HU & Hc);
      [apply rev_nonempty; discriminate|now apply Forall_rev|].
    apply dirname_cut; try assumption; rewrite HU.
    + destruct abs; discriminate.
    + destruct abs; simpl; [discriminate|].
      intros H. injection H as -> _. discriminate.
Qed.

Lemma segments_slash x : Path.segments ("/" :: x) = [] :: Path.segments x.
Proof. reflexivity. Qed.

Lemma normalize_segments_skip b segs st :
  Path.normalize_segments b ([] :: segs) st = Path.normalize_segments b segs st.
Proof. reflexivity. Qed.

Lemma dir_of_props abs st :
  wf_stack (negb abs) st -> good_stack st ->
  dir_of abs st <> [] /\ Path.isAbsolute (dir_of abs st) = abs /\
  stack_of (dir_of abs st) = st.
Proof.
  intros Hwf Hgood. unfold dir_of.
  destruct st as [|top below]; [destruct abs; repeat split; discriminate|].
  destruct (unsegments_head (rev (top :: below))) as (c & U & HU & Hc);
    [apply rev_nonempty; discriminate|now apply Forall_rev|].
  assert (Hseg : Path.segments (Path.unsegments (rev (top :: below))) = rev (top :: below)).
  { apply segments_unsegments; [apply rev_nonempty; discriminate|].
    apply Forall_rev. eapply Forall_impl; [exact Hgood|]. now intros ? []. }
  assert (Habs : Path.isAbsolute (prefix_of abs ++ Path.unsegments (rev (top :: below))) = abs).
  { rewrite HU. destruct abs; simpl; [reflexivity|exact Hc]. }
  split; [|split; [exact Habs|]].
  - rewrite HU. destruct abs; discriminate.
  - unfold stack_of. rewrite Habs.
    destruct abs.
    + change (prefix_of true ++ Path.unsegments (rev (top :: below)))
        with ("/" :: Path.unsegments (rev (top :: below))).
      rewrite segments_slash, Hseg, normalize_segments_skip.
      now apply renormalize_wf.
    + change (prefix_of false ++ Path.unsegments (rev (top :: below)))
        with (Path.unsegments (rev (top :: below))).
      rewrite Hseg. now apply renormalize_wf.
Qed.

(** ** The extension *)

Lemma forallb_no_dot_json x :
  forallb (fun c => negb (is_dot c)) (x ++ json_ext) = false.
Proof. induction x as [|c x IH]; [reflexivity|]. simpl. now rewrite IH, andb_false_r. Qed.

Lemma replace_ext_json x : replace_ext (x ++ json_ext) = x.
Proof.
  induction x as [|c x IH]; [reflexivity|].
  simpl app. unfold replace_ext; fold replace_ext. unfold ext_here.
  rewrite forallb_no_dot_json, !andb_false_r. now rewrite IH.
Qed.

Lemma replace_ext_no_dot s : no_dot s -> replace_ext s = s.
Proof.
  induction 1 as [|c r Hc _ IH]; [reflexivity|].
  unfold replace_ext; fold replace_ext. unfold ext_here. rewrite Hc. simpl.
  now rewrite IH.
Qed.

Lemma replace_ext_prefix s : exists t, s = replace_ext s ++ t.
Proof.
  induction s as [|c r [t IH]]; [now exists []|].
  unfold replace_ext; fold replace_ext.
  destruct (ext_here (c :: r)); [now exists (c :: r)|].
  exists t. simpl. now rewrite <- IH.
Qed.

Lemma replace_ext_no_slash s : no_slash s -> no_slash (replace_ext s).
Proof.
  intros Hs. destruct (replace_ext_prefix s) as [t Ht].
  rewrite Ht in Hs. now apply Forall_app in Hs.
Qed.

Lemma basename_no_slash p : no_slash (Path.basename p).
Proof.
  unfold Path.basename. apply Forall_rev.
  induction (drop_while is_slash (rev p)) as [|c r IH]; simpl; [constructor|].
  destruct (is_slash c) eqn:Hc; simpl; constructor; assumption.
Qed.

Lemma dirname_nonempty p : Path.dirname p <> [].
Proof.
  unfold Path.dirname. destruct p as [|c0 rest]; [discriminate|].
  destruct (drop_while _ _); [destruct (is_slash c0); discriminate|].
  destruct (is_slash c0 && _); discriminate.
Qed.

Lemma json_ext_normal x : normal (x ++ json_ext).
Proof.
  repeat split; intros H; apply (f_equal (@length ascii)) in H;
    rewrite length_app in H; simpl in H; lia.
Qed.

Lemma json_name_no_slash p : no_slash (json_name p).
Proof.
  apply Forall_app. split; [apply replace_ext_no_slash, basename_no_slash|].
  repeat constructor.
Qed.

Lemma json_chars_joined p :
  json_chars p =
  joined (Path.isAbsolute (Path.dirname p)) (stack_of (Path.dirname p)) (json_name p).
Proof.
  unfold json_chars. pose proof (json_ext_normal (replace_ext (Path.basename p))) as Hn.
  rewrite join_two by (apply dirname_nonempty || apply Hn).
  apply normalize_dir_name; [apply dirname_nonempty|apply json_name_no_slash|exact Hn].
Qed.

Lemma json_chars_basename p : Path.basename (json_chars p) = json_name p.
Proof.
  rewrite json_chars_joined.
  apply joined_basename; [apply stack_of_good| |apply json_name_no_slash].
  apply (json_ext_normal (replace_ext (Path.basename p))).
Qed.

Lemma json_chars_dirname p :
  Path.dirname (json_chars p) =
  dir_of (Path.isAbsolute (Path.dirname p)) (stack_of (Path.dirname p)).
Proof.
  rewrite json_chars_joined.
  apply joined_dirname; [apply stack_of_good| |apply json_name_no_slash].
  apply (json_ext_normal (replace_ext (Path.basename p))).
Qed.

Lemma json_chars_idempotent p : json_chars (json_chars p) = json_chars p.
Proof.
  set (d := Path.dirname p).
  destruct (dir_of_props (Path.isAbsolute d) (stack_of d))
    as (Hne & Habs & Hst); [apply stack_of_wf|apply stack_of_good|].
  assert (Hname : json_name (json_chars p) = json_name p).
  { unfold json_name at 1. rewrite json_chars_basename. unfold json_name.
    now rewrite replace_ext_json. }
  unfold json_chars at 1. rewrite Hname, json_chars_dirname. fold d.
  pose proof (json_ext_normal (replace_ext (Path.basename p))) as Hn.
  rewrite join_two by (assumption || apply Hn).
  rewrite normalize_dir_name by (assumption || apply json_name_no_slash || apply Hn).
  rewrite Habs, Hst. symmetry. apply json_chars_joined.
Qed.

(** ** From characters to strings *)

Lemma of_to_string s : of_string (to_string s) = s.
Proof. apply list_ascii_of_string_of_list_ascii. Qed.

Lemma to_of_string s : to_string (of_string s) = s.
Proof. apply string_of_list_ascii_of_string. Qed.

Lemma of_string_app a b : of_string (a ++ b)%string = of_string a ++ of_string b.
Proof. induction a as [|c a IH]; simpl; [reflexivity|]. now rewrite <- IH. Qed.

Lemma to_string_app a b : to_string (a ++ b) = (to_string a ++ to_string b)%string.
Proof. induction a as [|c a IH]; simpl; [reflexivity|]. now rewrite IH. Qed.

Lemma jsonPathForPdf_chars p : jsonPathForPdf p = to_string (json_chars (of_string p)).
Proof.
  unfold jsonPathForPdf, join, dirname, basename, replace_extension.
  now rewrite of_string_app, !of_to_string.
Qed.

(** ** [resolve] of one path *)

Lemma segments_trailing x : Path.segments (x ++ ["/"]) = Path.segments x ++ [[]].
Proof. apply (segments_app_slash x []). Qed.

Lemma normalize_segments_trailing b segs st :
  Path.normalize_segments b (segs ++ [[]]) st = Path.normalize_segments b segs st.
Proof. now rewrite normalize_segments_snoc, step_empty. Qed.

Lemma resolve_one cwd x :
  x <> [] ->
  Path.resolve cwd [x] =
  if Path.isAbsolute x
  then finish true (Path.normalize_segments false (Path.segments x) [])
  else let b := negb (Path.isAbsolute cwd) in
       finish (Path.isAbsolute cwd)
         (Path.normalize_segments b (Path.segments x)
            (Path.normalize_segments b (Path.segments cwd) [])).
Proof.
  intros Hx. unfold Path.resolve. simpl rev. simpl app.
  destruct x as [|c x']; [contradiction|].
  unfold Path.resolve_scan.
  destruct (Path.isAbsolute (c :: x')) eqn:Habs.
  - unfold Path.normalizeString, finish.
    change ((c :: x') ++ ["/"]) with ((c :: x') ++ ["/"]).
    now rewrite segments_trailing, normalize_segments_trailing.
  - destruct cwd as [|k cwd'].
    + unfold Path.normalizeString, finish.
      now rewrite segments_trailing, normalize_segments_trailing.
    + cbv zeta. destruct (Path.isAbsolute (k :: cwd')) eqn:Hcwd;
        unfold Path.normalizeString, finish;
        now rewrite segments_app_slash, segments_trailing, app_assoc,
          normalize_segments_trailing, normalize_segments_app.
Qed.

Lemma segments_dir_of_relative d b s0 :
  Path.isAbsolute d = false ->
  Path.normalize_segments b (Path.segments (dir_of false (stack_of d))) s0 =
  Path.normalize_segments b (Path.segments d) s0.
Proof.
  intros Habs. rewrite <- (renormalize_prefix b s0 (Path.segments d)).
  pose proof (stack_of_good d) as Hgood. unfold stack_of in *. rewrite Habs in *.
  simpl negb in *. set (st := Path.normalize_segments true (Path.segments d) []) in *.
  unfold dir_of. destruct st as [|top below] eqn:E; [reflexivity|].
  change (prefix_of false ++ ?u) with u. rewrite segments_unsegments; [reflexivity| |].
  - apply rev_nonempty. discriminate.
  - apply Forall_rev. eapply Forall_impl; [exact Hgood|]. now intros ? [].
Qed.

Lemma stack_of_absolute x :
  Path.isAbsolute x = true ->
  stack_of x = Path.normalize_segments false (Path.segments x) [].
Proof. unfold stack_of. now intros ->. Qed.

Lemma resolve_dir_of cwd d :
  d <> [] ->
  Path.resolve cwd [dir_of (Path.isAbsolute d) (stack_of d)] = Path.resolve cwd [d].
Proof.
  intros Hd.
  destruct (dir_of_props (Path.isAbsolute d) (stack_of d))
    as (Hne & Habs & Hst); [apply stack_of_wf|apply stack_of_good|].
  rewrite !resolve_one by assumption. rewrite Habs.
  destruct (Path.isAbsolute d) eqn:E.
  - now rewrite <- (stack_of_absolute _ Habs), <- (stack_of_absolute _ E), Hst.
  - cbv zeta. now rewrite segments_dir_of_relative.
Qed.

Lemma wf_tail b top below : wf_stack b (top :: below) -> wf_stack b below.
Proof.
  intros H. inversion H as [k Hk E | ? ? _ Hbelow]; [|assumption].
  destruct k as [|k]; [discriminate|]. injection E as _ <-.
  apply wf_dots. intros Hb. now specialize (Hk Hb).
Qed.

Lemma finish_dirname abs st :
  good_stack st -> Path.dirname (finish abs st) = dir_of abs (tl st).
Proof.
  intros Hgood. destruct st as [|top below]; [now destruct abs|].
  inversion Hgood as [|? ? [Htop Hns] Hbelow]; subst.
  simpl tl. rewrite <- (joined_dirname abs below top) by assumption.
  f_equal. unfold finish, joined, prefix_of. simpl rev.
  pose proof (unsegments_snoc_ne (rev below) top Htop) as Hp.
  destruct (Path.unsegments (rev below ++ [top])) eqn:E;
    [exfalso; apply Hp; exact E|].
  now destruct abs.
Qed.

(** What [resolve] returns is a normalized path. *)
Lemma resolve_finish cwd args :
  exists abs st,
    Path.resolve cwd args = finish abs st /\
    wf_stack (negb abs) st /\ good_stack st.
Proof.
  unfold Path.resolve.
  destruct (Path.resolve_scan (rev (cwd :: args)) []) as [rp abs].
  exists abs, (Path.normalize_segments (negb abs) (Path.segments rp) []).
  split; [reflexivity|split].
  - apply segments_wf, wf_nil.
  - apply segments_good; [constructor|apply segments_all_no_slash].
Qed.

Lemma json_chars_dirname_resolved cwd args :
  Path.dirname (json_chars (Path.resolve cwd args)) = Path.dirname (Path.resolve cwd args).
Proof.
  destruct (resolve_finish cwd args) as (abs & st & -> & Hwf & Hgood).
  rewrite json_chars_dirname, finish_dirname by assumption.
  assert (Hwf' : wf_stack (negb abs) (tl st)).
  { destruct st; [exact Hwf|]. now apply wf_tail in Hwf. }
  assert (Hgood' : good_stack (tl st)).
  { destruct st; [exact Hgood|]. now inversion Hgood. }
  destruct (dir_of_props abs (tl st) Hwf' Hgood') as (_ & Habs & Hst).
  now rewrite Habs, Hst.
Qed.

(** ** The companion path *)

Lemma has_dot_no_dot s : has_dot s = false -> no_dot (of_string s).
Proof.
  unfold has_dot, no_dot. induction (of_string s) as [|c r IH]; simpl; [constructor|].
  intros H. apply orb_false_elim in H as [Hc Hr]. constructor; auto.
Qed.

(** C9: [jsonPathForPdf] is a function from strings to strings, defined on
    every string, and mapping a path twice gives the same companion path as
    mapping it once. *)
Theorem jsonPathForPdf_idempotent (pdfPath : string) :
  jsonPathForPdf (jsonPathForPdf pdfPath) = jsonPathForPdf pdfPath.
Proof.
  rewrite !jsonPathForPdf_chars, of_to_string. f_equal. apply json_chars_idempotent.
Qed.

(** C10: when the base name of the path has no dot, nothing is stripped and
    the companion file is named by the base name followed by ".json"; for
    every path the companion path ends in ".json", its base name is the
    stripped base name followed by ".json", and its directory is the
    directory of the path: [resolve] gives the same absolute path for the
    two directory names, and they are the same string when the path is one
    that [resolve] returned, as the candidates of discovery are. *)
Theorem jsonPathForPdf_name_and_directory (pdfPath : string) :
  (has_dot (basename pdfPath) = false ->
     replace_extension (basename pdfPath) = basename pdfPath /\
     basename (jsonPathForPdf pdfPath) = (basename pdfPath ++ ".json")%string) /\
  ends_with ".json" (jsonPathForPdf pdfPath) /\
  basename (jsonPathForPdf pdfPath) =
    (replace_extension (basename pdfPath) ++ ".json")%string /\
  same_directory (dirname (jsonPathForPdf pdfPath)) (dirname pdfPath) /\
  (forall cwd args, pdfPath = resolve cwd args ->
     dirname (jsonPathForPdf pdfPath) = dirname pdfPath).
Proof.
  assert (Hbase : basename (jsonPathForPdf pdfPath) =
                  (replace_extension (basename pdfPath) ++ ".json")%string).
  { unfold basename at 1. rewrite jsonPathForPdf_chars, of_to_string, json_chars_basename.
    unfold json_name, replace_extension, basename.
    now rewrite to_string_app, of_to_string. }
  assert (Hstrip : has_dot (basename pdfPath) = false ->
                   replace_extension (basename pdfPath) = basename pdfPath).
  { intros Hdot. unfold replace_extension.
    rewrite replace_ext_no_dot by now apply has_dot_no_dot.
    apply to_of_string. }
  repeat split.
  - now apply Hstrip.
  - rewrite Hbase. now rewrite Hstrip.
  - rewrite jsonPathForPdf_chars, json_chars_joined. unfold joined. simpl rev.
    set (st := stack_of _). set (pre := prefix_of _).
    destruct (decide (rev st = [])) as [E | E].
    + rewrite E. simpl Path.unsegments. unfold json_name.
      rewrite app_assoc, to_string_app. now eexists.
    + rewrite unsegments_snoc by assumption. unfold json_name.
      change ("/" :: ?a ++ json_ext) with (("/" :: a) ++ json_ext).
      rewrite !app_assoc, to_string_app. now eexists.
  - exact Hbase.
  - intros cwd. unfold resolve, dirname. simpl map. rewrite !of_to_string.
    rewrite jsonPathForPdf_chars, of_to_string, json_chars_dirname.
    f_equal. apply resolve_dir_of, dirname_nonempty.
  - intros cwd args ->. unfold dirname, resolve.
    rewrite jsonPathForPdf_chars, !of_to_string. f_equal.
    apply json_chars_dirname_resolved.
Qed.

(** C10, at "docs/README". *)
Lemma jsonPathForPdf_README :
  jsonPathForPdf "docs/README" = "docs/README.json"%string /\
  basename (jsonPathForPdf "docs/README") = "README.json"%string.
Proof.
  destruct (jsonPathForPdf_name_and_directory "docs/README") as (Hname & _).
  destruct Hname as (_ & Hb); [reflexivity|].
  split; [reflexivity|exact Hb].
Defined.

(** ** Discovery *)

Lemma steady_refl w : steady w w.
Proof. repeat split. exists []. now rewrite app_nil_r. Qed.

Lemma steady_trans w1 w2 w3 : steady w1 w2 -> steady w2 w3 -> steady w1 w3.
Proof.
  intros (Hf & Hj & l1 & Hc) (Hf' & Hj' & l2 & Hc'). repeat split; try congruence.
  exists (l1 ++ l2). now rewrite Hc', Hc, app_assoc.
Qed.

Lemma emit_steady l m w : exists w', emit l m w = (Ok tt, w') /\ steady w w'.
Proof. eexists. split; [reflexivity|]. repeat split. simpl. now eexists. Qed.

Lemma v_steady VERBOSE m w : exists w', v VERBOSE m w = (Ok tt, w') /\ steady w w'.
Proof.
  unfold v, when, log. destruct VERBOSE; [apply emit_steady|].
  eexists. split; [reflexivity|apply steady_refl].
Qed.

Lemma ci_eqb_cases (l c : ascii) :
  (l = "p" \/ l = "d" \/ l = "f") ->
  ci_eqb l c = true <-> c = l \/ c = ascii_of_nat (nat_of_ascii l - 32).
Proof.
  intros Hl. split.
  - destruct c as [[] [] [] [] [] [] [] []];
      destruct Hl as [-> | [-> | ->]]; vm_compute; intros H; try discriminate H; auto.
  - intros [-> | ->]; destruct Hl as [-> | [-> | ->]]; reflexivity.
Qed.

Lemma pdf_ext_here_spec s :
  pdf_ext_here s = true <->
  exists c1 c2 c3, s = ["."; c1; c2; c3] /\
    (c1 = "p" \/ c1 = "P") /\ (c2 = "d" \/ c2 = "D") /\ (c3 = "f" \/ c3 = "F").
Proof.
  unfold pdf_ext_here. split.
  - destruct s as [|c0 [|c1 [|c2 [|c3 [|? ?]]]]]; try discriminate.
    rewrite !andb_true_iff. intros (((H0 & H1) & H2) & H3).
    apply Ascii.eqb_eq in H0. subst c0.
    apply ci_eqb_cases in H1, H2, H3; auto.
    exists c1, c2, c3. auto.
  - intros (c1 & c2 & c3 & -> & H1 & H2 & H3).
    rewrite !andb_true_iff. repeat split; try reflexivity;
      apply ci_eqb_cases; auto.
Qed.

Lemma test_pdf_spec s :
  test_pdf s = true <->
  exists stem c1 c2 c3, s = stem ++ ["."; c1; c2; c3] /\
    (c1 = "p" \/ c1 = "P") /\ (c2 = "d" \/ c2 = "D") /\ (c3 = "f" \/ c3 = "F").
Proof.
  induction s as [|c r IH].
  - split; [discriminate|]. intros (stem & ? & ? & ? & H & _).
    destruct stem; discriminate.
  - change (test_pdf (c :: r)) with (pdf_ext_here (c :: r) || test_pdf r).
    rewrite orb_true_iff, pdf_ext_here_spec, IH. split.
    + intros [(c1 & c2 & c3 & E & H) | (stem & c1 & c2 & c3 & E & H)].
      * exists [], c1, c2, c3. auto.
      * exists (c :: stem), c1, c2, c3. rewrite E. auto.
    + intros (stem & c1 & c2 & c3 & E & H). destruct stem as [|k stem].
      * left. exists c1, c2, c3. auto.
      * right. injection E as -> E. exists stem, c1, c2, c3. auto.
Qed.

Lemma is_pdf_name_spec name : is_pdf_name name = true <-> ends_in_pdf name.
Proof. apply test_pdf_spec. Qed.

Lemma excluded_spec name : excluded name = true <-> in_exclusion_set name.
Proof.
  unfold excluded, in_exclusion_set. rewrite orb_true_iff, !String.eqb_eq. reflexivity.
Qed.

Lemma candidate_in_nil cwd dir p : ~ candidate_in cwd dir [] p.
Proof. intros H. inversion H; subst; simpl in *; contradiction. Qed.

Lemma candidate_in_cons cwd dir e es p :
  candidate_in cwd dir (e :: es) p <->
  candidate_in cwd dir [e] p \/ candidate_in cwd dir es p.
Proof.
  split.
  - intros H. inversion H as [? ? name Hin Hpdf | ? ? name sub ? Hin Hex Hsub]; subst.
    + destruct Hin as [-> | Hin].
      * left. constructor; [now left|assumption].
      * right. now constructor.
    + destruct Hin as [-> | Hin].
      * left. eapply candidate_below; [now left|eassumption..].
      * right. eapply candidate_below; eassumption.
  - intros [H | H].
    + inversion H as [? ? name Hin Hpdf | ? ? name sub ? Hin Hex Hsub]; subst.
      * destruct Hin as [-> | []]. constructor; [now left|assumption].
      * destruct Hin as [-> | []]. eapply candidate_below; [now left|eassumption..].
    + inversion H as [? ? name Hin Hpdf | ? ? name sub ? Hin Hex Hsub]; subst.
      * constructor; [now right|assumption].
      * eapply candidate_below; [right|..]; eassumption.
Qed.

Lemma candidate_in_file cwd dir name p :
  candidate_in cwd dir [File name] p <->
  ends_in_pdf name /\ p = resolve cwd [dir; name].
Proof.
  split.
  - intros H. inversion H as [? ? n Hin Hpdf | ? ? n sub ? Hin Hex Hsub]; subst.
    + destruct Hin as [E | []]. injection E as <-. auto.
    + destruct Hin as [E | []]. discriminate.
  - intros [Hpdf ->]. constructor; [now left|assumption].
Qed.

Lemma candidate_in_other cwd dir name p : ~ candidate_in cwd dir [Other name] p.
Proof.
  intros H. inversion H as [? ? n Hin Hpdf | ? ? n sub ? Hin Hex Hsub]; subst;
    destruct Hin as [E | []]; discriminate.
Qed.

Lemma candidate_in_unreadable cwd dir name message p :
  ~ candidate_in cwd dir [Directory name (ReaddirFails message)] p.
Proof.
  intros H. inversion H as [? ? n Hin Hpdf | ? ? n sub ? Hin Hex Hsub]; subst;
    destruct Hin as [E | []]; discriminate.
Qed.

Lemma candidate_in_directory cwd dir name sub p :
  candidate_in cwd dir [Directory name (Entries sub)] p <->
  ~ in_exclusion_set name /\ candidate_in cwd (resolve cwd [dir; name]) sub p.
Proof.
  split.
  - intros H. inversion H as [? ? n Hin Hpdf | ? ? n sub' ? Hin Hex Hsub]; subst.
    + destruct Hin as [E | []]. discriminate.
    + destruct Hin as [E | []]. injection E as <- <-. auto.
  - intros [Hex Hsub]. eapply candidate_below; [now left|eassumption..].
Qed.

Lemma for_of_entries_ok VERBOSE cwd entries :
  Forall (walk_entry_ok VERBOSE cwd) entries ->
  forall dir results w,
  exists found w',
    for_of (walk_entry VERBOSE cwd dir) entries results w = (Ok (results ++ found), w') /\
    steady w w' /\
    forall p, In p found <-> candidate_in cwd dir entries p.
Proof.
  induction 1 as [|e es He _ IH]; intros dir results w.
  - exists [], w. rewrite app_nil_r. repeat split; try apply steady_refl; try easy.
    intros H. now apply candidate_in_nil in H.
  - destruct (He dir results w) as (f1 & w1 & E1 & S1 & H1).
    destruct (IH dir (results ++ f1) w1) as (f2 & w2 & E2 & S2 & H2).
    exists (f1 ++ f2), w2. split; [|split].
    + simpl. unfold bind. rewrite E1. rewrite E2. now rewrite app_assoc.
    + eapply steady_trans; eassumption.
    + intros p. rewrite in_app_iff, candidate_in_cons, H1, H2. reflexivity.
Qed.

Lemma walk_entry_spec VERBOSE cwd e : walk_entry_ok VERBOSE cwd e.
Proof.
  induction e as [name|name|name message|name entries IH] using Dirent_nested_ind;
    intros dir results w.
  - simpl. destruct (is_pdf_name name) eqn:Hpdf.
    + destruct (v_steady VERBOSE (FoundPdf (resolve cwd [dir; name])) w) as (w' & E & S).
      exists [resolve cwd [dir; name]], w'. split; [|split; [exact S|]].
      * unfold bind. now rewrite E.
      * intros p. rewrite candidate_in_file, <- is_pdf_name_spec. simpl. intuition.
    + exists [], w. rewrite app_nil_r. split; [reflexivity|split; [apply steady_refl|]].
      intros p. rewrite candidate_in_file, <- is_pdf_name_spec, Hpdf. simpl.
      intuition discriminate.
  - exists [], w. rewrite app_nil_r. split; [reflexivity|split; [apply steady_refl|]].
    intros p. split; [easy|]. intros H. now apply candidate_in_other in H.
  - simpl. destruct (excluded name).
    + destruct (v_steady VERBOSE (SkipDir (resolve cwd [dir; name])) w) as (w' & E & S).
      exists [], w'. rewrite app_nil_r. split; [|split; [exact S|]].
      * unfold bind. now rewrite E.
      * intros p. split; [easy|]. intros H. now apply candidate_in_unreadable in H.
    + destruct (v_steady VERBOSE (ScanDir (resolve cwd [dir; name])) w) as (w1 & E1 & S1).
      destruct (emit_steady WARN
                  (SkipUnreadableDir (resolve cwd [dir; name]) message) w1)
        as (w2 & E2 & S2).
      exists [], w2. rewrite app_nil_r. split; [|split].
      * unfold walk_with, bind, warn. now rewrite E1, E2.
      * eapply steady_trans; eassumption.
      * intros p. split; [easy|]. intros H. now apply candidate_in_unreadable in H.
  - simpl. destruct (excluded name) eqn:Hex.
    + destruct (v_steady VERBOSE (SkipDir (resolve cwd [dir; name])) w) as (w' & E & S).
      exists [], w'. rewrite app_nil_r. split; [|split; [exact S|]].
      * unfold bind. now rewrite E.
      * intros p. rewrite candidate_in_directory, <- excluded_spec, Hex. simpl.
        intuition.
    + destruct (v_steady VERBOSE (ScanDir (resolve cwd [dir; name])) w) as (w1 & E1 & S1).
      destruct (for_of_entries_ok VERBOSE cwd entries IH
                  (resolve cwd [dir; name]) results w1) as (found & w2 & E2 & S2 & H2).
      exists found, w2. split; [|split].
      * unfold walk_with, bind. now rewrite E1.
      * eapply steady_trans; eassumption.
      * intros p. rewrite candidate_in_directory, <- excluded_spec, Hex, H2.
        intuition discriminate.
Qed.

Lemma walk_spec VERBOSE cwd dir content results w :
  exists found w',
    walk VERBOSE cwd dir content results w = (Ok (results ++ found), w') /\
    steady w w' /\
    forall p, In p found <->
              exists entries, content = Entries entries /\ candidate_in cwd dir entries p.
Proof.
  unfold walk, walk_with, bind.
  destruct (v_steady VERBOSE (ScanDir dir) w) as (w1 & E1 & S1). rewrite E1.
  destruct content as [entries|message].
  - destruct (for_of_entries_ok VERBOSE cwd entries) with (dir := dir)
      (results := results) (w := w1) as (found & w2 & E2 & S2 & H2).
    { apply Forall_forall. intros e _. apply walk_entry_spec. }
    exists found, w2. split; [exact E2|split; [eapply steady_trans; eassumption|]].
    intros p. rewrite H2. split; [eauto|]. now intros (? & [= <-] & ?).
  - destruct (emit_steady WARN (SkipUnreadableDir dir message) w1) as (w2 & E2 & S2).
    exists [], w2. rewrite app_nil_r. unfold warn. rewrite E2.
    split; [reflexivity|split; [eapply steady_trans; eassumption|]].
    intros p. split; [easy|]. now intros (? & [=] & ?).
Qed.

Lemma list_pdfs_steady (results : list string) w :
  exists w', for_of (fun p (_ : unit) => emit RAW (ListedPdf p)) results tt w = (Ok tt, w') /\
             steady w w'.
Proof.
  revert w. induction results as [|p rest IH]; intros w.
  - exists w. split; [reflexivity|apply steady_refl].
  - destruct (emit_steady RAW (ListedPdf p) w) as (w1 & E1 & S1).
    destruct (IH w1) as (w2 & E2 & S2).
    exists w2. split; [|eapply steady_trans; eassumption].
    simpl. unfold bind. rewrite E1. exact E2.
Qed.

Lemma findPdfPathsRecursive_spec VERBOSE cwd root tree w :
  exists results w',
    findPdfPathsRecursive VERBOSE cwd root tree w = (Ok results, w') /\
    steady w w' /\
    forall p, In p results <->
              exists entries, tree = Entries entries /\ candidate_in cwd root entries p.
Proof.
  unfold findPdfPathsRecursive, bind.
  destruct (walk_spec VERBOSE cwd root tree [] w) as (found & w1 & E1 & S1 & H1).
  rewrite E1. simpl app.
  destruct (emit_steady LOG (DiscoveredPdfs (length found)) w1) as (w2 & E2 & S2).
  unfold log. rewrite E2.
  assert (exists w3, when VERBOSE
            (for_of (fun p (_ : unit) => emit RAW (ListedPdf p)) found tt) w2 = (Ok tt, w3) /\
          steady w2 w3) as (w3 & E3 & S3).
  { destruct VERBOSE; [apply list_pdfs_steady|].
    exists w2. split; [reflexivity|apply steady_refl]. }
  rewrite E3. exists found, w3. split; [reflexivity|split; [|exact H1]].
  eapply steady_trans; [|exact S3]. eapply steady_trans; eassumption.
Qed.

(** C3: discovery returns, and a path is in its result exactly when it is the
    path of a regular file whose name ends in ".pdf" in any case, reached
    from the root through directories none of which is named "node_modules"
    or ".git".  Discovery touches no file and starts no job. *)
Theorem findPdfPathsRecursive_candidates
    (VERBOSE : bool) (cwd root : string) (tree : Readdir Dirent) (w : World) :
  exists results w',
    findPdfPathsRecursive VERBOSE cwd root tree w = (Ok results, w') /\
    files w' = files w /\ jobs w' = jobs w /\
    forall p, In p results <->
              exists entries, tree = Entries entries /\ candidate_in cwd root entries p.
Proof.
  destruct (findPdfPathsRecursive_spec VERBOSE cwd root tree w)
    as (results & w' & E & (Hf & Hj & _) & H).
  exists results, w'. auto.
Qed.

(** ** One job *)

Arguments jsonPathForPdf : simpl never.
Arguments stdin_of : simpl never.
Arguments String.length : simpl never.

Ltac run_script :=
  unfold runPolkaWithPath, iteration, fileExists, try_catch, bind, ret, throw,
    enter_job, set_files, Bun_spawn, communicate, exited, has_stdio,
    access, unlink, Bun_write, v, when, log, warn, error, emit;
  simpl.

(** Case analysis on the answer of the disk to the request in the goal. *)
Ltac ask_disk :=
  match goal with
  | |- context [write_answer ?d ?p ?t ?fs] => destruct (write_answer d p t fs) eqn:?
  | |- context [unlink_answer ?d ?p ?fs] => destruct (unlink_answer d p fs) eqn:?
  end.

Ltac grown :=
  repeat rewrite <- app_assoc; eexists; split;
    [reflexivity|simpl; intros; first [discriminate|tauto]].

(** A job whose command ran to its exit. *)
Lemma runPolkaWithPath_exits VERBOSE prompt JSON_parses polka disk p w stdoutText code after :
  polka (stdin_of prompt p) (files w) = Exits stdoutText code after ->
  exists w',
    runPolkaWithPath VERBOSE prompt JSON_parses polka disk p w
      = (fst (after_job disk (jsonPathForPdf p) stdoutText code after), w') /\
    files w' = snd (after_job disk (jsonPathForPdf p) stdoutText code after) /\
    jobs w' = jobs w ++ [p] /\
    exists lines, console w' = console w ++ lines /\
                  (JSON_parses stdoutText = false -> In (WARN, StdoutNotJson p) lines).
Proof.
  intros Hrun. run_script. unfold after_job.
  destruct VERBOSE; simpl; rewrite Hrun; simpl;
    destruct (JSON_parses stdoutText); simpl;
    destruct (code =? 0)%Z; simpl;
    ask_disk; simpl;
    (eexists; split; [reflexivity|]; simpl; split;
     [reflexivity|split; [reflexivity|grown]]).
Qed.

(** A job whose command could not be started, or whose pipes failed. *)
Lemma runPolkaWithPath_throws VERBOSE prompt JSON_parses polka disk p w e :
  (polka (stdin_of prompt p) (files w) = SpawnThrows e \/
   exists after, polka (stdin_of prompt p) (files w) = PipeThrows e after) ->
  exists w',
    runPolkaWithPath VERBOSE prompt JSON_parses polka disk p w = (Thrown e, w') /\
    jobs w' = jobs w ++ [p] /\
    exists lines, console w' = console w ++ lines.
Proof.
  intros [Hrun | [after Hrun]]; run_script;
    destruct VERBOSE; simpl; rewrite Hrun; simpl;
    (eexists; split; [reflexivity|]; simpl; split; [reflexivity|]);
    repeat rewrite <- app_assoc; try (eexists; reflexivity).
  all: exists []; now rewrite app_nil_r.
Qed.

(** A job whose command has no standard input or output. *)
Lemma runPolkaWithPath_no_stdio VERBOSE prompt JSON_parses polka disk p w :
  polka (stdin_of prompt p) (files w) = NoStdio ->
  exists w',
    runPolkaWithPath VERBOSE prompt JSON_parses polka disk p w = (Ok 1%Z, w') /\
    files w' = files w /\ jobs w' = jobs w ++ [p] /\
    exists lines, console w' = console w ++ lines.
Proof.
  intros Hrun. run_script.
  destruct VERBOSE; simpl; rewrite Hrun; simpl;
    (eexists; split; [reflexivity|]; simpl; repeat split);
    repeat rewrite <- app_assoc; eexists; reflexivity.
Qed.

(** ** One round of the main loop *)

Lemma bind_emit {B} l m (k : unit -> M B) w :
  bind (emit l m) k w = k tt (mkWorld (files w) (console w ++ [(l, m)]) (jobs w)).
Proof. reflexivity. Qed.

Lemma bind_ok {A B} (m : M A) (k : A -> M B) w a w' :
  m w = (Ok a, w') -> bind m k w = k a w'.
Proof. unfold bind. now intros ->. Qed.

Lemma fileExists_absent p w : files w !! p = None -> fileExists p w = (Ok false, w).
Proof. intros H. unfold fileExists, try_catch, bind, access. now rewrite H. Qed.

Lemma fileExists_present p w : is_Some (files w !! p) -> fileExists p w = (Ok true, w).
Proof. intros [c H]. unfold fileExists, try_catch, bind, access. now rewrite H. Qed.

Lemma iteration_skips VERBOSE prompt JSON_parses polka disk count i p w :
  is_Some (files w !! jsonPathForPdf p) ->
  iteration VERBOSE prompt JSON_parses polka disk count i p w =
  (Ok Skipped,
   mkWorld (files w)
     (console w ++ [(LOG, FileOf (i + 1) count p); (LOG, SkipExisting (jsonPathForPdf p))])
     (jobs w)).
Proof.
  intros [content Hout]. run_script. rewrite Hout. simpl.
  now rewrite <- app_assoc.
Qed.

Lemma iteration_absent VERBOSE prompt JSON_parses polka disk count i p w :
  files w !! jsonPathForPdf p = None ->
  iteration VERBOSE prompt JSON_parses polka disk count i p w =
  try_catch
    (bind (runPolkaWithPath VERBOSE prompt JSON_parses polka disk p)
       (fun code => if negb (code =? 0)%Z
                    then bind (warn (ContinuingAfterFailure p)) (fun _ => ret Failed)
                    else ret Succeeded))
    (fun e => bind (error (UnhandledError p e)) (fun _ => ret Errored))
    (announce count i p w).
Proof.
  intros Hout. unfold iteration, log. rewrite bind_emit.
  now rewrite (bind_ok _ _ _ _ _ (fileExists_absent _ (announce count i p w) Hout)).
Qed.

Lemma iteration_exits VERBOSE prompt JSON_parses polka disk count i p w stdoutText code after :
  files w !! jsonPathForPdf p = None ->
  polka (stdin_of prompt p) (files w) = Exits stdoutText code after ->
  exists w',
    iteration VERBOSE prompt JSON_parses polka disk count i p w =
      (Ok (outcome_of (fst (after_job disk (jsonPathForPdf p) stdoutText code after))), w') /\
    files w' = snd (after_job disk (jsonPathForPdf p) stdoutText code after) /\
    jobs w' = jobs w ++ [p].
Proof.
  intros Hout Hrun. rewrite iteration_absent by assumption.
  destruct (runPolkaWithPath_exits VERBOSE prompt JSON_parses polka disk p
              (announce count i p w) stdoutText code after Hrun)
    as (w1 & E & Hf & Hj & _).
  unfold try_catch, bind. rewrite E. revert Hf. unfold after_job, outcome_of, verdict.
  destruct (code =? 0)%Z eqn:Hcode; [ask_disk|]; simpl; rewrite ?Hcode; simpl; intros Hf;
    (eexists; (split; [reflexivity|]); simpl; auto).
Qed.

Lemma iteration_throws VERBOSE prompt JSON_parses polka disk count i p w e :
  files w !! jsonPathForPdf p = None ->
  (polka (stdin_of prompt p) (files w) = SpawnThrows e \/
   exists after, polka (stdin_of prompt p) (files w) = PipeThrows e after) ->
  exists w' lines,
    iteration VERBOSE prompt JSON_parses polka disk count i p w = (Ok Errored, w') /\
    jobs w' = jobs w ++ [p] /\
    console w' = console w ++ lines ++ [(ERROR, UnhandledError p e)].
Proof.
  intros Hout Hrun. rewrite iteration_absent by assumption.
  destruct (runPolkaWithPath_throws VERBOSE prompt JSON_parses polka disk p
              (announce count i p w) e Hrun) as (w1 & E & Hj & lines & Hc).
  unfold try_catch, bind. rewrite E. unfold error, emit. simpl.
  eexists. exists ((LOG, FileOf (i + 1) count p) :: lines).
  split; [reflexivity|]. simpl. split; [exact Hj|].
  rewrite Hc. simpl. now rewrite <- !app_assoc.
Qed.

Lemma iteration_no_stdio VERBOSE prompt JSON_parses polka disk count i p w :
  files w !! jsonPathForPdf p = None ->
  polka (stdin_of prompt p) (files w) = NoStdio ->
  exists w',
    iteration VERBOSE prompt JSON_parses polka disk count i p w = (Ok Failed, w') /\
    files w' = files w /\ jobs w' = jobs w ++ [p].
Proof.
  intros Hout Hrun. rewrite iteration_absent by assumption.
  destruct (runPolkaWithPath_no_stdio VERBOSE prompt JSON_parses polka disk p
              (announce count i p w) Hrun) as (w1 & E & Hf & Hj & _).
  unfold try_catch, bind. rewrite E. simpl.
  eexists; (split; [reflexivity|]); simpl; auto.
Qed.

(** A round whose command never closes its output, or never exits, does not
    end. *)
Lemma iteration_hangs VERBOSE prompt JSON_parses polka disk count i p w :
  files w !! jsonPathForPdf p = None ->
  hangs (polka (stdin_of prompt p) (files w)) = true ->
  exists w',
    iteration VERBOSE prompt JSON_parses polka disk count i p w = (Pending, w') /\
    jobs w' = jobs w ++ [p].
Proof.
  intros Hout Hhangs. rewrite iteration_absent by assumption.
  unfold announce. run_script. unfold pending.
  destruct (polka (stdin_of prompt p) (files w)) as [| | | |after|text after] eqn:Hrun;
    try discriminate Hhangs;
    destruct VERBOSE; simpl; rewrite Hrun; simpl;
    try destruct (JSON_parses text); simpl; eauto.
Qed.

(** A round of the main loop never throws, and it returns when its command
    ends. *)
Lemma iteration_returns VERBOSE prompt JSON_parses polka disk count i p w :
  hangs (polka (stdin_of prompt p) (files w)) = false ->
  exists o w', iteration VERBOSE prompt JSON_parses polka disk count i p w = (Ok o, w').
Proof.
  intros Hends. destruct (files w !! jsonPathForPdf p) eqn:Hout.
  - rewrite iteration_skips by eauto. eauto.
  - destruct (polka (stdin_of prompt p) (files w))
      as [e| |e after|text code after|after|text after] eqn:Hrun; try discriminate Hends.
    + destruct (iteration_throws VERBOSE prompt JSON_parses polka disk count i p w e Hout)
        as (w' & ? & E & _); eauto.
    + destruct (iteration_no_stdio VERBOSE prompt JSON_parses polka disk count i p w Hout Hrun)
        as (w' & E & _); eauto.
    + destruct (iteration_throws VERBOSE prompt JSON_parses polka disk count i p w e Hout)
        as (w' & ? & E & _); eauto.
    + destruct (iteration_exits VERBOSE prompt JSON_parses polka disk count i p w
                  text code after Hout Hrun) as (w' & E & _); eauto.
Qed.

Lemma iteration_never_throws VERBOSE prompt JSON_parses polka disk count i p w e w' :
  iteration VERBOSE prompt JSON_parses polka disk count i p w <> (Thrown e, w').
Proof.
  destruct (hangs (polka (stdin_of prompt p) (files w))) eqn:Hhangs.
  - destruct (files w !! jsonPathForPdf p) eqn:Hout.
    + rewrite iteration_skips by eauto. discriminate.
    + destruct (iteration_hangs VERBOSE prompt JSON_parses polka disk count i p w Hout Hhangs)
        as (w1 & -> & _). discriminate.
  - destruct (iteration_returns VERBOSE prompt JSON_parses polka disk count i p w Hhangs)
      as (o & w1 & ->). discriminate.
Qed.

Lemma main_loop_returns VERBOSE prompt JSON_parses polka disk count pdfs :
  ends polka ->
  forall i w,
  exists outcomes w',
    main_loop VERBOSE prompt JSON_parses polka disk count i pdfs w = (Ok outcomes, w') /\
    length outcomes = length pdfs.
Proof.
  intros Hends. induction pdfs as [|p rest IH]; intros i w.
  - exists [], w. split; reflexivity.
  - destruct (iteration_returns VERBOSE prompt JSON_parses polka disk count i p w (Hends _ _))
      as (o & w1 & E1).
    destruct (IH (S i) w1) as (os & w2 & E2 & Hlen).
    exists (o :: os), w2. split; [|simpl; now rewrite Hlen].
    simpl. unfold bind. now rewrite E1, E2.
Qed.

Lemma main_loop_length VERBOSE prompt JSON_parses polka disk count pdfs :
  forall i w outcomes w',
    main_loop VERBOSE prompt JSON_parses polka disk count i pdfs w = (Ok outcomes, w') ->
    length outcomes = length pdfs.
Proof.
  induction pdfs as [|p rest IH]; intros i w outcomes w' E.
  - now injection E as <- <-.
  - simpl in E. unfold bind in E.
    destruct (iteration VERBOSE prompt JSON_parses polka disk count i p w)
      as [[o| |] w1]; try discriminate E.
    destruct (main_loop VERBOSE prompt JSON_parses polka disk count (S i) rest w1)
      as [[os| |] w2] eqn:E2; try discriminate E.
    injection E as <- <-. simpl. f_equal. eapply IH. exact E2.
Qed.

(** The main loop never throws. *)
Lemma main_loop_never_throws VERBOSE prompt JSON_parses polka disk count pdfs :
  forall i w e w',
    main_loop VERBOSE prompt JSON_parses polka disk count i pdfs w <> (Thrown e, w').
Proof.
  induction pdfs as [|p rest IH]; intros i w e w'; [discriminate|].
  simpl. unfold bind.
  destruct (iteration VERBOSE prompt JSON_parses polka disk count i p w) as [[o|e1|] w1] eqn:E1.
  - destruct (main_loop VERBOSE prompt JSON_parses polka disk count (S i) rest w1)
      as [[os|e2|] w2] eqn:E2; try discriminate.
    now apply IH in E2.
  - now apply iteration_never_throws in E1.
  - discriminate.
Qed.

(** The rounds of the main loop follow one another: each starts in the world
    the rounds before it left. *)
Lemma main_loop_app VERBOSE prompt JSON_parses polka disk count before p after :
  ends polka ->
  forall i w,
  exists os1 w1 o w2 os2 w3,
    main_loop VERBOSE prompt JSON_parses polka disk count i before w = (Ok os1, w1) /\
    iteration VERBOSE prompt JSON_parses polka disk count (i + length before) p w1 = (Ok o, w2) /\
    main_loop VERBOSE prompt JSON_parses polka disk count (S (i + length before)) after w2
      = (Ok os2, w3) /\
    main_loop VERBOSE prompt JSON_parses polka disk count i (before ++ p :: after) w
      = (Ok (os1 ++ o :: os2), w3) /\
    length os1 = length before.
Proof.
  intros Hends. induction before as [|q before IH]; intros i w.
  - destruct (iteration_returns VERBOSE prompt JSON_parses polka disk count i p w (Hends _ _))
      as (o & w2 & E2).
    destruct (main_loop_returns VERBOSE prompt JSON_parses polka disk count after Hends (S i) w2)
      as (os2 & w3 & E3 & _).
    exists [], w, o, w2, os2, w3. simpl. rewrite Nat.add_0_r.
    repeat split; try assumption. unfold bind. now rewrite E2, E3.
  - destruct (iteration_returns VERBOSE prompt JSON_parses polka disk count i q w (Hends _ _))
      as (oq & wq & Eq).
    destruct (IH (S i) wq) as (os1 & w1 & o & w2 & os2 & w3 & E1 & E2 & E3 & E4 & Hlen).
    exists (oq :: os1), w1, o, w2, os2, w3. simpl.
    replace (i + S (length before)) with (S i + length before) by lia.
    repeat split; try assumption.
    + unfold bind. now rewrite Eq, E1.
    + unfold bind. now rewrite Eq, E4.
    + now rewrite Hlen.
Qed.

Lemma iteration_spawn_throws VERBOSE prompt JSON_parses polka disk count i p w e :
  files w !! jsonPathForPdf p = None ->
  polka (stdin_of prompt p) (files w) = SpawnThrows e ->
  exists w',
    iteration VERBOSE prompt JSON_parses polka disk count i p w = (Ok Errored, w') /\
    files w' = files w /\ jobs w' = jobs w ++ [p].
Proof.
  intros Hout Hrun. rewrite iteration_absent by assumption.
  unfold announce. run_script.
  destruct VERBOSE; simpl; rewrite Hrun; simpl; eauto.
Qed.

(** ** Jobs and the main loop *)

(** C1, as the code has it: when the command exits with status zero the job
    writes the text captured from the standard output to the companion path.
    When the write succeeds the job returns normally, the companion path
    holds exactly that text and the script touches no other path; reached
    by the main loop without a companion file, the candidate is processed to
    Succeeded.  When the write throws, the job throws: the store is as the
    refused write left it, and the round of the main loop is Errored. *)
Theorem exit_zero_persists_stdout
    (VERBOSE : bool) (prompt : string) (JSON_parses : string -> bool)
    (polka : string -> gmap string string -> Proc) (disk : Disk)
    (p : string) (w : World) (stdoutText : string) (after : gmap string string) :
  polka (stdin_of prompt p) (files w) = Exits stdoutText 0 after ->
  (forall rest,
     write_answer disk (jsonPathForPdf p) stdoutText after = Stored rest ->
     (exists w',
        runPolkaWithPath VERBOSE prompt JSON_parses polka disk p w = (Ok 0%Z, w') /\
        files w' !! jsonPathForPdf p = Some stdoutText /\
        forall q, q <> jsonPathForPdf p -> files w' !! q = rest !! q) /\
     (files w !! jsonPathForPdf p = None ->
      forall count i, exists w',
        iteration VERBOSE prompt JSON_parses polka disk count i p w = (Ok Succeeded, w') /\
        files w' !! jsonPathForPdf p = Some stdoutText)) /\
  (forall e remains,
     write_answer disk (jsonPathForPdf p) stdoutText after = WriteThrows e remains ->
     (exists w',
        runPolkaWithPath VERBOSE prompt JSON_parses polka disk p w = (Thrown e, w') /\
        files w' = remains) /\
     (files w !! jsonPathForPdf p = None ->
      forall count i, exists w',
        iteration VERBOSE prompt JSON_parses polka disk count i p w = (Ok Errored, w') /\
        files w' = remains)).
Proof.
  intros Hrun. split.
  - intros rest Hwrite. split.
    + destruct (runPolkaWithPath_exits VERBOSE prompt JSON_parses polka disk p w
                  stdoutText 0 after Hrun) as (w' & E & Hf & _).
      unfold after_job in E, Hf. simpl in E, Hf. rewrite Hwrite in E, Hf. simpl in E, Hf.
      exists w'. rewrite Hf. split; [exact E|split].
      * apply lookup_insert_eq.
      * intros q Hq. now apply lookup_insert_ne.
    + intros Hout count i.
      destruct (iteration_exits VERBOSE prompt JSON_parses polka disk count i p w
                  stdoutText 0 after Hout Hrun) as (w' & E & Hf & _).
      unfold after_job in E, Hf. simpl in E, Hf. rewrite Hwrite in E, Hf. simpl in E, Hf.
      exists w'. rewrite Hf. split; [exact E|apply lookup_insert_eq].
  - intros e remains Hwrite. split.
    + destruct (runPolkaWithPath_exits VERBOSE prompt JSON_parses polka disk p w
                  stdoutText 0 after Hrun) as (w' & E & Hf & _).
      unfold after_job in E, Hf. simpl in E, Hf. rewrite Hwrite in E, Hf.
      exists w'. split; [exact E|exact Hf].
    + intros Hout count i.
      destruct (iteration_exits VERBOSE prompt JSON_parses polka disk count i p w
                  stdoutText 0 after Hout Hrun) as (w' & E & Hf & _).
      unfold after_job in E, Hf. simpl in E, Hf. rewrite Hwrite in E, Hf.
      exists w'. split; [exact E|exact Hf].
Qed.

(** C1, for "/w/a/report.pdf" and a command printing "[]", on a disk that
    stores what it is asked to. *)
Lemma exit_zero_persists_stdout_sample :
  exists w',
    runPolkaWithPath false sample_prompt is_json_array polka_succeeds plain_disk
      "/w/a/report.pdf" (world0 ∅) = (Ok 0%Z, w') /\
    files w' !! "/w/a/report.json"%string = Some "[]"%string.
Proof.
  destruct (exit_zero_persists_stdout false sample_prompt is_json_array polka_succeeds
              plain_disk "/w/a/report.pdf" (world0 ∅) "[]" ∅ eq_refl) as (H & _).
  destruct (H ∅ eq_refl) as ((w' & E & Hf & _) & _).
  exists w'. split; [exact E|exact Hf].
Defined.

(** C1 as stated fails: the command exits with status zero for
    "/w/a/report.pdf", the disk has no space left, and after the job there
    is no file at the companion path; the round is Errored. *)
Lemma exit_zero_on_a_full_disk :
  polka_succeeds (stdin_of sample_prompt "/w/a/report.pdf") ∅ = Exits "[]" 0 ∅ /\
  jsonPathForPdf "/w/a/report.pdf" = "/w/a/report.json"%string /\
  exists w',
    iteration false sample_prompt is_json_array polka_succeeds full_disk 1 0
      "/w/a/report.pdf" (world0 ∅) = (Ok Errored, w') /\
    jobs w' = ["/w/a/report.pdf"%string] /\
    files w' !! "/w/a/report.json"%string = None.
Proof.
  split; [reflexivity|split; [vm_compute; reflexivity|]].
  eexists. split; [vm_compute; reflexivity|]. split; reflexivity.
Qed.

(** C2, as the code has it: when the command exits with a non-zero status
    the job tries to remove the companion path, ignores the failure of the
    removal, and returns that status.  When the removal succeeds nothing is
    stored at the companion path afterwards, also when the command had left
    a file there, and the script touches no other path; when the removal
    throws the store stays as the command left it.  Reached by the main loop
    without a companion file, the candidate is processed to Failed, and
    nothing is stored at its companion path unless the command left an entry
    there that could not be removed. *)
Theorem nonzero_exit_attempts_removal
    (VERBOSE : bool) (prompt : string) (JSON_parses : string -> bool)
    (polka : string -> gmap string string -> Proc) (disk : Disk)
    (p : string) (w : World) (stdoutText : string) (code : Z)
    (after : gmap string string) :
  polka (stdin_of prompt p) (files w) = Exits stdoutText code after ->
  code <> 0%Z ->
  (exists w',
     runPolkaWithPath VERBOSE prompt JSON_parses polka disk p w = (Ok code, w') /\
     (forall rest,
        unlink_answer disk (jsonPathForPdf p) after = Removed rest ->
        files w' !! jsonPathForPdf p = None /\
        forall q, q <> jsonPathForPdf p -> files w' !! q = rest !! q) /\
     (forall e,
        unlink_answer disk (jsonPathForPdf p) after = UnlinkThrows e ->
        files w' = after)) /\
  (files w !! jsonPathForPdf p = None ->
   forall count i, exists w',
     iteration VERBOSE prompt JSON_parses polka disk count i p w = (Ok Failed, w') /\
     ((after !! jsonPathForPdf p = None \/
       exists rest, unlink_answer disk (jsonPathForPdf p) after = Removed rest) ->
      files w' !! jsonPathForPdf p = None)).
Proof.
  intros Hrun Hcode. apply Z.eqb_neq in Hcode. split.
  - destruct (runPolkaWithPath_exits VERBOSE prompt JSON_parses polka disk p w
                stdoutText code after Hrun) as (w' & E & Hf & _).
    unfold after_job in E, Hf. rewrite Hcode in E, Hf. simpl in E, Hf.
    exists w'. split; [exact E|split].
    + intros rest Hrm. rewrite Hrm in Hf. rewrite Hf. split.
      * apply lookup_delete_eq.
      * intros q Hq. now apply lookup_delete_ne.
    + intros e Hrm. now rewrite Hrm in Hf.
  - intros Hout count i.
    destruct (iteration_exits VERBOSE prompt JSON_parses polka disk count i p w
                stdoutText code after Hout Hrun) as (w' & E & Hf & _).
    unfold after_job, outcome_of, verdict in E, Hf. rewrite Hcode in E, Hf.
    simpl in E, Hf. rewrite Hcode in E.
    exists w'. split; [exact E|]. rewrite Hf.
    destruct (unlink_answer disk (jsonPathForPdf p) after) as [rest|e].
    + intros _. apply lookup_delete_eq.
    + intros [Hnone | [rest [=]]]. exact Hnone.
Qed.

(** C2, for a command that writes "/w/a/report.json" and then exits with 2,
    on a disk that removes what it is asked to. *)
Lemma nonzero_exit_attempts_removal_sample :
  exists w',
    runPolkaWithPath false sample_prompt is_json_array polka_fails_midway plain_disk
      "/w/a/report.pdf" (world0 ∅) = (Ok 2%Z, w') /\
    polka_fails_midway (stdin_of sample_prompt "/w/a/report.pdf") ∅
      = Exits "" 2 {["/w/a/report.json"%string := "[{"%string]} /\
    files w' !! "/w/a/report.json"%string = None.
Proof.
  destruct (nonzero_exit_attempts_removal false sample_prompt is_json_array
              polka_fails_midway plain_disk "/w/a/report.pdf" (world0 ∅) ""
              2 (<["/w/a/report.json"%string := "[{"%string]> ∅) eq_refl)
    as ((w' & E & H & _) & _); [lia|].
  destruct (H (<["/w/a/report.json"%string := "[{"%string]> ∅)) as [Hf _];
    [vm_compute; reflexivity|].
  exists w'. split; [exact E|split; [reflexivity|exact Hf]].
Defined.

(** C2 as stated fails: the command leaves an entry at the companion path of
    "/w/a/report.pdf" and exits with status 2, the entry cannot be removed,
    and after the job it is still there; the round is Failed. *)
Lemma nonzero_exit_on_a_keeping_disk :
  polka_fails_midway (stdin_of sample_prompt "/w/a/report.pdf") ∅
    = Exits "" 2 {["/w/a/report.json"%string := "[{"%string]} /\
  jsonPathForPdf "/w/a/report.pdf" = "/w/a/report.json"%string /\
  exists w',
    iteration false sample_prompt is_json_array polka_fails_midway keeping_disk 1 0
      "/w/a/report.pdf" (world0 ∅) = (Ok Failed, w') /\
    files w' !! "/w/a/report.json"%string = Some "[{"%string.
Proof.
  split; [reflexivity|split; [vm_compute; reflexivity|]].
  eexists. split; [vm_compute; reflexivity|]. vm_compute. reflexivity.
Qed.

(** C4: a candidate whose companion path is already in the file store when
    the main loop reaches it is skipped: [runPolkaWithPath] is not called, no
    file changes, the skip is printed, and the loop goes on with the next
    candidate. *)
Theorem existing_companion_skips
    (VERBOSE : bool) (prompt : string) (JSON_parses : string -> bool)
    (polka : string -> gmap string string -> Proc) (disk : Disk)
    (count i : nat) (p : string) (rest : list string) (w : World) :
  is_Some (files w !! jsonPathForPdf p) ->
  exists w',
    iteration VERBOSE prompt JSON_parses polka disk count i p w = (Ok Skipped, w') /\
    jobs w' = jobs w /\ files w' = files w /\
    console w' = console w ++ [(LOG, FileOf (i + 1) count p);
                               (LOG, SkipExisting (jsonPathForPdf p))] /\
    main_loop VERBOSE prompt JSON_parses polka disk count i (p :: rest) w =
      bind (main_loop VERBOSE prompt JSON_parses polka disk count (S i) rest)
        (fun os => ret (Skipped :: os)) w'.
Proof.
  intros Hout. eexists. split; [now apply iteration_skips|].
  repeat split. simpl. unfold bind at 1. now rewrite iteration_skips.
Qed.

(** C4, for "/w/a/report.pdf" next to an existing "/w/a/report.json". *)
Lemma existing_companion_skips_sample :
  exists w',
    main_loop false sample_prompt is_json_array polka_succeeds plain_disk 1 0
      ["/w/a/report.pdf"%string]
      (world0 {["/w/a/report.json"%string := "old"%string]}) = (Ok [Skipped], w') /\
    jobs w' = [] /\
    files w' = {["/w/a/report.json"%string := "old"%string]}.
Proof.
  destruct (existing_companion_skips false sample_prompt is_json_array polka_succeeds
              plain_disk 1 0 "/w/a/report.pdf" []
              (world0 {["/w/a/report.json"%string := "old"%string]}))
    as (w' & E & Hj & Hf & _ & Hloop); [eexists; vm_compute; reflexivity|].
  exists w'. split; [|split; assumption]. exact Hloop.
Defined.

(** What a job leaves in the store after its command exited, on a disk
    that changes nothing but the entry at the path of a request. *)
Lemma after_job_elsewhere disk out text code fs q :
  in_place disk -> q <> out ->
  snd (after_job disk out text code fs) !! q = fs !! q.
Proof.
  intros [Hwrite Hunlink] Hq. unfold after_job.
  specialize (Hwrite out text fs). specialize (Hunlink out fs).
  destruct (code =? 0)%Z; simpl.
  - destruct (write_answer disk out text fs); simpl; subst;
      [now apply lookup_insert_ne|reflexivity].
  - destruct (unlink_answer disk out fs); simpl; subst;
      [now apply lookup_delete_ne|reflexivity].
Qed.

Lemma after_job_obliging disk out text code fs :
  obliging disk -> fs !! out = None ->
  fst (after_job disk out text code fs) = Ok code /\
  snd (after_job disk out text code fs) !! out = if (code =? 0)%Z then Some text else None.
Proof.
  intros [[_ Hunlink] Hstores] Hout. unfold after_job.
  specialize (Hunlink out fs). destruct (Hstores out text fs) as [rest Hwrite].
  destruct (code =? 0)%Z; simpl.
  - rewrite Hwrite. simpl. split; [reflexivity|apply lookup_insert_eq].
  - split; [reflexivity|].
    destruct (unlink_answer disk out fs); subst; [apply lookup_delete_eq|exact Hout].
Qed.

Lemma plain_disk_obliging : obliging plain_disk.
Proof.
  split; [split|]; simpl.
  - reflexivity.
  - intros p fs. now destruct (fs !! p).
  - intros p text fs. now exists fs.
Qed.

(** A round whose job throws is Errored, and the exception is printed. *)
Lemma iteration_catches VERBOSE prompt JSON_parses polka disk count i p w e w1 :
  files w !! jsonPathForPdf p = None ->
  runPolkaWithPath VERBOSE prompt JSON_parses polka disk p (announce count i p w)
    = (Thrown e, w1) ->
  iteration VERBOSE prompt JSON_parses polka disk count i p w
    = (Ok Errored, mkWorld (files w1) (console w1 ++ [(ERROR, UnhandledError p e)]) (jobs w1)).
Proof.
  intros Hout E. rewrite iteration_absent by assumption.
  unfold try_catch, bind. now rewrite E.
Qed.

(** C5: an exception thrown by the job of a candidate, by the start of the
    command, by its pipes or by the write of its output, is caught in its
    round of the main loop and printed as an error for that candidate, and
    the main loop never ends by an exception, whatever the commands and the
    disk do.  When the commands end every round returns, so each candidate
    gets its round, in the world the rounds before it left.  With three
    candidates whose companion paths differ and are free, where the command
    cannot be started for the second and runs to its exit for the first and
    the third, on a disk that stores what it is asked to, the first and the
    third are processed to Succeeded or Failed by their exit status. *)
Theorem exception_does_not_stop_the_loop
    (VERBOSE : bool) (prompt : string) (JSON_parses : string -> bool)
    (polka : string -> gmap string string -> Proc) (disk : Disk) :
  (forall count i p w e,
     files w !! jsonPathForPdf p = None ->
     (polka (stdin_of prompt p) (files w) = SpawnThrows e \/
      (exists after, polka (stdin_of prompt p) (files w) = PipeThrows e after) \/
      (exists stdoutText after remains,
         polka (stdin_of prompt p) (files w) = Exits stdoutText 0 after /\
         write_answer disk (jsonPathForPdf p) stdoutText after = WriteThrows e remains)) ->
     exists w' lines,
       iteration VERBOSE prompt JSON_parses polka disk count i p w = (Ok Errored, w') /\
       console w' = console w ++ lines ++ [(ERROR, UnhandledError p e)]) /\
  (forall count i pdfs w e w',
     main_loop VERBOSE prompt JSON_parses polka disk count i pdfs w <> (Thrown e, w')) /\
  (ends polka ->
   forall count i before p after w,
     exists os1 w1 o w2 os2 w3,
       main_loop VERBOSE prompt JSON_parses polka disk count i before w = (Ok os1, w1) /\
       iteration VERBOSE prompt JSON_parses polka disk count (i + length before) p w1
         = (Ok o, w2) /\
       main_loop VERBOSE prompt JSON_parses polka disk count (S (i + length before)) after w2
         = (Ok os2, w3) /\
       main_loop VERBOSE prompt JSON_parses polka disk count i (before ++ p :: after) w
         = (Ok (os1 ++ o :: os2), w3) /\
       length os1 = length before) /\
  (obliging disk ->
   forall a b c w ta ca tc cc e,
     (forall fs, polka (stdin_of prompt a) fs = Exits ta ca fs) ->
     (forall fs, polka (stdin_of prompt b) fs = SpawnThrows e) ->
     (forall fs, polka (stdin_of prompt c) fs = Exits tc cc fs) ->
     files w !! jsonPathForPdf a = None ->
     files w !! jsonPathForPdf b = None ->
     files w !! jsonPathForPdf c = None ->
     jsonPathForPdf a <> jsonPathForPdf b ->
     jsonPathForPdf a <> jsonPathForPdf c ->
     exists w',
       main_loop VERBOSE prompt JSON_parses polka disk 3 0 [a; b; c] w
         = (Ok [verdict ca; Errored; verdict cc], w') /\
       jobs w' = jobs w ++ [a; b; c] /\
       files w' !! jsonPathForPdf a = (if (ca =? 0)%Z then Some ta else None) /\
       files w' !! jsonPathForPdf c = (if (cc =? 0)%Z then Some tc else None)).
Proof.
  split; [|split; [|split]].
  - intros count i p w e Hout [Hrun | [Hrun | (text & after & remains & Hrun & Hwrite)]].
    + destruct (iteration_throws VERBOSE prompt JSON_parses polka disk count i p w e Hout
                  (or_introl Hrun)) as (w' & lines & E & _ & Hc).
      now exists w', lines.
    + destruct (iteration_throws VERBOSE prompt JSON_parses polka disk count i p w e Hout
                  (or_intror Hrun)) as (w' & lines & E & _ & Hc).
      now exists w', lines.
    + destruct (runPolkaWithPath_exits VERBOSE prompt JSON_parses polka disk p
                  (announce count i p w) text 0 after Hrun)
        as (w1 & E & _ & _ & lines & Hc & _).
      unfold after_job in E. simpl in E. rewrite Hwrite in E. simpl in E.
      rewrite (iteration_catches _ _ _ _ _ _ _ _ _ _ _ Hout E).
      eexists. exists ((LOG, FileOf (i + 1) count p) :: lines).
      split; [reflexivity|]. simpl. rewrite Hc. simpl. now rewrite <- !app_assoc.
  - intros. apply main_loop_never_throws.
  - intros Hends. intros. now apply main_loop_app.
  - intros Hdisk a b c w ta ca tc cc e Ha Hb Hc Hfa Hfb Hfc Hab Hac.
    pose proof Hdisk as [Hplace _].
    destruct (iteration_exits VERBOSE prompt JSON_parses polka disk 3 0 a w ta ca (files w)
                Hfa (Ha _)) as (w1 & E1 & Hf1 & Hj1).
    destruct (after_job_obliging disk (jsonPathForPdf a) ta ca (files w) Hdisk Hfa)
      as [Ha1 Ha2].
    rewrite Ha1 in E1. simpl in E1.
    assert (Hfb1 : files w1 !! jsonPathForPdf b = None).
    { rewrite Hf1, after_job_elsewhere by (assumption || congruence). exact Hfb. }
    destruct (iteration_spawn_throws VERBOSE prompt JSON_parses polka disk 3 1 b w1 e
                Hfb1 (Hb _)) as (w2 & E2 & Hf2 & Hj2).
    assert (Hfc2 : files w2 !! jsonPathForPdf c = None).
    { rewrite Hf2, Hf1, after_job_elsewhere by (assumption || congruence). exact Hfc. }
    destruct (iteration_exits VERBOSE prompt JSON_parses polka disk 3 2 c w2 tc cc (files w2)
                Hfc2 (Hc _)) as (w3 & E3 & Hf3 & Hj3).
    destruct (after_job_obliging disk (jsonPathForPdf c) tc cc (files w2) Hdisk Hfc2)
      as [Hc1 Hc2].
    rewrite Hc1 in E3. simpl in E3.
    exists w3. split; [|split; [|split]].
    + simpl. unfold bind. rewrite E1, E2, E3. reflexivity.
    + rewrite Hj3, Hj2, Hj1, <- !app_assoc. reflexivity.
    + rewrite Hf3, after_job_elsewhere by (assumption || congruence).
      rewrite Hf2, Hf1. exact Ha2.
    + rewrite Hf3. exact Hc2.
Qed.

(** C5, for three candidates in "/w". *)
Lemma exception_does_not_stop_the_loop_sample :
  exists w',
    main_loop false sample_prompt is_json_array polka_three plain_disk 3 0
      ["/w/a.pdf"; "/w/b.pdf"; "/w/c.pdf"]%string (world0 ∅)
      = (Ok [Failed; Errored; Succeeded], w') /\
    jobs w' = ["/w/a.pdf"; "/w/b.pdf"; "/w/c.pdf"]%string /\
    files w' !! "/w/c.json"%string = Some "[]"%string.
Proof.
  destruct (exception_does_not_stop_the_loop false sample_prompt is_json_array polka_three
              plain_disk) as (_ & _ & _ & H).
  specialize (H plain_disk_obliging
                "/w/a.pdf"%string "/w/b.pdf"%string "/w/c.pdf"%string (world0 ∅)
                ""%string 3%Z "[]"%string 0%Z "ENOENT"%string).
  assert (Ha : forall fs, polka_three (stdin_of sample_prompt "/w/a.pdf") fs = Exits "" 3 fs)
    by (intros fs; vm_compute; reflexivity).
  assert (Hb : forall fs, polka_three (stdin_of sample_prompt "/w/b.pdf") fs
                          = SpawnThrows "ENOENT")
    by (intros fs; vm_compute; reflexivity).
  assert (Hc : forall fs, polka_three (stdin_of sample_prompt "/w/c.pdf") fs = Exits "[]" 0 fs)
    by (intros fs; vm_compute; reflexivity).
  assert (Hfa : files (world0 ∅) !! jsonPathForPdf "/w/a.pdf" = None)
    by (vm_compute; reflexivity).
  assert (Hfb : files (world0 ∅) !! jsonPathForPdf "/w/b.pdf" = None)
    by (vm_compute; reflexivity).
  assert (Hfc : files (world0 ∅) !! jsonPathForPdf "/w/c.pdf" = None)
    by (vm_compute; reflexivity).
  assert (Hab : jsonPathForPdf "/w/a.pdf" <> jsonPathForPdf "/w/b.pdf")
    by (vm_compute; discriminate).
  assert (Hac : jsonPathForPdf "/w/a.pdf" <> jsonPathForPdf "/w/c.pdf")
    by (vm_compute; discriminate).
  destruct (H Ha Hb Hc Hfa Hfb Hfc Hab Hac) as (w' & E & Hj & _ & Hfiles).
  exists w'. split; [exact E|split; [exact Hj|exact Hfiles]].
Defined.

(** ** The whole run *)

(** A run whose [process.cwd()] returns: discovery returns, and the run goes
    on by what it found. *)
Lemma run_spec VERBOSE cwd prompt JSON_parses polka disk tree w :
  exists results w1 t outcomes w',
    findPdfPathsRecursive VERBOSE cwd cwd tree w = (Ok results, w1) /\
    run VERBOSE (CwdIs cwd) prompt JSON_parses polka disk tree w = (t, outcomes, w') /\
    (results = [] ->
       t = ExitCalled 0 /\ outcomes = [] /\
       w' = mkWorld (files w1) (console w1 ++ [(WARN, NoPdfFound)]) (jobs w1)) /\
    (results <> [] -> t = Hangs \/ (t = RanToEnd /\ length outcomes = length results)) /\
    (results <> [] -> ends polka -> t = RanToEnd /\ length outcomes = length results).
Proof.
  destruct (findPdfPathsRecursive_spec VERBOSE cwd cwd tree w)
    as (results & w1 & E1 & S1 & _).
  unfold run, main, process_cwd, bind, ret. rewrite E1.
  destruct results as [|p rest].
  - simpl. do 5 eexists. split; [reflexivity|split; [reflexivity|]].
    split; [auto|split; congruence].
  - change (length (p :: rest) =? 0)%nat with false. cbv iota.
    unfold log at 1, emit at 1. cbv beta.
    match goal with
    | |- context [main_loop ?V ?P ?J ?K ?D ?n ?i ?l ?w0] =>
        destruct (main_loop V P J K D n i l w0) as [[os|e|] w2] eqn:E2;
        [|now apply main_loop_never_throws in E2|];
        pose proof (main_loop_returns V P J K D n l) as Hreturns
    end.
    + simpl. do 5 eexists. split; [reflexivity|split; [reflexivity|]].
      split; [discriminate|].
      assert (length os = length (p :: rest)) as Hlen by (eapply main_loop_length; eassumption).
      split; [right|]; auto.
    + simpl. do 5 eexists. split; [reflexivity|split; [reflexivity|]].
      split; [discriminate|split; [now left|]].
      intros _ Hends.
      match type of E2 with
      | main_loop _ _ _ _ _ _ _ _ ?w0 = _ =>
          destruct (Hreturns Hends 0 w0) as (os & w3 & E3 & _)
      end.
      rewrite E3 in E2. discriminate E2.
Qed.

(** A run whose [process.cwd()] throws. *)
Lemma run_without_cwd VERBOSE prompt JSON_parses polka disk e tree w :
  run VERBOSE (CwdThrows e) prompt JSON_parses polka disk tree w = (Uncaught e, [], w).
Proof. reflexivity. Qed.

(** C6: a run whose [process.cwd()] returned ends by its call of
    [process.exit(0)] or by reaching its last line, if it ends: its exit
    status is zero whatever the outcomes of the candidates were.  When
    discovery finds no candidate the run ends at once by [process.exit(0)],
    after printing the warning, with no job started and no file changed;
    otherwise, when the commands end, every candidate gets an outcome. *)
Theorem run_exit_status_zero
    (VERBOSE : bool) (cwd prompt : string) (JSON_parses : string -> bool)
    (polka : string -> gmap string string -> Proc) (disk : Disk)
    (tree : Readdir Dirent) (w : World) :
  exists results w1 t outcomes w',
    findPdfPathsRecursive VERBOSE cwd cwd tree w = (Ok results, w1) /\
    run VERBOSE (CwdIs cwd) prompt JSON_parses polka disk tree w = (t, outcomes, w') /\
    (t = Hangs \/ exit_status t = Some 0%Z) /\
    (ends polka -> exit_status t = Some 0%Z) /\
    (results = [] ->
       t = ExitCalled 0 /\ outcomes = [] /\
       jobs w' = jobs w /\ files w' = files w /\
       console w' = console w1 ++ [(WARN, NoPdfFound)]) /\
    (results <> [] -> ends polka -> t = RanToEnd /\ length outcomes = length results).
Proof.
  destruct (run_spec VERBOSE cwd prompt JSON_parses polka disk tree w)
    as (results & w1 & t & outcomes & w' & E1 & E2 & Hzero & Hsome & Hends).
  destruct (findPdfPathsRecursive_spec VERBOSE cwd cwd tree w)
    as (results' & w1' & E1' & (Hf & Hj & _) & _).
  rewrite E1 in E1'. injection E1' as <- <-.
  exists results, w1, t, outcomes, w'. split; [exact E1|split; [exact E2|]].
  split; [|split; [|split; [|exact Hends]]].
  - destruct results as [|p rest].
    + destruct Hzero as (-> & _); [reflexivity|]. now right.
    + destruct Hsome as [-> | [-> _]]; [discriminate|now left|now right].
  - intros He. destruct results as [|p rest].
    + now destruct Hzero as (-> & _).
    + now destruct Hends as (-> & _).
  - intros Hnil. destruct (Hzero Hnil) as (-> & -> & ->). simpl. auto.
Qed.

(** C6, for a directory without a document. *)
Lemma run_exit_status_zero_sample :
  exists w',
    run false (CwdIs "/w") sample_prompt is_json_array polka_succeeds plain_disk
      tree_without_pdf (world0 ∅)
      = (ExitCalled 0, [], w') /\
    jobs w' = [] /\ files w' = ∅ /\
    console w' = [(LOG, DiscoveredPdfs 0); (WARN, NoPdfFound)].
Proof.
  destruct (run_exit_status_zero false "/w" sample_prompt is_json_array polka_succeeds
              plain_disk tree_without_pdf (world0 ∅))
    as (results & w1 & t & outcomes & w' & E1 & E2 & _ & _ & Hzero & _).
  vm_compute in E1. injection E1 as <- <-.
  destruct (Hzero eq_refl) as (-> & -> & Hj & Hf & Hc).
  exists w'. auto.
Defined.

(** C7, as the code has it: the fault before discovery is [process.cwd()]
    throwing.  Nothing catches it: the run ends by that exception, with an
    exit status that is not zero, and the script prints nothing of its own.
    A root directory that cannot be read is no such fault: it is skipped
    like any other directory, discovery prints the warning with the
    directory and the message of the error, finds nothing, and the run ends
    by [process.exit(0)] with no job started and no file changed.  And no
    other condition is fatal: a run that ends with a status that is not zero
    is one whose [process.cwd()] threw. *)
Theorem only_a_missing_cwd_aborts
    (VERBOSE : bool) (prompt : string) (JSON_parses : string -> bool)
    (polka : string -> gmap string string -> Proc) (disk : Disk) :
  (forall e tree w,
     run VERBOSE (CwdThrows e) prompt JSON_parses polka disk tree w = (Uncaught e, [], w) /\
     aborted (Uncaught e)) /\
  (forall cwd message w,
     run VERBOSE (CwdIs cwd) prompt JSON_parses polka disk (ReaddirFails message) w =
       (ExitCalled 0, [],
        mkWorld (files w)
          (console w ++ (if VERBOSE then [(LOG, ScanDir cwd)] else []) ++
           [(WARN, SkipUnreadableDir cwd message); (LOG, DiscoveredPdfs 0);
            (WARN, NoPdfFound)])
          (jobs w))) /\
  (forall here tree w, exists t outcomes w',
     run VERBOSE here prompt JSON_parses polka disk tree w = (t, outcomes, w') /\
     (aborted t -> exists e, here = CwdThrows e)).
Proof.
  split; [|split].
  - intros e tree w. split; [reflexivity|].
    exists 1%Z. split; [reflexivity|discriminate].
  - intros cwd message w.
    unfold run, main, process_cwd, findPdfPathsRecursive, walk, walk_with, bind, ret,
      v, when, log, warn, emit.
    destruct VERBOSE; simpl; now rewrite <- !app_assoc.
  - intros [cwd|e] tree w.
    + destruct (run_spec VERBOSE cwd prompt JSON_parses polka disk tree w)
        as (results & w1 & t & outcomes & w' & _ & E2 & Hzero & Hsome & _).
      exists t, outcomes, w'. split; [exact E2|].
      intros (status & Hstatus & Hnot). exfalso.
      destruct results as [|p rest].
      * destruct Hzero as (-> & _); [reflexivity|].
        injection Hstatus as <-. now apply Hnot.
      * destruct Hsome as [-> | [-> _]]; [discriminate|discriminate Hstatus|].
        injection Hstatus as <-. now apply Hnot.
    + exists (Uncaught e), [], w. split; [reflexivity|]. intros _. now exists e.
Qed.

(** C7 as stated fails.  With a root directory that cannot be read the run
    does not abort and prints no error: it ends with status zero after two
    warnings.  And when [process.cwd()] throws the run aborts, but the
    script prints no error of its own. *)
Lemma unreadable_root_does_not_abort :
  (run false (CwdIs "/w") sample_prompt is_json_array polka_succeeds plain_disk
     (ReaddirFails "EACCES") (world0 ∅)
   = (ExitCalled 0, [],
      mkWorld ∅ [(WARN, SkipUnreadableDir "/w" "EACCES"); (LOG, DiscoveredPdfs 0);
                 (WARN, NoPdfFound)] []) /\
   ~ aborted (ExitCalled 0) /\
   ~ error_printed
       (mkWorld ∅ [(WARN, SkipUnreadableDir "/w" "EACCES"); (LOG, DiscoveredPdfs 0);
                   (WARN, NoPdfFound)] [])) /\
  (run false (CwdThrows "ENOENT") sample_prompt is_json_array polka_succeeds plain_disk
     scenario_tree (world0 ∅)
   = (Uncaught "ENOENT", [], world0 ∅) /\
   aborted (Uncaught "ENOENT") /\
   ~ error_printed (world0 ∅)).
Proof.
  split; (split; [reflexivity|split]).
  - intros (status & [= <-] & Hnot). now apply Hnot.
  - unfold error_printed. intros H.
    apply List.Exists_exists in H as (line & Hin & Hlevel).
    simpl in Hin. destruct Hin as [<- | [<- | [<- | []]]]; discriminate.
  - exists 1%Z. split; [reflexivity|discriminate].
  - unfold error_printed. intros H.
    apply List.Exists_exists in H as (line & [] & _).
Qed.



(** * Further properties *)

(** ** The rounds of the main loop *)

Lemma iteration_pipe_throws VERBOSE prompt JSON_parses polka disk count i p w e after :
  files w !! jsonPathForPdf p = None ->
  polka (stdin_of prompt p) (files w) = PipeThrows e after ->
  exists w',
    iteration VERBOSE prompt JSON_parses polka disk count i p w = (Ok Errored, w') /\
    files w' = after /\ jobs w' = jobs w ++ [p].
Proof.
  intros Hout Hrun. rewrite iteration_absent by assumption.
  unfold announce. run_script.
  destruct VERBOSE; simpl; rewrite Hrun; simpl; eauto.
Qed.

Lemma iteration_round_inv VERBOSE prompt JSON_parses polka disk count i p w o w' :
  iteration VERBOSE prompt JSON_parses polka disk count i p w = (Ok o, w') ->
  round_of prompt polka disk p w o w'.
Proof.
  unfold round_of. intros E. destruct (files w !! jsonPathForPdf p) eqn:Hout.
  - rewrite iteration_skips in E by eauto. injection E as <- <-.
    left. simpl. eauto.
  - right. split; [reflexivity|].
    destruct (polka (stdin_of prompt p) (files w))
      as [e| |e after|text code after|after|text after] eqn:Hrun.
    + destruct (iteration_spawn_throws VERBOSE prompt JSON_parses polka disk count i p w e
                  Hout Hrun) as (w1 & E1 & Hf & Hj).
      rewrite E1 in E. injection E as <- <-. auto.
    + destruct (iteration_no_stdio VERBOSE prompt JSON_parses polka disk count i p w
                  Hout Hrun) as (w1 & E1 & Hf & Hj).
      rewrite E1 in E. injection E as <- <-. auto.
    + destruct (iteration_pipe_throws VERBOSE prompt JSON_parses polka disk count i p w
                  e after Hout Hrun) as (w1 & E1 & Hf & Hj).
      rewrite E1 in E. injection E as <- <-. auto.
    + destruct (iteration_exits VERBOSE prompt JSON_parses polka disk count i p w
                  text code after Hout Hrun) as (w1 & E1 & Hf & Hj).
      rewrite E1 in E. injection E as <- <-. auto.
    + destruct (iteration_hangs VERBOSE prompt JSON_parses polka disk count i p w Hout)
        as (w1 & E1 & _); [now rewrite Hrun|]. rewrite E1 in E. discriminate E.
    + destruct (iteration_hangs VERBOSE prompt JSON_parses polka disk count i p w Hout)
        as (w1 & E1 & _); [now rewrite Hrun|]. rewrite E1 in E. discriminate E.
Qed.

(** A round that was not skipped has an outcome other than Skipped. *)
Lemma round_of_started prompt polka disk p w o w' :
  round_of prompt polka disk p w o w' ->
  files w !! jsonPathForPdf p = None -> is_skipped o = false.
Proof.
  intros [([x Hsome] & _) | (_ & _ & Hcmd)] Hnone; [congruence|].
  destruct (polka (stdin_of prompt p) (files w)) as [| | |text code after| |];
    try (destruct Hcmd as [-> _]; reflexivity); [|destruct Hcmd..].
  destruct Hcmd as [-> _]. unfold outcome_of, verdict.
  destruct (fst _) as [c| |]; try reflexivity. now destruct (c =? 0)%Z.
Qed.

Lemma main_loop_cons_inv VERBOSE prompt JSON_parses polka disk count i p rest w outcomes w' :
  main_loop VERBOSE prompt JSON_parses polka disk count i (p :: rest) w = (Ok outcomes, w') ->
  exists o w1 os,
    iteration VERBOSE prompt JSON_parses polka disk count i p w = (Ok o, w1) /\
    main_loop VERBOSE prompt JSON_parses polka disk count (S i) rest w1 = (Ok os, w') /\
    outcomes = o :: os.
Proof.
  intros E. simpl in E. unfold bind in E.
  destruct (iteration VERBOSE prompt JSON_parses polka disk count i p w)
    as [[o| |] w1]; try discriminate E.
  destruct (main_loop VERBOSE prompt JSON_parses polka disk count (S i) rest w1)
    as [[os| |] w2] eqn:E2; try discriminate E.
  unfold ret in E. injection E as <- <-. now exists o, w1, os.
Qed.

Lemma main_loop_jobs VERBOSE prompt JSON_parses polka disk count pdfs :
  forall i w outcomes w',
    main_loop VERBOSE prompt JSON_parses polka disk count i pdfs w = (Ok outcomes, w') ->
    jobs w' = jobs w ++ started pdfs outcomes.
Proof.
  induction pdfs as [|p rest IH]; intros i w outcomes w' E.
  - injection E as <- <-. simpl. now rewrite app_nil_r.
  - apply main_loop_cons_inv in E as (o & w1 & os & E1 & E2 & ->).
    apply iteration_round_inv in E1. apply IH in E2. rewrite E2. simpl.
    pose proof (round_of_started _ _ _ _ _ _ _ E1) as Hstarted.
    destruct E1 as [(_ & -> & _ & ->) | (Hnone & -> & _)]; [reflexivity|].
    rewrite (Hstarted Hnone). now rewrite <- app_assoc.
Qed.

Lemma main_loop_all_skipped VERBOSE prompt JSON_parses polka disk count pdfs :
  forall i w outcomes w',
    main_loop VERBOSE prompt JSON_parses polka disk count i pdfs w = (Ok outcomes, w') ->
    Forall (fun o => o = Skipped) outcomes ->
    files w' = files w /\ jobs w' = jobs w.
Proof.
  induction pdfs as [|p rest IH]; intros i w outcomes w' E Hall.
  - injection E as <- <-. auto.
  - apply main_loop_cons_inv in E as (o & w1 & os & E1 & E2 & ->).
    inversion Hall as [|? ? -> Hrest]; subst.
    apply iteration_round_inv in E1.
    destruct (IH _ _ _ _ E2 Hrest) as [Hf Hj]. rewrite Hf, Hj.
    pose proof (round_of_started _ _ _ _ _ _ _ E1) as Hstarted.
    destruct E1 as [(_ & _ & Hf1 & Hj1) | (Hnone & _ & _)]; [auto|].
    now specialize (Hstarted Hnone).
Qed.

Lemma polka_succeeds_ends : ends polka_succeeds.
Proof. intros input fs. reflexivity. Qed.

(** X1: when the commands end, the main loop returns with an outcome for
    every candidate, and it has called [runPolkaWithPath] once for every
    candidate it did not skip, in the order of the candidates, and never for
    a skipped one: no candidate is tried twice in a run. *)
Theorem one_job_per_round
    (VERBOSE : bool) (prompt : string) (JSON_parses : string -> bool)
    (polka : string -> gmap string string -> Proc) (disk : Disk)
    (count i : nat) (pdfs : list string) (w : World) :
  ends polka ->
  exists outcomes w',
    main_loop VERBOSE prompt JSON_parses polka disk count i pdfs w = (Ok outcomes, w') /\
    length outcomes = length pdfs /\
    jobs w' = jobs w ++ started pdfs outcomes.
Proof.
  intros Hends.
  destruct (main_loop_returns VERBOSE prompt JSON_parses polka disk count pdfs Hends i w)
    as (outcomes & w' & E & Hlen).
  exists outcomes, w'. split; [exact E|split; [exact Hlen|]].
  now apply main_loop_jobs in E.
Qed.

(** X1, for a candidate with a companion file between two without. *)
Lemma one_job_per_round_sample :
  exists w',
    main_loop false sample_prompt is_json_array polka_succeeds plain_disk 3 0
      ["/w/a.pdf"; "/w/b.pdf"; "/w/c.pdf"]%string
      (world0 {["/w/b.json"%string := "[]"%string]})
      = (Ok [Succeeded; Skipped; Succeeded], w') /\
    jobs w' = ["/w/a.pdf"; "/w/c.pdf"]%string.
Proof.
  destruct (one_job_per_round false sample_prompt is_json_array polka_succeeds plain_disk 3 0
              ["/w/a.pdf"; "/w/b.pdf"; "/w/c.pdf"]%string
              (world0 {["/w/b.json"%string := "[]"%string]}) polka_succeeds_ends)
    as (outcomes & w' & E & _ & Hj).
  assert (Hos : fst (main_loop false sample_prompt is_json_array polka_succeeds plain_disk 3 0
                       ["/w/a.pdf"; "/w/b.pdf"; "/w/c.pdf"]%string
                       (world0 {["/w/b.json"%string := "[]"%string]}))
                = Ok [Succeeded; Skipped; Succeeded]) by (vm_compute; reflexivity).
  rewrite E in Hos. simpl in Hos. injection Hos as ->.
  exists w'. split; [exact E|exact Hj].
Defined.

(** ** The file store under a command that leaves it alone *)

Lemma jsonPathForPdf_ends_json p : ends_with ".json" (jsonPathForPdf p).
Proof.
  rewrite jsonPathForPdf_chars, json_chars_joined. unfold joined. simpl rev.
  set (st := stack_of _). set (pre := prefix_of _).
  destruct (decide (rev st = [])) as [E | E].
  - rewrite E. simpl Path.unsegments. unfold json_name.
    rewrite app_assoc, to_string_app. now eexists.
  - rewrite unsegments_snoc by assumption. unfold json_name.
    change ("/" :: ?a ++ json_ext) with (("/" :: a) ++ json_ext).
    rewrite !app_assoc, to_string_app. now eexists.
Qed.

Lemma round_store prompt polka disk p w o w' :
  leaves_store polka -> in_place disk -> round_of prompt polka disk p w o w' ->
  files w ⊆ files w' /\
  (forall q x, files w' !! q = Some x ->
               files w !! q = Some x \/ (q = jsonPathForPdf p /\ o = Succeeded)) /\
  (kept o -> is_Some (files w' !! jsonPathForPdf p)) /\
  (is_Some (files w !! jsonPathForPdf p) -> o = Skipped).
Proof.
  intros Hleave [Hwrite Hunlink] [(Hsome & -> & Hf & _) | (Hnone & _ & Hcmd)].
  - rewrite Hf. repeat split; auto.
  - specialize (Hleave (stdin_of prompt p) (files w)).
    assert (Hfresh : ~ is_Some (files w !! jsonPathForPdf p)).
    { rewrite Hnone. now intros [? [=]]. }
    destruct (polka (stdin_of prompt p) (files w))
      as [e| |e after|text code after|after|text after];
      try (now destruct Hcmd); destruct Hcmd as [-> ->]; try subst after.
    4:{ specialize (Hwrite (jsonPathForPdf p) text (files w)).
        specialize (Hunlink (jsonPathForPdf p) (files w)).
        unfold after_job, outcome_of, verdict. destruct (code =? 0)%Z eqn:Hcode.
        - destruct (write_answer disk (jsonPathForPdf p) text (files w));
            subst; simpl; rewrite ?Hcode.
          + split; [now apply insert_subseteq|split; [|split]].
            * intros q x Hq. apply lookup_insert_Some in Hq as [[<- _] | [_ Hq]]; auto.
            * intros _. rewrite lookup_insert_eq. eauto.
            * intros Hs. now destruct (Hfresh Hs).
          + repeat split; auto.
            * now intros [[=] | [=]].
            * intros Hs. now destruct (Hfresh Hs).
        - simpl. rewrite Hcode.
          assert (match unlink_answer disk (jsonPathForPdf p) (files w) with
                  | Removed rest => delete (jsonPathForPdf p) rest
                  | UnlinkThrows _ => files w
                  end = files w) as ->.
          { destruct (unlink_answer disk (jsonPathForPdf p) (files w)); subst;
              [now apply delete_id|reflexivity]. }
          repeat split; auto.
          + now intros [[=] | [=]].
          + intros Hs. now destruct (Hfresh Hs). }
    all: repeat split; auto;
      try (now intros [[=] | [=]]); intros Hs; now destruct (Hfresh Hs).
Qed.

Lemma main_loop_store VERBOSE prompt JSON_parses polka disk count pdfs :
  leaves_store polka -> in_place disk ->
  forall i w outcomes w',
    main_loop VERBOSE prompt JSON_parses polka disk count i pdfs w = (Ok outcomes, w') ->
    files w ⊆ files w' /\
    (forall q x, files w' !! q = Some x ->
                 files w !! q = Some x \/ exists p, In p pdfs /\ q = jsonPathForPdf p) /\
    Forall2 (fun p o => kept o -> is_Some (files w' !! jsonPathForPdf p)) pdfs outcomes /\
    Forall2 (fun p o => is_Some (files w !! jsonPathForPdf p) -> o = Skipped) pdfs outcomes.
Proof.
  intros Hleave Hplace. induction pdfs as [|p rest IH]; intros i w outcomes w' E.
  - injection E as <- <-. repeat split; auto; constructor.
  - apply main_loop_cons_inv in E as (o & w1 & os & E1 & E2 & ->).
    apply iteration_round_inv in E1.
    destruct (round_store prompt polka disk p w o w1 Hleave Hplace E1)
      as (Hsub1 & Hnew1 & Hkept1 & Hskip1).
    destruct (IH _ _ _ _ E2) as (Hsub2 & Hnew2 & Hkept2 & Hskip2).
    split; [etrans; eassumption|split; [|split]].
    + intros q x Hq. destruct (Hnew2 q x Hq) as [Hq1 | (p' & Hin & ->)].
      * destruct (Hnew1 q x Hq1) as [Hq0 | [-> _]]; [now left|].
        right. exists p. split; [now left|reflexivity].
      * right. exists p'. split; [now right|reflexivity].
    + constructor; [|exact Hkept2].
      intros Hk. eapply lookup_weaken_is_Some; [|exact Hsub2]. now apply Hkept1.
    + constructor; [exact Hskip1|].
      eapply Forall2_impl; [exact Hskip2|]. intros q o' Hq Hsome. apply Hq.
      eapply lookup_weaken_is_Some; eassumption.
Qed.

Lemma plain_disk_in_place : in_place plain_disk.
Proof. apply plain_disk_obliging. Qed.

(** X2: with a command that ends and leaves the file store alone, on a disk
    where a request changes nothing but the entry at its path (no link at a
    companion path), the main loop deletes no file and overwrites none:
    every file is still there with its content, every new file is at the
    companion path of a candidate, and no path that does not end in ".json"
    changes. *)
Theorem store_only_gains_companions
    (VERBOSE : bool) (prompt : string) (JSON_parses : string -> bool)
    (polka : string -> gmap string string -> Proc) (disk : Disk)
    (count i : nat) (pdfs : list string) (w : World) :
  ends polka -> leaves_store polka -> in_place disk ->
  exists outcomes w',
    main_loop VERBOSE prompt JSON_parses polka disk count i pdfs w = (Ok outcomes, w') /\
    files w ⊆ files w' /\
    (forall q x, files w' !! q = Some x ->
                 files w !! q = Some x \/ exists p, In p pdfs /\ q = jsonPathForPdf p) /\
    (forall q, ~ ends_with ".json" q -> files w' !! q = files w !! q).
Proof.
  intros Hends Hleave Hplace.
  destruct (main_loop_returns VERBOSE prompt JSON_parses polka disk count pdfs Hends i w)
    as (outcomes & w' & E & _).
  destruct (main_loop_store VERBOSE prompt JSON_parses polka disk count pdfs Hleave Hplace
              _ _ _ _ E) as (Hsub & Hnew & _ & _).
  exists outcomes, w'. split; [exact E|split; [exact Hsub|split; [exact Hnew|]]].
  intros q Hq. destruct (files w' !! q) as [x|] eqn:Hq'.
  - destruct (Hnew q x Hq') as [Hq0 | (p & _ & ->)]; [now rewrite Hq0|].
    destruct Hq. apply jsonPathForPdf_ends_json.
  - destruct (files w !! q) as [x|] eqn:Hq0; [|reflexivity].
    rewrite (lookup_weaken _ _ _ _ Hq0 Hsub) in Hq'. discriminate.
Qed.

(** X2, for a document and a command that prints "[]". *)
Lemma store_only_gains_companions_sample :
  exists outcomes w',
    main_loop false sample_prompt is_json_array polka_succeeds plain_disk 1 0
      ["/w/a.pdf"%string]
      (world0 {["/w/a.pdf"%string := "%PDF-1.7"%string]}) = (Ok outcomes, w') /\
    files w' !! "/w/a.pdf"%string = Some "%PDF-1.7"%string.
Proof.
  assert (Hleave : leaves_store polka_succeeds) by (intros input fs; reflexivity).
  destruct (store_only_gains_companions false sample_prompt is_json_array polka_succeeds
              plain_disk 1 0 ["/w/a.pdf"%string]
              (world0 {["/w/a.pdf"%string := "%PDF-1.7"%string]})
              polka_succeeds_ends Hleave plain_disk_in_place)
    as (outcomes & w' & E & Hsub & _).
  exists outcomes, w'. split; [exact E|].
  eapply lookup_weaken; [|exact Hsub]. vm_compute. reflexivity.
Defined.

(** X3: with a command that ends and leaves the file store alone, on a disk
    where a request changes nothing but the entry at its path, a second pass
    over the same candidates skips every candidate that the first pass
    skipped or processed with success; if that is all of them, the second
    pass starts no job and changes no file. *)
Theorem second_pass_skips
    (VERBOSE : bool) (prompt : string) (JSON_parses : string -> bool)
    (polka : string -> gmap string string -> Proc) (disk : Disk)
    (count i count' i' : nat) (pdfs : list string) (w : World) :
  ends polka -> leaves_store polka -> in_place disk ->
  exists outcomes w1 outcomes' w2,
    main_loop VERBOSE prompt JSON_parses polka disk count i pdfs w = (Ok outcomes, w1) /\
    main_loop VERBOSE prompt JSON_parses polka disk count' i' pdfs w1 = (Ok outcomes', w2) /\
    Forall2 (fun o o' => kept o -> o' = Skipped) outcomes outcomes' /\
    (Forall kept outcomes -> jobs w2 = jobs w1 /\ files w2 = files w1).
Proof.
  intros Hends Hleave Hplace.
  destruct (main_loop_returns VERBOSE prompt JSON_parses polka disk count pdfs Hends i w)
    as (outcomes & w1 & E1 & _).
  destruct (main_loop_returns VERBOSE prompt JSON_parses polka disk count' pdfs Hends i' w1)
    as (outcomes' & w2 & E2 & _).
  destruct (main_loop_store VERBOSE prompt JSON_parses polka disk count pdfs Hleave Hplace
              _ _ _ _ E1) as (_ & _ & Hkept & _).
  destruct (main_loop_store VERBOSE prompt JSON_parses polka disk count' pdfs Hleave Hplace
              _ _ _ _ E2) as (_ & _ & _ & Hskip).
  assert (Hboth : Forall2 (fun o o' => kept o -> o' = Skipped) outcomes outcomes').
  { clear E1 E2. revert outcomes' Hskip.
    induction Hkept as [|p o ps os Hp _ IH]; intros outcomes' Hskip;
      inversion Hskip as [|? o' ? os' Hp' Hrest]; subst; constructor; auto. }
  exists outcomes, w1, outcomes', w2.
  split; [exact E1|split; [exact E2|split; [exact Hboth|]]].
  intros Hall.
  assert (Hskipped : Forall (fun o' => o' = Skipped) outcomes').
  { clear - Hboth Hall. induction Hboth as [|o o' os os' Ho _ IH]; [constructor|].
    inversion Hall; subst. constructor; auto. }
  destruct (main_loop_all_skipped VERBOSE prompt JSON_parses polka disk count' pdfs
              _ _ _ _ E2 Hskipped) as [Hf Hj].
  auto.
Qed.

(** X3, for two documents and a command that prints "[]". *)
Lemma second_pass_skips_sample :
  exists w1 w2,
    main_loop false sample_prompt is_json_array polka_succeeds plain_disk 2 0
      ["/w/a.pdf"; "/w/b.pdf"]%string (world0 ∅) = (Ok [Succeeded; Succeeded], w1) /\
    main_loop false sample_prompt is_json_array polka_succeeds plain_disk 2 0
      ["/w/a.pdf"; "/w/b.pdf"]%string w1 = (Ok [Skipped; Skipped], w2) /\
    jobs w2 = jobs w1.
Proof.
  assert (Hleave : leaves_store polka_succeeds) by (intros input fs; reflexivity).
  destruct (second_pass_skips false sample_prompt is_json_array polka_succeeds plain_disk
              2 0 2 0 ["/w/a.pdf"; "/w/b.pdf"]%string (world0 ∅)
              polka_succeeds_ends Hleave plain_disk_in_place)
    as (outcomes & w1 & outcomes' & w2 & E1 & E2 & Hboth & Hall).
  assert (Hos : fst (main_loop false sample_prompt is_json_array polka_succeeds plain_disk 2 0
                       ["/w/a.pdf"; "/w/b.pdf"]%string (world0 ∅))
                = Ok [Succeeded; Succeeded]) by (vm_compute; reflexivity).
  rewrite E1 in Hos. simpl in Hos. injection Hos as ->.
  inversion Hboth as [|? o1 ? os1 H1 Hrest]; subst.
  inversion Hrest as [|? o2 ? os2 H2 Hnil]; subst.
  inversion Hnil; subst.
  rewrite (H1 (or_introl eq_refl)), (H2 (or_introl eq_refl)) in E2.
  destruct Hall as [Hj _]; [repeat constructor|].
  exists w1, w2. auto.
Defined.

(** ** The verbose mode *)

Lemma quiet_lines_app a b : quiet_lines (a ++ b) = quiet_lines a ++ quiet_lines b.
Proof. apply List.filter_app. Qed.

Lemma agree_ret {A} (a : A) : agree (ret a) (ret a).
Proof. intros w1 w2 S. now split. Qed.

Lemma agree_throw {A} e : agree (@throw A e) (throw e).
Proof. intros w1 w2 S. now split. Qed.

Lemma agree_pending {A} : agree (@pending A) pending.
Proof. intros w1 w2 S. now split. Qed.

Lemma agree_bind {A B} (m1 m2 : M A) (k1 k2 : A -> M B) :
  agree m1 m2 -> (forall a, agree (k1 a) (k2 a)) -> agree (bind m1 k1) (bind m2 k2).
Proof.
  intros Hm Hk w1 w2 S. unfold bind. destruct (Hm w1 w2 S) as [Hr S'].
  destruct (m1 w1) as [r1 w1'], (m2 w2) as [r2 w2']. simpl in *. subst r2.
  destruct r1 as [a|e|]; [now apply Hk|now split..].
Qed.

Lemma agree_try_catch {A} (m1 m2 : M A) (h1 h2 : string -> M A) :
  agree m1 m2 -> (forall e, agree (h1 e) (h2 e)) ->
  agree (try_catch m1 h1) (try_catch m2 h2).
Proof.
  intros Hm Hh w1 w2 S. unfold try_catch. destruct (Hm w1 w2 S) as [Hr S'].
  destruct (m1 w1) as [r1 w1'], (m2 w2) as [r2 w2']. simpl in *. subst r2.
  destruct r1 as [a|e|]; [now split|now apply Hh|now split].
Qed.

Lemma agree_emit l m : agree (emit l m) (emit l m).
Proof.
  intros w1 w2 (Hf & Hj & Hc). split; [reflexivity|]. repeat split; simpl; auto.
  now rewrite !quiet_lines_app, Hc.
Qed.

Lemma agree_emit_verbose l m : verbose_only m = true -> agree (emit l m) (ret tt).
Proof.
  intros Hm w1 w2 (Hf & Hj & Hc). split; [reflexivity|]. repeat split; simpl; auto.
  rewrite quiet_lines_app, Hc. unfold quiet_lines at 2. simpl. rewrite Hm. simpl.
  apply app_nil_r.
Qed.

Lemma agree_v m : verbose_only m = true -> agree (v true m) (v false m).
Proof. intros Hm. now apply agree_emit_verbose. Qed.

Lemma agree_list_pdfs (results : list string) :
  agree (for_of (fun p (_ : unit) => emit RAW (ListedPdf p)) results tt) (ret tt).
Proof.
  induction results as [|p rest IH]; [apply agree_ret|].
  intros w1 w2 S. simpl. unfold bind.
  destruct (agree_emit_verbose RAW (ListedPdf p) eq_refl w1 w2 S) as [_ S'].
  simpl in S'. now apply IH.
Qed.

Lemma agree_for_of {A S} (f1 f2 : A -> S -> M S) xs :
  Forall (fun x => forall s, agree (f1 x s) (f2 x s)) xs ->
  forall s, agree (for_of f1 xs s) (for_of f2 xs s).
Proof.
  induction 1 as [|x xs Hx _ IH]; intros s; [apply agree_ret|].
  simpl. apply agree_bind; [apply Hx|exact IH].
Qed.

Lemma agree_reads {A} (f : gmap string string -> Res A) :
  agree (fun w => (f (files w), w)) (fun w => (f (files w), w)).
Proof. intros w1 w2 S. simpl. split; [|exact S]. destruct S as (-> & _). reflexivity. Qed.

Lemma agree_access p : agree (access p) (access p).
Proof.
  intros w1 w2 S. pose proof S as (Hf & _). unfold access. rewrite Hf.
  destruct (files w2 !! p); now split.
Qed.

Lemma agree_unlink disk p : agree (unlink disk p) (unlink disk p).
Proof.
  intros w1 w2 S. pose proof S as (Hf & Hj & Hc). unfold unlink. rewrite Hf.
  destruct (unlink_answer disk p (files w2)); [|now split].
  split; [reflexivity|]. repeat split; simpl; congruence.
Qed.

Lemma agree_Bun_write disk p text : agree (Bun_write disk p text) (Bun_write disk p text).
Proof.
  intros w1 w2 (Hf & Hj & Hc). unfold Bun_write. rewrite Hf.
  destruct (write_answer disk p text (files w2));
    (split; [reflexivity|]; repeat split; simpl; congruence).
Qed.

Lemma agree_process_cwd here : agree (process_cwd here) (process_cwd here).
Proof. destruct here; [apply agree_ret|apply agree_throw]. Qed.

Lemma agree_enter_job p : agree (enter_job p) (enter_job p).
Proof.
  intros w1 w2 (Hf & Hj & Hc). split; [reflexivity|]. repeat split; simpl; congruence.
Qed.

Lemma agree_set_files after : agree (set_files after) (set_files after).
Proof.
  intros w1 w2 (Hf & Hj & Hc). split; [reflexivity|]. repeat split; simpl; congruence.
Qed.

Lemma agree_Bun_spawn polka input : agree (Bun_spawn polka input) (Bun_spawn polka input).
Proof.
  intros w1 w2 S. pose proof S as (Hf & _). unfold Bun_spawn. rewrite Hf.
  destruct (polka input (files w2)); now split.
Qed.

Lemma agree_communicate proc : agree (communicate proc) (communicate proc).
Proof.
  destruct proc; simpl; try apply agree_throw;
    (apply agree_bind; [apply agree_set_files|intros _]);
    first [apply agree_throw|apply agree_ret|apply agree_pending].
Qed.

Lemma agree_exited proc : agree (exited proc) (exited proc).
Proof.
  destruct proc; simpl; first [apply agree_throw|apply agree_ret|apply agree_pending].
Qed.

Ltac agree_step :=
  first
    [ apply agree_ret | apply agree_throw | apply agree_emit
    | apply agree_v; reflexivity | apply agree_emit_verbose; reflexivity
    | apply agree_access | apply agree_unlink | apply agree_Bun_write
    | apply agree_enter_job | apply agree_set_files | apply agree_Bun_spawn
    | apply agree_communicate | apply agree_exited | apply agree_list_pdfs
    | apply agree_bind; [|intros ?]
    | apply agree_try_catch; [|intros ?]
    | match goal with
      | |- agree (if ?b then _ else _) _ => destruct b
      end ].

Lemma agree_walk_entry cwd e :
  forall dir results,
    agree (walk_entry true cwd dir e results) (walk_entry false cwd dir e results).
Proof.
  induction e as [name|name|name message|name entries IH] using Dirent_nested_ind;
    intros dir results; simpl.
  - repeat agree_step.
  - agree_step.
  - unfold walk_with, warn. repeat agree_step.
  - unfold walk_with. destruct (excluded name); repeat agree_step.
    apply agree_for_of. eapply Forall_impl; [exact IH|]. intros e He s. apply He.
Qed.

Lemma agree_findPdfPathsRecursive cwd root tree :
  agree (findPdfPathsRecursive true cwd root tree) (findPdfPathsRecursive false cwd root tree).
Proof.
  unfold findPdfPathsRecursive, walk, walk_with, log, warn, when.
  agree_step.
  - agree_step; [agree_step|]. destruct tree; [|repeat agree_step].
    apply agree_for_of, Forall_forall. intros e _ s. apply agree_walk_entry.
  - repeat agree_step.
Qed.

Lemma agree_runPolkaWithPath prompt JSON_parses polka disk p :
  agree (runPolkaWithPath true prompt JSON_parses polka disk p)
        (runPolkaWithPath false prompt JSON_parses polka disk p).
Proof.
  unfold runPolkaWithPath, log, warn, error, when.
  apply agree_bind; [apply agree_enter_job|intros _].
  apply agree_bind; [apply agree_v; reflexivity|intros _].
  apply agree_bind; [apply agree_Bun_spawn|intros proc].
  destruct (negb (has_stdio proc)); [repeat agree_step|].
  apply agree_bind; [apply agree_v; reflexivity|intros _].
  apply agree_bind; [apply agree_communicate|intros stdoutText].
  apply agree_bind; [apply agree_v; reflexivity|intros _].
  apply agree_bind.
  { destruct (negb (JSON_parses stdoutText)); repeat agree_step. }
  intros _. repeat agree_step.
Qed.

Lemma agree_iteration prompt JSON_parses polka disk count i p :
  agree (iteration true prompt JSON_parses polka disk count i p)
        (iteration false prompt JSON_parses polka disk count i p).
Proof.
  unfold iteration, fileExists, log, warn, error.
  apply agree_bind; [apply agree_emit|intros _].
  apply agree_bind; [repeat agree_step|intros found].
  destruct found; [repeat agree_step|].
  apply agree_try_catch; [|intros e; repeat agree_step].
  apply agree_bind; [apply agree_runPolkaWithPath|intros code].
  repeat agree_step.
Qed.

Lemma agree_main_loop prompt JSON_parses polka disk count pdfs :
  forall i,
    agree (main_loop true prompt JSON_parses polka disk count i pdfs)
          (main_loop false prompt JSON_parses polka disk count i pdfs).
Proof.
  induction pdfs as [|p rest IH]; intros i; simpl; [apply agree_ret|].
  apply agree_bind; [apply agree_iteration|intros o].
  apply agree_bind; [apply IH|intros os]. apply agree_ret.
Qed.

Lemma agree_main here prompt JSON_parses polka disk tree :
  agree (main true here prompt JSON_parses polka disk tree)
        (main false here prompt JSON_parses polka disk tree).
Proof.
  unfold main, log, warn.
  apply agree_bind; [apply agree_process_cwd|intros cwd].
  apply agree_bind; [apply agree_findPdfPathsRecursive|intros pdfs].
  destruct (length pdfs =? 0)%nat; [repeat agree_step|].
  apply agree_bind; [apply agree_emit|intros _].
  apply agree_bind; [apply agree_main_loop|intros os]. repeat agree_step.
Qed.

Lemma same_but_verbose_refl w : same_but_verbose w w.
Proof. now repeat split. Qed.

(** X4: the verbose mode changes nothing but the console.  A verbose run and
    a quiet run from the same world end the same way with the same outcomes,
    leave the same files, start the same jobs, and print the same lines apart
    from those that only the verbose mode prints. *)
Theorem verbose_changes_console_only
    (here : Cwd) (prompt : string) (JSON_parses : string -> bool)
    (polka : string -> gmap string string -> Proc) (disk : Disk)
    (tree : Readdir Dirent) (w : World) :
  fst (run true here prompt JSON_parses polka disk tree w)
    = fst (run false here prompt JSON_parses polka disk tree w) /\
  files (snd (run true here prompt JSON_parses polka disk tree w))
    = files (snd (run false here prompt JSON_parses polka disk tree w)) /\
  jobs (snd (run true here prompt JSON_parses polka disk tree w))
    = jobs (snd (run false here prompt JSON_parses polka disk tree w)) /\
  quiet_lines (console (snd (run true here prompt JSON_parses polka disk tree w)))
    = quiet_lines (console (snd (run false here prompt JSON_parses polka disk tree w))).
Proof.
  destruct (agree_main here prompt JSON_parses polka disk tree w w (same_but_verbose_refl w))
    as [Hr (Hf & Hj & Hc)].
  unfold run.
  destruct (main true here prompt JSON_parses polka disk tree w) as [r1 w1].
  destruct (main false here prompt JSON_parses polka disk tree w) as [r2 w2].
  simpl in *. subst r2. destruct r1 as [[t os]|e|]; simpl; auto.
Qed.

(** ** The path of a directory entry *)

Lemma resolve_scan_absolute cwd :
  Path.isAbsolute cwd = true ->
  forall l acc, snd (Path.resolve_scan (l ++ [cwd]) acc) = true.
Proof.
  intros Hcwd. induction l as [|x l IH]; intros acc; simpl.
  - destruct cwd; [discriminate|]. now rewrite Hcwd.
  - destruct x as [|c x]; [apply IH|].
    destruct (Path.isAbsolute (c :: x)); [reflexivity|apply IH].
Qed.

Lemma resolved_form p :
  resolved p ->
  exists st, of_string p = finish true st /\ wf_stack false st /\ good_stack st.
Proof.
  intros (cwd & args & Hcwd & ->). unfold resolve. rewrite of_to_string.
  unfold Path.resolve. change (rev (of_string cwd :: map of_string args))
    with (rev (map of_string args) ++ [of_string cwd]).
  pose proof (resolve_scan_absolute _ Hcwd (rev (map of_string args)) []) as Habs.
  destruct (Path.resolve_scan _ _) as [rp abs]. simpl in Habs. subst abs.
  exists (Path.normalize_segments false (Path.segments rp) []).
  split; [reflexivity|split].
  - apply (segments_wf false), wf_nil.
  - apply segments_good; [constructor|apply segments_all_no_slash].
Qed.

Lemma finish_true_dir_of st : finish true st = dir_of true st.
Proof. now destruct st. Qed.

Lemma normal_not_absolute n : n <> [] -> no_slash n -> Path.isAbsolute n = false.
Proof. intros Hne Hns. destruct n; [contradiction|]. now inversion Hns. Qed.

Lemma resolve_child cwd st n :
  wf_stack false st -> good_stack st -> no_slash n -> normal n ->
  Path.resolve cwd [finish true st; n] = finish true (n :: st).
Proof.
  intros Hwf Hgood Hns Hn. pose proof Hn as (Hne & _ & _).
  destruct (dir_of_props true st Hwf Hgood) as (Hd & Habs & Hst).
  rewrite <- finish_true_dir_of in Hd, Habs, Hst.
  remember (finish true st) as D eqn:ED. clear ED.
  unfold Path.resolve. simpl rev. simpl app.
  unfold Path.resolve_scan.
  destruct n as [|c n']; [contradiction|].
  rewrite (normal_not_absolute (c :: n')) by assumption.
  destruct D as [|d0 d']; [contradiction|].
  rewrite Habs. unfold Path.normalizeString.
  change ((d0 :: d') ++ "/" :: (c :: n') ++ "/" :: [])
    with ((d0 :: d') ++ "/" :: ((c :: n') ++ ["/"])).
  rewrite segments_app_slash, segments_trailing, (segments_no_slash _ Hns).
  rewrite app_assoc, normalize_segments_trailing, normalize_segments_snoc.
  change (negb true) with false.
  rewrite <- (stack_of_absolute _ Habs), Hst, step_normal by assumption.
  reflexivity.
Qed.

Lemma finish_child st n :
  good_stack st -> n <> [] ->
  finish true (n :: st) =
  match st with
  | [] => "/" :: n
  | _ => finish true st ++ "/" :: n
  end.
Proof.
  intros Hgood Hne. unfold finish. simpl rev. destruct st as [|top below]; [reflexivity|].
  rewrite unsegments_snoc by (apply rev_nonempty; discriminate). reflexivity.
Qed.

Lemma finish_root st : good_stack st -> (finish true st = ["/"] <-> st = []).
Proof.
  intros Hgood. split; [|now intros ->].
  destruct st as [|top below]; [reflexivity|]. intros H. exfalso.
  destruct (unsegments_head (rev (top :: below))) as (c & U & HU & _);
    [apply rev_nonempty; discriminate|now apply Forall_rev|].
  unfold finish in H. rewrite HU in H. discriminate.
Qed.

Lemma finish_true_inj st st' :
  wf_stack false st -> good_stack st -> wf_stack false st' -> good_stack st' ->
  finish true st = finish true st' -> st = st'.
Proof.
  intros Hwf Hgood Hwf' Hgood' E.
  destruct (dir_of_props true st Hwf Hgood) as (_ & _ & Hst).
  destruct (dir_of_props true st' Hwf' Hgood') as (_ & _ & Hst').
  rewrite <- finish_true_dir_of in Hst, Hst'. congruence.
Qed.

Lemma resolve_child_strings cwd dir name :
  resolved dir -> plain_name name ->
  exists st,
    of_string dir = finish true st /\ wf_stack false st /\ good_stack st /\
    of_string (resolve cwd [dir; name]) = finish true (of_string name :: st).
Proof.
  intros Hdir [Hns Hn]. destruct (resolved_form dir Hdir) as (st & Ed & Hwf & Hgood).
  exists st. repeat split; try assumption.
  unfold resolve. rewrite of_to_string. simpl map. rewrite Ed.
  now apply resolve_child.
Qed.

(** X5: the path [resolve(dir, e.name)] of an entry named as [readdir] names
    entries, in a directory whose path [resolve] returned, is the path of the
    directory, a slash and the name (no other slash after the root), whatever
    the working directory.  [dirname] and [basename] give back the directory
    and the name, and [join] of the two gives back the path. *)
Theorem entry_path_splits (cwd dir name : string) :
  resolved dir -> plain_name name ->
  resolve cwd [dir; name]
    = (if String.eqb dir "/" then "/" ++ name else dir ++ "/" ++ name)%string /\
  dirname (resolve cwd [dir; name]) = dir /\
  basename (resolve cwd [dir; name]) = name /\
  join (dirname (resolve cwd [dir; name])) (basename (resolve cwd [dir; name]))
    = resolve cwd [dir; name] /\
  resolved (resolve cwd [dir; name]).
Proof.
  intros Hdir Hname.
  destruct (resolve_child_strings cwd dir name Hdir Hname)
    as (st & Ed & Hwf & Hgood & Ep).
  destruct Hname as [Hns Hn]. pose proof Hn as (Hne & _ & _).
  assert (Hgood' : good_stack (of_string name :: st)) by (constructor; auto).
  assert (Hdirname : dirname (resolve cwd [dir; name]) = dir).
  { unfold dirname. rewrite Ep, finish_dirname by assumption. simpl tl.
    now rewrite <- finish_true_dir_of, <- Ed, to_of_string. }
  assert (Hbasename : basename (resolve cwd [dir; name]) = name).
  { unfold basename. rewrite Ep.
    change (finish true (of_string name :: st)) with (joined true st (of_string name)).
    rewrite joined_basename by assumption. apply to_of_string. }
  split; [|split; [exact Hdirname|split; [exact Hbasename|split]]].
  - rewrite <- (to_of_string (resolve cwd [dir; name])), Ep, finish_child by assumption.
    destruct (String.eqb_spec dir "/") as [-> | Hroot].
    + simpl in Ed. symmetry in Ed. apply finish_root in Ed; [|assumption]. subst st.
      simpl. now rewrite to_of_string.
    + destruct st as [|top below].
      * destruct Hroot. now rewrite <- (to_of_string dir), Ed.
      * rewrite <- Ed. change ("/" :: of_string name) with (["/"] ++ of_string name).
        rewrite !to_string_app, !to_of_string. reflexivity.
  - rewrite Hdirname, Hbasename. unfold join.
    destruct (dir_of_props true st Hwf Hgood) as (Hd & Habs & Hst).
    rewrite <- finish_true_dir_of, <- Ed in Hd, Habs, Hst.
    rewrite join_two, normalize_dir_name, Habs, Hst by assumption.
    change (joined true st (of_string name)) with (finish true (of_string name :: st)).
    now rewrite <- Ep, to_of_string.
  - exists "/"%string, [dir; name]. split; [reflexivity|].
    rewrite <- (to_of_string (resolve cwd [dir; name])),
      <- (to_of_string (resolve "/" [dir; name])).
    f_equal. rewrite Ep.
    destruct (resolve_child_strings "/" dir name Hdir (conj Hns Hn))
      as (st' & Ed' & Hwf' & Hgood'' & Ep').
    rewrite Ep'. rewrite Ed in Ed'.
    assert (st' = st) as ->; [|reflexivity].
    apply (finish_true_inj st' st); auto.
Qed.

(** X5, for "report.pdf" in "/w/a". *)
Lemma entry_path_splits_sample :
  resolve "/w" ["/w/a"; "report.pdf"]%string = "/w/a/report.pdf"%string /\
  dirname "/w/a/report.pdf" = "/w/a"%string /\
  basename "/w/a/report.pdf" = "report.pdf"%string.
Proof.
  assert (Hdir : resolved "/w/a").
  { exists "/w"%string, ["a"%string]. split; reflexivity. }
  assert (Hname : plain_name "report.pdf").
  { split; [repeat constructor|repeat split; discriminate]. }
  destruct (entry_path_splits "/w" "/w/a" "report.pdf" Hdir Hname)
    as (Hp & Hd & Hb & _).
  split; [exact Hp|split; [exact Hd|exact Hb]].
Defined.

(** ** The extension that is stripped *)

Lemma forallb_no_dot_with_dot x y :
  forallb (fun c => negb (is_dot c)) (x ++ "." :: y) = false.
Proof. induction x as [|c x IH]; [reflexivity|]. simpl. now rewrite IH, andb_false_r. Qed.

Lemma replace_ext_strips stem ext :
  ext <> [] -> no_dot ext -> replace_ext (stem ++ "." :: ext) = stem.
Proof.
  intros Hne Hext. induction stem as [|c stem IH].
  - simpl app. unfold replace_ext, ext_here.
    assert (forallb (fun c => negb (is_dot c)) ext = true) as ->.
    { apply forallb_forall. intros c Hc.
      unfold no_dot in Hext. rewrite List.Forall_forall in Hext. now rewrite (Hext c Hc). }
    destruct ext; [contradiction|reflexivity].
  - simpl app. unfold replace_ext; fold replace_ext. unfold ext_here.
    rewrite forallb_no_dot_with_dot, !andb_false_r. now rewrite IH.
Qed.

Lemma replace_ext_trailing_dot stem : replace_ext (stem ++ ["."]) = stem ++ ["."].
Proof.
  induction stem as [|c stem IH]; [reflexivity|].
  simpl app. unfold replace_ext; fold replace_ext. unfold ext_here.
  rewrite (forallb_no_dot_with_dot stem []), !andb_false_r. now rewrite IH.
Qed.

Lemma of_string_dotted stem ext :
  of_string (stem ++ "." ++ ext)%string = of_string stem ++ "." :: of_string ext.
Proof. now rewrite !of_string_app. Qed.

Lemma of_string_dot_end stem : of_string (stem ++ ".")%string = of_string stem ++ ["."].
Proof. now rewrite of_string_app. Qed.

(** X6: [replace(/\.[^.]+$/i, "")] strips exactly the last extension: a
    name made of a stem, a dot and a non-empty extension without a dot
    becomes the stem, whatever dots the stem has; a name that ends in a dot
    is left as it is. *)
Theorem replace_extension_strips_last (stem ext : string) :
  (ext <> ""%string -> has_dot ext = false ->
   replace_extension (stem ++ "." ++ ext) = stem) /\
  replace_extension (stem ++ ".") = (stem ++ ".")%string.
Proof.
  unfold replace_extension. split.
  - intros Hne Hdot. rewrite of_string_dotted.
    rewrite replace_ext_strips; [apply to_of_string| |now apply has_dot_no_dot].
    intros E. apply Hne. now rewrite <- (to_of_string ext), E.
  - rewrite of_string_dot_end, replace_ext_trailing_dot, <- of_string_dot_end.
    apply to_of_string.
Qed.

(** X6, for "report.v2.pdf". *)
Lemma replace_extension_strips_last_sample :
  replace_extension "report.v2.pdf" = "report.v2"%string.
Proof.
  destruct (replace_extension_strips_last "report.v2" "pdf") as [H _].
  apply H; [discriminate|reflexivity].
Defined.

Lemma plain_with_extension stem ext :
  no_slash stem -> no_slash ext -> ext <> [] -> no_dot ext ->
  no_slash (stem ++ "." :: ext) /\ normal (stem ++ "." :: ext).
Proof.
  intros Hs He Hne Hd. split.
  - apply Forall_app. split; [assumption|]. constructor; [reflexivity|assumption].
  - destruct ext as [|e0 ext']; [contradiction|].
    inversion Hd as [|? ? He0 _]; subst.
    assert (Hin : In e0 (stem ++ "." :: e0 :: ext')).
    { apply in_or_app. right. right. now left. }
    repeat split; intros E; rewrite E in Hin; simpl in Hin;
      intuition (subst; discriminate).
Qed.

(** X7: for a candidate named stem, dot, extension in a directory whose path
    [resolve] returned, the companion path is the path of an entry of the
    same directory named by the stem and ".json".  So two candidates of one
    directory that differ in the extension only, as "x.pdf" and "x.PDF",
    have the same companion path. *)
Theorem companion_of_entry (cwd dir stem ext : string) :
  resolved dir ->
  no_slash (of_string stem) -> no_slash (of_string ext) ->
  ext <> ""%string -> has_dot ext = false ->
  jsonPathForPdf (resolve cwd [dir; stem ++ "." ++ ext]%string)
    = resolve cwd [dir; stem ++ ".json"]%string.
Proof.
  intros Hdir Hs He Hne Hdot.
  assert (Hne' : of_string ext <> []).
  { intros E. apply Hne. now rewrite <- (to_of_string ext), E. }
  pose proof (has_dot_no_dot ext Hdot) as Hd.
  destruct (plain_with_extension _ _ Hs He Hne' Hd) as [Hns Hn].
  assert (Hname : plain_name (stem ++ "." ++ ext)).
  { unfold plain_name. rewrite of_string_dotted. now split. }
  assert (Hjson : plain_name (stem ++ ".json")).
  { unfold plain_name. rewrite of_string_app. split.
    - apply Forall_app. split; [assumption|repeat constructor].
    - apply (json_ext_normal (of_string stem)). }
  destruct (resolve_child_strings cwd dir _ Hdir Hname) as (st & Ed & Hwf & Hgood & Ep).
  destruct (resolve_child_strings cwd dir _ Hdir Hjson) as (st' & Ed' & Hwf' & Hgood' & Ep').
  assert (st' = st) as -> by (apply finish_true_inj; congruence).
  rewrite jsonPathForPdf_chars, <- (to_of_string (resolve cwd [dir; (stem ++ ".json")%string])).
  f_equal. rewrite Ep', json_chars_joined, Ep.
  destruct Hname as [Hns' Hn']. pose proof Hn' as (Hne'' & _ & _).
  assert (Hgood2 : good_stack (of_string (stem ++ "." ++ ext) :: st)) by (constructor; auto).
  rewrite finish_dirname by assumption. simpl tl.
  destruct (dir_of_props true st Hwf Hgood) as (_ & Habs & Hst).
  rewrite Habs, Hst. unfold json_name.
  change (finish true (of_string (stem ++ "." ++ ext) :: st))
    with (joined true st (of_string (stem ++ "." ++ ext))).
  rewrite joined_basename by assumption.
  rewrite of_string_dotted, replace_ext_strips by assumption.
  now rewrite of_string_app.
Qed.

(** X7, for "/w/a/report.pdf" and "/w/a/report.PDF". *)
Lemma companion_of_entry_sample :
  jsonPathForPdf (resolve "/w" ["/w/a"; "report.pdf"]%string)
    = jsonPathForPdf (resolve "/w" ["/w/a"; "report.PDF"]%string).
Proof.
  assert (Hdir : resolved "/w/a").
  { exists "/w"%string, ["a"%string]. split; reflexivity. }
  assert (Hns : forall s, forallb (fun c => negb (is_slash c)) (of_string s) = true ->
                          no_slash (of_string s)).
  { intros s H. apply List.Forall_forall. intros c Hc.
    rewrite forallb_forall in H. apply negb_true_iff. now apply H. }
  pose proof (companion_of_entry "/w" "/w/a" "report" "pdf" Hdir
                (Hns "report"%string eq_refl) (Hns "pdf"%string eq_refl)) as H1.
  pose proof (companion_of_entry "/w" "/w/a" "report" "PDF" Hdir
                (Hns "report"%string eq_refl) (Hns "PDF"%string eq_refl)) as H2.
  exact (eq_trans (H1 ltac:(discriminate) eq_refl)
                  (eq_sym (H2 ltac:(discriminate) eq_refl))).
Defined.

(** ** Edges of a job *)

(** X8: two candidates with the same companion path, as "report.pdf" and
    "report.PDF" of one directory: when the path is free, the command exits
    with status zero for the first and the write of its output succeeds, the
    second is skipped.  No job is started for it, and the companion file
    holds the output for the first. *)
Theorem shared_companion_skips_second
    (VERBOSE : bool) (prompt : string) (JSON_parses : string -> bool)
    (polka : string -> gmap string string -> Proc) (disk : Disk)
    (count i : nat) (a b : string) (w : World)
    (stdoutText : string) (after rest : gmap string string) :
  jsonPathForPdf b = jsonPathForPdf a ->
  files w !! jsonPathForPdf a = None ->
  polka (stdin_of prompt a) (files w) = Exits stdoutText 0 after ->
  write_answer disk (jsonPathForPdf a) stdoutText after = Stored rest ->
  exists w',
    main_loop VERBOSE prompt JSON_parses polka disk count i [a; b] w
      = (Ok [Succeeded; Skipped], w') /\
    jobs w' = jobs w ++ [a] /\
    files w' = <[jsonPathForPdf a := stdoutText]> rest.
Proof.
  intros Hsame Hfree Hrun Hwrite.
  destruct (iteration_exits VERBOSE prompt JSON_parses polka disk count i a w
              stdoutText 0 after Hfree Hrun) as (w1 & E1 & Hf1 & Hj1).
  unfold after_job in E1, Hf1. simpl in E1, Hf1. rewrite Hwrite in E1, Hf1.
  simpl in E1, Hf1.
  assert (Hthere : is_Some (files w1 !! jsonPathForPdf b)).
  { rewrite Hsame, Hf1, lookup_insert_eq. eauto. }
  eexists. split; [|split].
  - simpl. unfold bind. rewrite E1.
    rewrite (iteration_skips VERBOSE prompt JSON_parses polka disk count (S i) b w1 Hthere).
    reflexivity.
  - exact Hj1.
  - exact Hf1.
Qed.

(** X8, for "/w/report.pdf" and "/w/report.PDF". *)
Lemma shared_companion_skips_second_sample :
  exists w',
    main_loop false sample_prompt is_json_array polka_succeeds plain_disk 2 0
      ["/w/report.pdf"; "/w/report.PDF"]%string (world0 ∅)
      = (Ok [Succeeded; Skipped], w') /\
    jobs w' = ["/w/report.pdf"%string].
Proof.
  assert (Hsame : jsonPathForPdf "/w/report.PDF" = jsonPathForPdf "/w/report.pdf")
    by (vm_compute; reflexivity).
  assert (Hfree : files (world0 ∅) !! jsonPathForPdf "/w/report.pdf" = None)
    by (vm_compute; reflexivity).
  destruct (shared_companion_skips_second false sample_prompt is_json_array polka_succeeds
              plain_disk 2 0 "/w/report.pdf" "/w/report.PDF" (world0 ∅) "[]" ∅ ∅
              Hsame Hfree eq_refl eq_refl)
    as (w' & E & Hj & _).
  exists w'. split; [exact E|exact Hj].
Defined.

(** X9: when the command comes without standard input or output, the job
    prints an error and returns 1 at once: it writes nothing and removes
    nothing, so a file at the companion path stays as it is.  The round of
    the main loop is Failed. *)
Theorem no_stdio_returns_one
    (VERBOSE : bool) (prompt : string) (JSON_parses : string -> bool)
    (polka : string -> gmap string string -> Proc) (disk : Disk) (p : string) (w : World) :
  polka (stdin_of prompt p) (files w) = NoStdio ->
  runPolkaWithPath VERBOSE prompt JSON_parses polka disk p w =
    (Ok 1%Z,
     mkWorld (files w)
       (console w ++
        (if VERBOSE then [(LOG, SpawnCmd p (jsonPathForPdf p))] else []) ++
        [(ERROR, StdioNotAvailable)])
       (jobs w ++ [p])) /\
  (files w !! jsonPathForPdf p = None ->
   forall count i, exists w',
     iteration VERBOSE prompt JSON_parses polka disk count i p w = (Ok Failed, w') /\
     files w' = files w).
Proof.
  intros Hrun. split.
  - run_script. destruct VERBOSE; simpl; rewrite Hrun; simpl;
      now rewrite <- ?app_assoc.
  - intros Hout count i.
    destruct (iteration_no_stdio VERBOSE prompt JSON_parses polka disk count i p w Hout Hrun)
      as (w' & E & Hf & _).
    now exists w'.
Qed.

(** X9, for a command without standard input and output, next to a file at
    the companion path. *)
Lemma no_stdio_returns_one_sample :
  exists w',
    runPolkaWithPath false sample_prompt is_json_array polka_no_stdio plain_disk
      "/w/a/report.pdf"
      (world0 {["/w/a/report.json"%string := "old"%string]}) = (Ok 1%Z, w') /\
    files w' !! "/w/a/report.json"%string = Some "old"%string.
Proof.
  destruct (no_stdio_returns_one false sample_prompt is_json_array polka_no_stdio plain_disk
              "/w/a/report.pdf" (world0 {["/w/a/report.json"%string := "old"%string]})
              eq_refl) as [E _].
  eexists. split; [exact E|]. vm_compute. reflexivity.
Defined.

(** X10: an exception thrown while the job talks to the command ends the
    job without any cleanup: the files are as the command left them.  Its
    round of the main loop is Errored; and when the command had written
    something at the companion path, the candidate is skipped by every later
    round while the file is there. *)
Theorem exception_leaves_partial_file
    (VERBOSE : bool) (prompt : string) (JSON_parses : string -> bool)
    (polka : string -> gmap string string -> Proc) (disk : Disk)
    (count i : nat) (p : string) (w : World) (e : string) (after : gmap string string) :
  files w !! jsonPathForPdf p = None ->
  polka (stdin_of prompt p) (files w) = PipeThrows e after ->
  exists w',
    iteration VERBOSE prompt JSON_parses polka disk count i p w = (Ok Errored, w') /\
    files w' = after /\ jobs w' = jobs w ++ [p] /\
    (is_Some (after !! jsonPathForPdf p) ->
     forall count' i', exists w'',
       iteration VERBOSE prompt JSON_parses polka disk count' i' p w' = (Ok Skipped, w'') /\
       files w'' = after /\ jobs w'' = jobs w').
Proof.
  intros Hout Hrun.
  destruct (iteration_pipe_throws VERBOSE prompt JSON_parses polka disk count i p w e after
              Hout Hrun) as (w' & E & Hf & Hj).
  exists w'. split; [exact E|split; [exact Hf|split; [exact Hj|]]].
  intros Hthere count' i'. rewrite <- Hf in Hthere.
  rewrite (iteration_skips VERBOSE prompt JSON_parses polka disk count' i' p w' Hthere).
  eexists. split; [reflexivity|]. simpl. auto.
Qed.

(** X10, for a command that writes "/w/a/report.json" before its pipe
    breaks. *)
Lemma exception_leaves_partial_file_sample :
  exists w' w'',
    iteration false sample_prompt is_json_array polka_breaks_midway plain_disk 1 0
      "/w/a/report.pdf" (world0 ∅) = (Ok Errored, w') /\
    files w' !! "/w/a/report.json"%string = Some "[{"%string /\
    iteration false sample_prompt is_json_array polka_breaks_midway plain_disk 1 0
      "/w/a/report.pdf" w' = (Ok Skipped, w'').
Proof.
  assert (Hfree : files (world0 ∅) !! jsonPathForPdf "/w/a/report.pdf" = None)
    by (vm_compute; reflexivity).
  destruct (exception_leaves_partial_file false sample_prompt is_json_array
              polka_breaks_midway plain_disk 1 0 "/w/a/report.pdf" (world0 ∅) "EPIPE"
              (<["/w/a/report.json"%string := "[{"%string]> ∅) Hfree eq_refl)
    as (w' & E & Hf & _ & Hskip).
  assert (Hthere : is_Some ((<["/w/a/report.json"%string := "[{"%string]> ∅ : gmap string string)
                            !! jsonPathForPdf "/w/a/report.pdf"))
    by (eexists; vm_compute; reflexivity).
  destruct (Hskip Hthere 1 0) as (w'' & E' & _).
  exists w', w''. split; [exact E|split; [|exact E']].
  rewrite Hf. vm_compute. reflexivity.
Defined.

(** X16: the script waits for the output and for the exit of a command
    without a time limit.  When the command of a candidate never closes its
    output, or never exits, the round of the candidate does not end and
    neither does the main loop: the job of the candidate is the last one
    started, and no later candidate gets its round. *)
Theorem hung_command_hangs_the_loop
    (VERBOSE : bool) (prompt : string) (JSON_parses : string -> bool)
    (polka : string -> gmap string string -> Proc) (disk : Disk)
    (count i : nat) (p : string) (rest : list string) (w : World) :
  files w !! jsonPathForPdf p = None ->
  hangs (polka (stdin_of prompt p) (files w)) = true ->
  exists w',
    iteration VERBOSE prompt JSON_parses polka disk count i p w = (Pending, w') /\
    main_loop VERBOSE prompt JSON_parses polka disk count i (p :: rest) w = (Pending, w') /\
    jobs w' = jobs w ++ [p].
Proof.
  intros Hout Hhangs.
  destruct (iteration_hangs VERBOSE prompt JSON_parses polka disk count i p w Hout Hhangs)
    as (w' & E & Hj).
  exists w'. split; [exact E|split; [|exact Hj]].
  simpl. unfold bind. now rewrite E.
Qed.

(** X16, for two candidates and a command that never exits. *)
Lemma hung_command_hangs_the_loop_sample :
  exists w',
    main_loop false sample_prompt is_json_array polka_lingers plain_disk 2 0
      ["/w/a.pdf"; "/w/b.pdf"]%string (world0 ∅) = (Pending, w') /\
    jobs w' = ["/w/a.pdf"%string].
Proof.
  assert (Hfree : files (world0 ∅) !! jsonPathForPdf "/w/a.pdf" = None)
    by (vm_compute; reflexivity).
  destruct (hung_command_hangs_the_loop false sample_prompt is_json_array polka_lingers
              plain_disk 2 0 "/w/a.pdf" ["/w/b.pdf"%string] (world0 ∅) Hfree eq_refl)
    as (w' & _ & E & Hj).
  exists w'. split; [exact E|exact Hj].
Defined.

(** ** What the command reads *)

Lemma string_app_inv_tail (a b t : string) : (a ++ t = b ++ t)%string -> a = b.
Proof.
  intros E. apply (f_equal of_string) in E. rewrite !of_string_app in E.
  apply app_inv_tail in E. now rewrite <- (to_of_string a), E, to_of_string.
Qed.

Lemma string_app_inv_head (h a b : string) : (h ++ a = h ++ b)%string -> a = b.
Proof.
  intros E. apply (f_equal of_string) in E. rewrite !of_string_app in E.
  apply app_inv_head in E. now rewrite <- (to_of_string a), E, to_of_string.
Qed.

(** X11: what the command reads names its document: the input is the
    prompt, the separator and a last line with the path, so two jobs with
    the same prompt get the same input only for the same path. *)
Theorem stdin_names_the_document (prompt a b : string) :
  stdin_of prompt a = stdin_of prompt b -> a = b.
Proof.
  unfold stdin_of. intros E.
  do 3 apply string_app_inv_head in E.
  now apply string_app_inv_tail in E.
Qed.

(** X11, for two paths that differ in case only. *)
Lemma stdin_names_the_document_sample :
  String.eqb (stdin_of sample_prompt "/w/report.pdf")
             (stdin_of sample_prompt "/w/report.PDF") = false.
Proof.
  destruct (String.eqb_spec (stdin_of sample_prompt "/w/report.pdf")
              (stdin_of sample_prompt "/w/report.PDF")) as [E|_]; [|reflexivity].
  apply stdin_names_the_document in E. discriminate E.
Defined.

(** ** The order of discovery *)

Lemma for_of_entries_found VERBOSE cwd entries :
  Forall (fun e => forall dir results w,
            fst (walk_entry VERBOSE cwd dir e results w)
              = Ok (results ++ candidates_of_entry cwd dir e)) entries ->
  forall dir results w,
    fst (for_of (walk_entry VERBOSE cwd dir) entries results w)
      = Ok (results ++ flat_map (candidates_of_entry cwd dir) entries).
Proof.
  induction 1 as [|e es He _ IH]; intros dir results w; simpl.
  - now rewrite app_nil_r.
  - unfold bind. specialize (He dir results w).
    destruct (walk_entry VERBOSE cwd dir e results w) as [r w1]. simpl in He. subst r.
    now rewrite IH, app_assoc.
Qed.

Lemma bind_v_fst {A} VERBOSE m (k : M A) w :
  exists w1, bind (v VERBOSE m) (fun _ => k) w = k w1.
Proof. destruct (v_steady VERBOSE m w) as (w1 & E & _). exists w1. unfold bind. now rewrite E. Qed.

Lemma walk_entry_found VERBOSE cwd e :
  forall dir results w,
    fst (walk_entry VERBOSE cwd dir e results w)
      = Ok (results ++ candidates_of_entry cwd dir e).
Proof.
  induction e as [name|name|name message|name entries IH] using Dirent_nested_ind;
    intros dir results w; simpl.
  - destruct (is_pdf_name name); [|now rewrite app_nil_r].
    destruct (bind_v_fst VERBOSE (FoundPdf (resolve cwd [dir; name]))
                (ret (results ++ [resolve cwd [dir; name]])) w) as (w1 & ->).
    reflexivity.
  - now rewrite app_nil_r.
  - destruct (excluded name).
    + destruct (bind_v_fst VERBOSE (SkipDir (resolve cwd [dir; name])) (ret results) w)
        as (w1 & ->). simpl. now rewrite app_nil_r.
    + unfold walk_with.
      match goal with
      | |- fst (bind (v _ ?m) (fun _ => ?k) _) = _ =>
          destruct (bind_v_fst VERBOSE m k w) as (w1 & ->)
      end.
      simpl. now rewrite app_nil_r.
  - destruct (excluded name).
    + destruct (bind_v_fst VERBOSE (SkipDir (resolve cwd [dir; name])) (ret results) w)
        as (w1 & ->). simpl. now rewrite app_nil_r.
    + unfold walk_with.
      match goal with
      | |- fst (bind (v _ ?m) (fun _ => ?k) _) = _ =>
          destruct (bind_v_fst VERBOSE m k w) as (w1 & ->)
      end.
      now apply for_of_entries_found.
Qed.

Lemma findPdfPathsRecursive_found VERBOSE cwd root tree w :
  fst (findPdfPathsRecursive VERBOSE cwd root tree w) = Ok (candidates_of cwd root tree).
Proof.
  destruct (findPdfPathsRecursive_spec VERBOSE cwd root tree w) as (results & w' & E & _).
  rewrite E. simpl. f_equal.
  unfold findPdfPathsRecursive, bind in E.
  assert (Hwalk : fst (walk VERBOSE cwd root tree [] w) = Ok (candidates_of cwd root tree)).
  { unfold walk, walk_with.
    match goal with
    | |- fst (bind (v _ ?m) (fun _ => ?k) _) = _ =>
        destruct (bind_v_fst VERBOSE m k w) as (w1 & ->)
    end.
    destruct tree as [entries|message]; [|reflexivity].
    rewrite for_of_entries_found; [reflexivity|].
    apply Forall_forall. intros e _. apply walk_entry_found. }
  destruct (walk VERBOSE cwd root tree [] w) as [r w1]. simpl in Hwalk. subst r.
  unfold log, emit in E.
  destruct (when VERBOSE _ _) as [[[]|e|] w2]; [|discriminate..].
  now injection E as <- _.
Qed.

(** X12: the result of discovery is a function of the directory tree alone,
    the same in every world and in both modes, and it is in the order of the
    walk: the candidates of a list of entries are those of its first part
    followed by those of the rest; a file gives its path when its name
    matches; a directory gives the candidates found from it, in place, and
    nothing when it is excluded or cannot be read. *)
Theorem discovery_in_walk_order (VERBOSE : bool) (cwd root : string) (w : World) :
  (forall VERBOSE' w' tree,
     fst (findPdfPathsRecursive VERBOSE' cwd root tree w')
       = fst (findPdfPathsRecursive VERBOSE cwd root tree w)) /\
  (forall es1 es2, exists r1 r2,
     fst (findPdfPathsRecursive VERBOSE cwd root (Entries es1) w) = Ok r1 /\
     fst (findPdfPathsRecursive VERBOSE cwd root (Entries es2) w) = Ok r2 /\
     fst (findPdfPathsRecursive VERBOSE cwd root (Entries (es1 ++ es2)) w)
       = Ok (r1 ++ r2)) /\
  (forall name,
     fst (findPdfPathsRecursive VERBOSE cwd root (Entries [File name]) w)
       = Ok (if is_pdf_name name then [resolve cwd [root; name]] else [])) /\
  (forall name content,
     fst (findPdfPathsRecursive VERBOSE cwd root (Entries [Directory name content]) w)
       = if excluded name then Ok []
         else fst (findPdfPathsRecursive VERBOSE cwd (resolve cwd [root; name]) content w)) /\
  (forall message,
     fst (findPdfPathsRecursive VERBOSE cwd root (ReaddirFails message) w) = Ok []).
Proof.
  split; [|split; [|split; [|split]]].
  - intros. now rewrite !findPdfPathsRecursive_found.
  - intros es1 es2. do 2 eexists. rewrite !findPdfPathsRecursive_found.
    repeat split. simpl. now rewrite flat_map_app.
  - intros name. rewrite findPdfPathsRecursive_found. simpl.
    destruct (is_pdf_name name); reflexivity.
  - intros name content. rewrite !findPdfPathsRecursive_found. simpl.
    destruct (excluded name); [reflexivity|]. rewrite app_nil_r.
    now destruct content.
  - intros message. now rewrite findPdfPathsRecursive_found.
Qed.

(** ** No candidate twice *)

Lemma tidy_name e : tidy e -> plain_name (entry_name e).
Proof. now intros []. Qed.

Lemma resolve_path_of_stack cwd st name :
  wf_stack false st -> good_stack st -> plain_name name ->
  resolve cwd [path_of_stack st; name] = path_of_stack (of_string name :: st).
Proof.
  intros Hwf Hgood [Hns Hn]. unfold resolve, path_of_stack. simpl map.
  rewrite of_to_string. f_equal. now apply resolve_child.
Qed.

Lemma stack_push_ok st name :
  wf_stack false st -> good_stack st -> plain_name name ->
  wf_stack false (of_string name :: st) /\ good_stack (of_string name :: st).
Proof.
  intros Hwf Hgood [Hns Hn]. split; [now constructor|].
  constructor; [split; [apply Hn|exact Hns]|exact Hgood].
Qed.

Lemma candidates_as_stacks cwd e :
  tidy e -> forall st, wf_stack false st -> good_stack st ->
  candidates_of_entry cwd (path_of_stack st) e = map path_of_stack (stacks_of_entry st e) /\
  Forall (fun s => (exists pre, s = pre ++ of_string (entry_name e) :: st) /\
                   wf_stack false s /\ good_stack s) (stacks_of_entry st e).
Proof.
  induction e as [name|name|name message|name entries IH] using Dirent_nested_ind;
    intros Htidy st Hwf Hgood; simpl.
  - inversion Htidy as [? Hname| | |]; subst.
    destruct (is_pdf_name name); [|split; [reflexivity|constructor]].
    rewrite resolve_path_of_stack by assumption. split; [reflexivity|].
    destruct (stack_push_ok st name Hwf Hgood Hname).
    constructor; [|constructor]. split; [now exists []|split; assumption].
  - split; [reflexivity|constructor].
  - destruct (excluded name); split; (reflexivity || constructor).
  - inversion Htidy as [| | |? ? Hname Hnames Hall]; subst.
    destruct (excluded name); [split; [reflexivity|constructor]|].
    rewrite resolve_path_of_stack by assumption.
    destruct (stack_push_ok st name Hwf Hgood Hname) as [Hwf' Hgood'].
    set (st' := of_string name :: st) in *.
    clear Hnames Htidy. induction entries as [|e es IHes]; [split; [reflexivity|constructor]|].
    inversion IH as [|? ? He Hes]; subst. inversion Hall as [|? ? Hte Htes]; subst.
    destruct (He Hte st' Hwf' Hgood') as [E1 F1].
    destruct (IHes Hes Htes) as [E2 F2].
    simpl. rewrite E1, E2, map_app. split; [reflexivity|].
    apply Forall_app. split; [|exact F2].
    eapply Forall_impl; [exact F1|]. intros s ((pre & ->) & Hs).
    split; [|exact Hs]. exists (pre ++ [of_string (entry_name e)]).
    unfold st'. now rewrite <- app_assoc.
Qed.

Lemma of_string_inj a b : of_string a = of_string b -> a = b.
Proof. intros E. now rewrite <- (to_of_string a), E, to_of_string. Qed.

Lemma suffix_names_equal (pre1 pre2 : list chars) n1 n2 st :
  pre1 ++ n1 :: st = pre2 ++ n2 :: st -> n1 = n2.
Proof.
  intros E.
  change (pre1 ++ n1 :: st) with (pre1 ++ [n1] ++ st) in E.
  change (pre2 ++ n2 :: st) with (pre2 ++ [n2] ++ st) in E.
  rewrite !app_assoc in E. apply app_inv_tail in E.
  now apply app_inj_tail in E.
Qed.

Lemma NoDup_flat_map_names (stacks : Dirent -> list (list chars)) st (es : list Dirent) :
  NoDup (map entry_name es) ->
  Forall (fun e => NoDup (stacks e) /\
                   Forall (fun s => exists pre, s = pre ++ of_string (entry_name e) :: st)
                          (stacks e)) es ->
  NoDup (flat_map stacks es).
Proof.
  induction es as [|e es IH]; intros Hnames Hall; simpl; [constructor|].
  inversion Hnames as [|? ? Hfresh Hnames']; subst.
  inversion Hall as [|? ? [Hnd He] Hes]; subst.
  apply NoDup_app. split; [exact Hnd|split; [|now apply IH]].
  intros s Hs Hs'. apply Hfresh. apply list_elem_of_In.
  apply list_elem_of_In in Hs, Hs'.
  apply in_flat_map in Hs' as (e' & Hin & Hs').
  rewrite List.Forall_forall in He, Hes.
  destruct (He s Hs) as (pre & E).
  destruct (Hes e' Hin) as [_ He']. rewrite List.Forall_forall in He'.
  destruct (He' s Hs') as (pre' & E').
  rewrite E in E'. apply suffix_names_equal, of_string_inj in E'.
  rewrite E'. now apply in_map.
Qed.

Lemma stacks_suffix e :
  forall st,
    Forall (fun s => exists pre, s = pre ++ of_string (entry_name e) :: st)
           (stacks_of_entry st e).
Proof.
  induction e as [name|name|name message|name entries IH] using Dirent_nested_ind;
    intros st; simpl.
  - destruct (is_pdf_name name); repeat constructor. now exists [].
  - constructor.
  - destruct (excluded name); constructor.
  - destruct (excluded name); [constructor|].
    induction IH as [|e es He _ IHes]; simpl; [constructor|].
    apply Forall_app. split; [|exact IHes].
    eapply Forall_impl; [apply He|]. intros s (pre & ->).
    exists (pre ++ [of_string (entry_name e)]). now rewrite <- app_assoc.
Qed.

Lemma stacks_NoDup e :
  tidy e -> forall st, NoDup (stacks_of_entry st e).
Proof.
  induction e as [name|name|name message|name entries IH] using Dirent_nested_ind;
    intros Htidy st; simpl.
  - destruct (is_pdf_name name); [apply NoDup_singleton|constructor].
  - constructor.
  - destruct (excluded name); constructor.
  - inversion Htidy as [| | |? ? Hname Hnames Hall]; subst.
    destruct (excluded name); [constructor|].
    apply (NoDup_flat_map_names _ (of_string name :: st)); [exact Hnames|].
    rewrite List.Forall_forall in IH, Hall. apply List.Forall_forall. intros e He.
    split; [apply IH; auto|apply stacks_suffix].
Qed.

Lemma NoDup_map_on {A B} (f : A -> B) (l : list A) :
  (forall x y, In x l -> In y l -> f x = f y -> x = y) ->
  NoDup l -> NoDup (map f l).
Proof.
  intros Hinj Hnd. induction Hnd as [|x l Hx Hnd IH]; simpl; constructor.
  - intros Hin. apply list_elem_of_In, in_map_iff in Hin as (y & Hy & Hin).
    assert (y = x) as -> by (apply Hinj; simpl; auto).
    apply Hx. now apply list_elem_of_In.
  - apply IH. intros a b Ha Hb. apply Hinj; simpl; auto.
Qed.

Lemma path_of_stack_inj st st' :
  wf_stack false st -> good_stack st -> wf_stack false st' -> good_stack st' ->
  path_of_stack st = path_of_stack st' -> st = st'.
Proof.
  intros Hwf Hgood Hwf' Hgood' E. apply finish_true_inj; try assumption.
  unfold path_of_stack in E.
  now rewrite <- (of_to_string (finish true st)), E, of_to_string.
Qed.

Lemma candidates_of_NoDup cwd root entries :
  resolved root -> NoDup (map entry_name entries) -> Forall tidy entries ->
  NoDup (candidates_of cwd root (Entries entries)).
Proof.
  intros Hroot Hnames Hall.
  destruct (resolved_form root Hroot) as (st & Eroot & Hwf & Hgood).
  assert (Hpath : root = path_of_stack st).
  { unfold path_of_stack. now rewrite <- Eroot, to_of_string. }
  subst root. simpl.
  assert (Heq : flat_map (candidates_of_entry cwd (path_of_stack st)) entries
                = map path_of_stack (flat_map (stacks_of_entry st) entries)).
  { clear Hnames. induction Hall as [|e es He _ IH]; [reflexivity|].
    simpl. rewrite map_app, IH.
    now destruct (candidates_as_stacks cwd e He st Hwf Hgood) as [-> _]. }
  rewrite Heq. apply NoDup_map_on.
  - assert (Hok : Forall (fun s => wf_stack false s /\ good_stack s)
                         (flat_map (stacks_of_entry st) entries)).
    { clear Hnames Heq. induction Hall as [|e es He _ IH]; [constructor|].
      simpl. apply Forall_app. split; [|exact IH].
      destruct (candidates_as_stacks cwd e He st Hwf Hgood) as [_ F].
      eapply Forall_impl; [exact F|]. now intros s [_ Hs]. }
    rewrite List.Forall_forall in Hok. intros x y Hx Hy E.
    destruct (Hok x Hx), (Hok y Hy). now apply path_of_stack_inj.
  - apply (NoDup_flat_map_names _ st); [exact Hnames|].
    rewrite List.Forall_forall in Hall. apply List.Forall_forall. intros e He.
    split; [apply stacks_NoDup; auto|apply stacks_suffix].
Qed.

Lemma started_in pdfs : forall outcomes p, In p (started pdfs outcomes) -> In p pdfs.
Proof.
  induction pdfs as [|q pdfs IH]; intros [|o os] p Hin; simpl in *; try contradiction.
  destruct (is_skipped o); [right; eauto|].
  destruct Hin as [-> | Hin]; [now left|right; eauto].
Qed.

Lemma started_NoDup pdfs : NoDup pdfs -> forall outcomes, NoDup (started pdfs outcomes).
Proof.
  induction 1 as [|q pdfs Hq Hnd IH]; intros [|o os]; simpl; try constructor.
  destruct (is_skipped o); [apply IH|]. constructor; [|apply IH].
  intros Hin. apply Hq. apply list_elem_of_In in Hin. apply list_elem_of_In.
  eapply started_in. exact Hin.
Qed.

(** A round starts at most one job, the one of its candidate, however it
    ends. *)
Lemma iteration_jobs VERBOSE prompt JSON_parses polka disk count i p w :
  jobs (snd (iteration VERBOSE prompt JSON_parses polka disk count i p w)) = jobs w \/
  jobs (snd (iteration VERBOSE prompt JSON_parses polka disk count i p w)) = jobs w ++ [p].
Proof.
  destruct (files w !! jsonPathForPdf p) eqn:Hout.
  - left. rewrite iteration_skips by eauto. reflexivity.
  - right. destruct (hangs (polka (stdin_of prompt p) (files w))) eqn:Hhangs.
    + destruct (iteration_hangs VERBOSE prompt JSON_parses polka disk count i p w Hout Hhangs)
        as (w' & -> & Hj). exact Hj.
    + destruct (iteration_returns VERBOSE prompt JSON_parses polka disk count i p w Hhangs)
        as (o & w' & E). rewrite E. apply iteration_round_inv in E.
      destruct E as [([x Hsome] & _) | (_ & Hj & _)]; [congruence|exact Hj].
Qed.

(** The jobs of the main loop are jobs of its candidates, in their order,
    each candidate at most once, however the loop ends. *)
Lemma main_loop_jobs_any VERBOSE prompt JSON_parses polka disk count pdfs :
  forall i w, exists started,
    jobs (snd (main_loop VERBOSE prompt JSON_parses polka disk count i pdfs w))
      = jobs w ++ started /\
    started `sublist_of` pdfs.
Proof.
  induction pdfs as [|p rest IH]; intros i w.
  - exists []. simpl. now rewrite app_nil_r.
  - simpl. unfold bind.
    pose proof (iteration_jobs VERBOSE prompt JSON_parses polka disk count i p w) as Hp.
    destruct (iteration VERBOSE prompt JSON_parses polka disk count i p w) as [[o|e|] w1];
      simpl in Hp.
    + destruct (IH (S i) w1) as (l & Hl & Hsub).
      destruct (main_loop VERBOSE prompt JSON_parses polka disk count (S i) rest w1)
        as [[os|e|] w2]; simpl in *;
        (destruct Hp as [Hp | Hp]; rewrite Hp in Hl;
         [exists l; split; [exact Hl|now apply sublist_cons]
         |exists (p :: l); split; [now rewrite Hl, <- app_assoc|now apply sublist_skip]]).
    + destruct Hp as [Hp | Hp];
        [exists []; rewrite app_nil_r|exists [p]]; (split; [exact Hp|]).
      * apply sublist_nil_l.
      * apply sublist_skip, sublist_nil_l.
    + destruct Hp as [Hp | Hp];
        [exists []; rewrite app_nil_r|exists [p]]; (split; [exact Hp|]).
      * apply sublist_nil_l.
      * apply sublist_skip, sublist_nil_l.
Qed.

Lemma run_jobs VERBOSE cwd prompt JSON_parses polka disk tree w :
  exists results w1 started,
    findPdfPathsRecursive VERBOSE cwd cwd tree w = (Ok results, w1) /\
    jobs (snd (run VERBOSE (CwdIs cwd) prompt JSON_parses polka disk tree w))
      = jobs w ++ started /\
    started `sublist_of` results.
Proof.
  destruct (findPdfPathsRecursive_spec VERBOSE cwd cwd tree w)
    as (results & w1 & E1 & (_ & Hj1 & _) & _).
  exists results, w1. unfold run, main, process_cwd, bind, ret. rewrite E1.
  destruct results as [|p rest].
  - simpl. exists []. split; [reflexivity|]. rewrite app_nil_r. split; [exact Hj1|constructor].
  - change (length (p :: rest) =? 0)%nat with false. cbv iota.
    unfold log at 1, emit at 1. cbv beta.
    match goal with
    | |- context [main_loop ?V ?P ?J ?K ?D ?n ?i ?l ?w0] =>
        destruct (main_loop_jobs_any V P J K D n l i w0) as (started & Hj2 & Hsub);
        destruct (main_loop V P J K D n i l w0) as [[os|e|] w2]
    end; simpl in *; exists started; rewrite Hj2, Hj1; auto.
Qed.

(** X13: in a tree as file systems have them (plain names, different names
    within a directory), walked from a root whose path [resolve] returned,
    discovery finds no path twice; so a run that starts with no job on record
    calls [runPolkaWithPath] at most once for every document, whatever the
    commands and the disk do. *)
Theorem discovery_without_repeats
    (VERBOSE : bool) (cwd prompt : string) (JSON_parses : string -> bool)
    (polka : string -> gmap string string -> Proc) (disk : Disk)
    (entries : list Dirent) (w : World) :
  resolved cwd -> NoDup (map entry_name entries) -> Forall tidy entries ->
  (exists results w',
     findPdfPathsRecursive VERBOSE cwd cwd (Entries entries) w = (Ok results, w') /\
     NoDup results) /\
  (jobs w = [] ->
   NoDup (jobs (snd (run VERBOSE (CwdIs cwd) prompt JSON_parses polka disk
                       (Entries entries) w)))).
Proof.
  intros Hcwd Hnames Hall.
  pose proof (candidates_of_NoDup cwd cwd entries Hcwd Hnames Hall) as Hnd.
  destruct (run_jobs VERBOSE cwd prompt JSON_parses polka disk (Entries entries) w)
    as (results & w1 & started & E1 & Hj & Hsub).
  pose proof (findPdfPathsRecursive_found VERBOSE cwd cwd (Entries entries) w) as Hfound.
  rewrite E1 in Hfound. simpl fst in Hfound. injection Hfound as ->.
  split.
  - now exists (candidates_of cwd cwd (Entries entries)), w1.
  - intros Hnone. rewrite Hj, Hnone. simpl.
    eapply sublist_NoDup; eassumption.
Qed.

Ltac plain := split; [repeat constructor|repeat split; discriminate].

Ltac different_names :=
  repeat (apply NoDup_cons_2;
          [rewrite list_elem_of_In; simpl; intuition discriminate|]);
  apply NoDup_nil_2.

(** X13, for the tree of the scenario walked from "/w". *)
Lemma discovery_without_repeats_sample :
  exists results w',
    findPdfPathsRecursive false "/w" "/w" scenario_tree (world0 ∅) = (Ok results, w') /\
    NoDup results.
Proof.
  assert (Hcwd : resolved "/w").
  { exists "/w"%string, []. split; reflexivity. }
  assert (Hnames : NoDup (map entry_name scenario_entries)) by (simpl; different_names).
  assert (Hall : Forall tidy scenario_entries).
  { unfold scenario_entries.
    repeat first [ apply List.Forall_cons | apply List.Forall_nil
                 | apply tidy_file | apply tidy_other | apply tidy_unreadable
                 | apply tidy_directory | plain | (simpl; different_names) ]. }
  destruct (discovery_without_repeats false "/w" sample_prompt is_json_array polka_succeeds
              plain_disk scenario_entries (world0 ∅) Hcwd Hnames Hall) as [H _].
  exact H.
Defined.

(** ** What the console tells *)

Ltac closing :=
  do 2 eexists; split; [reflexivity|]; simpl; rewrite last_last; simpl; eauto.

(** X14: when the command of a round ends, the round returns, and the last
    line it prints tells its outcome: the skip line for Skipped, the line of
    the written file for Succeeded, the warning that the loop continues for
    Failed, and the error line with the exception for Errored. *)
Theorem round_ends_with_its_outcome
    (VERBOSE : bool) (prompt : string) (JSON_parses : string -> bool)
    (polka : string -> gmap string string -> Proc) (disk : Disk)
    (count i : nat) (p : string) (w : World) :
  hangs (polka (stdin_of prompt p) (files w)) = false ->
  exists o w',
    iteration VERBOSE prompt JSON_parses polka disk count i p w = (Ok o, w') /\
    closing_line p o (List.last (console w') (LOG, Done)).
Proof.
  intros Hends. destruct (files w !! jsonPathForPdf p) eqn:Hout.
  - rewrite iteration_skips by eauto. do 2 eexists. split; [reflexivity|].
    simpl. change [(LOG, FileOf (i + 1) count p); (LOG, SkipExisting (jsonPathForPdf p))]
      with ([(LOG, FileOf (i + 1) count p)] ++ [(LOG, SkipExisting (jsonPathForPdf p))]).
    now rewrite app_assoc, last_last.
  - rewrite iteration_absent by assumption. unfold announce. run_script.
    destruct (polka (stdin_of prompt p) (files w))
      as [e| |e after|text code after|after|text after] eqn:Hrun;
      try discriminate Hends;
      destruct VERBOSE; simpl; rewrite Hrun; simpl; try closing;
      destruct (JSON_parses text); simpl;
      destruct (code =? 0)%Z eqn:Hcode; simpl; rewrite ?Hcode; simpl; try closing;
      ask_disk; simpl; rewrite ?Hcode; simpl; closing.
Qed.

(** X14, for a command that prints "[]" and exits with status zero. *)
Lemma round_ends_with_its_outcome_sample :
  exists w',
    iteration false sample_prompt is_json_array polka_succeeds plain_disk 1 0 "/w/a.pdf"
      (world0 ∅) = (Ok Succeeded, w') /\
    exists bytes, List.last (console w') (LOG, Done) = (LOG, WroteJson "/w/a.json" bytes).
Proof.
  destruct (round_ends_with_its_outcome false sample_prompt is_json_array polka_succeeds
              plain_disk 1 0 "/w/a.pdf" (world0 ∅) eq_refl) as (o & w' & E & Hline).
  assert (Ho : fst (iteration false sample_prompt is_json_array polka_succeeds plain_disk 1 0
                      "/w/a.pdf" (world0 ∅)) = Ok Succeeded) by (vm_compute; reflexivity).
  rewrite E in Ho. simpl in Ho. injection Ho as ->.
  exists w'. split; [exact E|]. exact Hline.
Defined.

Lemma prints_nothing V {A} (m : M A) :
  (forall w, console (snd (m w)) = console w) -> prints V m.
Proof. intros H w. exists []. rewrite H, app_nil_r. split; [reflexivity|constructor]. Qed.

Lemma prints_ret V {A} (a : A) : prints V (ret a).
Proof. now apply prints_nothing. Qed.

Lemma prints_throw V {A} e : prints V (@throw A e).
Proof. now apply prints_nothing. Qed.

Lemma prints_bind V {A B} (m : M A) (k : A -> M B) :
  prints V m -> (forall a, prints V (k a)) -> prints V (bind m k).
Proof.
  intros Hm Hk w. unfold bind. destruct (Hm w) as (l1 & E1 & F1).
  destruct (m w) as [[a|e|] w1]; simpl in *.
  - destruct (Hk a w1) as (l2 & E2 & F2). exists (l1 ++ l2).
    rewrite E2, E1, app_assoc. split; [reflexivity|now apply Forall_app].
  - now exists l1.
  - now exists l1.
Qed.

Lemma prints_try_catch V {A} (m : M A) (h : string -> M A) :
  prints V m -> (forall e, prints V (h e)) -> prints V (try_catch m h).
Proof.
  intros Hm Hh w. unfold try_catch. destruct (Hm w) as (l1 & E1 & F1).
  destruct (m w) as [[a|e|] w1]; simpl in *.
  - now exists l1.
  - destruct (Hh e w1) as (l2 & E2 & F2). exists (l1 ++ l2).
    rewrite E2, E1, app_assoc. split; [reflexivity|now apply Forall_app].
  - now exists l1.
Qed.

Lemma prints_emit V l m : verbose_only m = false -> prints V (emit l m).
Proof.
  intros Hm w. exists [(l, m)]. split; [reflexivity|].
  constructor; [now intros _|constructor].
Qed.

Lemma prints_when V (l : Level) (m : Msg) : prints V (when V (emit l m)).
Proof.
  destruct V; [|apply prints_ret].
  intros w. exists [(l, m)]. split; [reflexivity|].
  constructor; [discriminate|constructor].
Qed.

Lemma prints_v V m : prints V (v V m).
Proof. apply prints_when. Qed.

Lemma prints_for_of V {A S} (f : A -> S -> M S) xs :
  Forall (fun x => forall s, prints V (f x s)) xs ->
  forall s, prints V (for_of f xs s).
Proof.
  induction 1 as [|x xs Hx _ IH]; intros s; [apply prints_ret|].
  simpl. apply prints_bind; [apply Hx|exact IH].
Qed.

Lemma prints_list_pdfs V (results : list string) :
  prints V (when V (for_of (fun p (_ : unit) => emit RAW (ListedPdf p)) results tt)).
Proof.
  destruct V; [|apply prints_ret]. simpl.
  apply prints_for_of, Forall_forall. intros p _ s w.
  exists [(RAW, ListedPdf p)]. split; [reflexivity|].
  constructor; [discriminate|constructor].
Qed.

Ltac prints_step :=
  first
    [ apply prints_ret | apply prints_throw | apply prints_v | apply prints_when
    | apply prints_list_pdfs
    | apply prints_emit; reflexivity
    | apply prints_nothing; intros ?; reflexivity
    | apply prints_bind; [|intros ?]
    | apply prints_try_catch; [|intros ?]
    | match goal with
      | |- prints _ (if ?b then _ else _) => destruct b
      end ].

Lemma prints_access V p : prints V (access p).
Proof. apply prints_nothing. intros w. unfold access. now destruct (files w !! p). Qed.

Lemma prints_unlink V disk p : prints V (unlink disk p).
Proof.
  apply prints_nothing. intros w. unfold unlink.
  now destruct (unlink_answer disk p (files w)).
Qed.

Lemma prints_Bun_write V disk p text : prints V (Bun_write disk p text).
Proof.
  apply prints_nothing. intros w. unfold Bun_write.
  now destruct (write_answer disk p text (files w)).
Qed.

Lemma prints_process_cwd V here : prints V (process_cwd here).
Proof. destruct here; [apply prints_ret|apply prints_throw]. Qed.

Lemma prints_Bun_spawn V polka input : prints V (Bun_spawn polka input).
Proof.
  apply prints_nothing. intros w. unfold Bun_spawn. now destruct (polka input (files w)).
Qed.

Lemma prints_communicate V proc : prints V (communicate proc).
Proof. destruct proc; simpl; repeat prints_step. Qed.

Lemma prints_exited V proc : prints V (exited proc).
Proof. destruct proc; simpl; prints_step. Qed.

Lemma prints_walk_entry V cwd e :
  forall dir results, prints V (walk_entry V cwd dir e results).
Proof.
  induction e as [name|name|name message|name entries IH] using Dirent_nested_ind;
    intros dir results; simpl.
  - repeat prints_step.
  - prints_step.
  - unfold walk_with, warn. repeat prints_step.
  - unfold walk_with. destruct (excluded name); repeat prints_step.
    apply prints_for_of. eapply Forall_impl; [exact IH|]. intros e He s. apply He.
Qed.

Lemma prints_findPdfPathsRecursive V cwd root tree :
  prints V (findPdfPathsRecursive V cwd root tree).
Proof.
  unfold findPdfPathsRecursive, walk, walk_with, log, warn.
  apply prints_bind; [|intros results; repeat prints_step].
  apply prints_bind; [apply prints_v|intros _].
  destruct tree; [|repeat prints_step].
  apply prints_for_of, Forall_forall. intros e _ s. apply prints_walk_entry.
Qed.

Lemma prints_runPolkaWithPath V prompt JSON_parses polka disk p :
  prints V (runPolkaWithPath V prompt JSON_parses polka disk p).
Proof.
  unfold runPolkaWithPath, log, warn, error.
  apply prints_bind; [repeat prints_step|intros _].
  apply prints_bind; [apply prints_v|intros _].
  apply prints_bind; [apply prints_Bun_spawn|intros proc].
  destruct (negb (has_stdio proc)); [repeat prints_step|].
  apply prints_bind; [apply prints_v|intros _].
  apply prints_bind; [apply prints_communicate|intros stdoutText].
  apply prints_bind; [apply prints_v|intros _].
  apply prints_bind.
  { unfold when at 1. destruct (negb (JSON_parses stdoutText)); repeat prints_step. }
  intros _.
  apply prints_bind; [apply prints_exited|intros code].
  apply prints_bind; [repeat prints_step|intros _].
  apply prints_bind; [|intros _; apply prints_ret].
  destruct (negb (code =? 0)%Z).
  - apply prints_bind; [repeat prints_step|intros _].
    apply prints_try_catch; [|intros e; apply prints_ret].
    apply prints_bind; [apply prints_unlink|intros _]. apply prints_v.
  - apply prints_bind; [apply prints_Bun_write|intros written]. repeat prints_step.
Qed.

Lemma prints_iteration V prompt JSON_parses polka disk count i p :
  prints V (iteration V prompt JSON_parses polka disk count i p).
Proof.
  unfold iteration, fileExists, log, warn, error.
  apply prints_bind; [repeat prints_step|intros _].
  apply prints_bind.
  { apply prints_try_catch; [|intros e; apply prints_ret].
    apply prints_bind; [apply prints_access|intros _; apply prints_ret]. }
  intros found. destruct found; [repeat prints_step|].
  apply prints_try_catch; [|intros e; repeat prints_step].
  apply prints_bind; [apply prints_runPolkaWithPath|intros code].
  repeat prints_step.
Qed.

Lemma prints_main_loop V prompt JSON_parses polka disk count pdfs :
  forall i, prints V (main_loop V prompt JSON_parses polka disk count i pdfs).
Proof.
  induction pdfs as [|p rest IH]; intros i; simpl; [apply prints_ret|].
  apply prints_bind; [apply prints_iteration|intros o].
  apply prints_bind; [apply IH|intros os]. apply prints_ret.
Qed.

Lemma prints_main V here prompt JSON_parses polka disk tree :
  prints V (main V here prompt JSON_parses polka disk tree).
Proof.
  unfold main, log, warn.
  apply prints_bind; [apply prints_process_cwd|intros cwd].
  apply prints_bind; [apply prints_findPdfPathsRecursive|intros pdfs].
  destruct (length pdfs =? 0)%nat; [repeat prints_step|].
  apply prints_bind; [repeat prints_step|intros _].
  apply prints_bind; [apply prints_main_loop|intros os]. repeat prints_step.
Qed.

Lemma run_console V here prompt JSON_parses polka disk tree w :
  console (snd (run V here prompt JSON_parses polka disk tree w))
    = console (snd (main V here prompt JSON_parses polka disk tree w)).
Proof.
  unfold run.
  now destruct (main V here prompt JSON_parses polka disk tree w) as [[[t os]|e|] w'].
Qed.

Lemma quiet_lines_allowed lines : Forall (allowed false) lines -> quiet_lines lines = lines.
Proof.
  induction 1 as [|line lines Hline _ IH]; [reflexivity|].
  unfold quiet_lines in *. simpl. rewrite (Hline eq_refl). simpl. now rewrite IH.
Qed.

(** X15: a run only adds lines to the console, and what a quiet run prints
    is what the verbose run from the same world prints, without the lines
    that only the verbose mode prints. *)
Theorem quiet_console_is_verbose_console_filtered
    (here : Cwd) (prompt : string) (JSON_parses : string -> bool)
    (polka : string -> gmap string string -> Proc) (disk : Disk)
    (tree : Readdir Dirent) (w : World) :
  exists loud quiet,
    console (snd (run true here prompt JSON_parses polka disk tree w)) = console w ++ loud /\
    console (snd (run false here prompt JSON_parses polka disk tree w)) = console w ++ quiet /\
    quiet = quiet_lines loud.
Proof.
  destruct (prints_main true here prompt JSON_parses polka disk tree w) as (loud & El & _).
  destruct (prints_main false here prompt JSON_parses polka disk tree w) as (quiet & Eq & Fq).
  destruct (agree_main here prompt JSON_parses polka disk tree w w (same_but_verbose_refl w))
    as [_ (_ & _ & Hc)].
  exists loud, quiet. rewrite !run_console. split; [exact El|split; [exact Eq|]].
  rewrite El, Eq, !quiet_lines_app in Hc. apply app_inv_head in Hc.
  now rewrite (quiet_lines_allowed quiet Fq) in Hc.
Qed.
